(** * aus-nem-price-analyzer: a shallow embedding of the loader, the
      aggregate engine and the battery arbitrage simulator

    Sources embedded here:
    - [src/aus_nem_price_analyzer/data_loader.py]
    - [src/aus_nem_price_analyzer/analysis.py]
    - [src/aus_nem_price_analyzer/battery_strategy.py]

    Numbers.  Python floats are idealised as exact rationals ([Q]); rounding
    is not modelled, so every arithmetic equation below is an equation of the
    exact values ([==] on [Q]).  The one irrational operation of the code, the
    square root inside [Series.std], lives in [R].  Where rounding decides,
    in the energy totals of the battery loop, the loop is embedded a second
    time over binary64 ([Binary64]), and the two are compared.

    Errors.  Every [raise] of the sources is a constructor of [error]; a
    function that can raise returns [result]. *)

From Stdlib Require Import ZArith QArith Qround Qminmax.
From Stdlib Require Import List Bool Ascii String.
From Stdlib Require Import Sorting.Permutation Sorting.Sorted.
From Stdlib Require Import Reals Qreals.
From Stdlib Require Import Lia Psatz.
From Stdlib Require PrimFloat.
From stdpp Require Import gmap strings.
Import ListNotations.

Local Open Scope Q_scope.

(* ------------------------------------------------------------------ *)
(** * Errors and results *)

Inductive error : Type :=
| FileNotFound (path : string)
| EmptyCsv
| OverrideNotFound (target override : string)
| MissingRequiredColumn (key : string)
| InvalidTimestampColumn
| InvalidPriceColumn
| InvalidRegionColumn
| NoCsvFiles
| EmptySummary
| EmptySpikes
| MissingCriterion
| InvalidQuantile
| EmptyBacktest
| InvalidEfficiency
| InvalidQuantiles
| PandasError.

(** The text each [DataValidationError] (or [FileNotFoundError]) carries.
    [PandasError] stands for an exception raised inside pandas itself. *)
Definition message (e : error) : string :=
  match e with
  | FileNotFound p => "CSV file not found: " ++ p
  | EmptyCsv => "CSV file is empty."
  | OverrideNotFound t o =>
      "Override for '" ++ t ++ "' not found in CSV: " ++ o
  | MissingRequiredColumn k => "Missing required column for '" ++ k ++ "'."
  | InvalidTimestampColumn =>
      "Timestamp column contains invalid or missing values."
  | InvalidPriceColumn => "Price column contains invalid or missing values."
  | InvalidRegionColumn => "Region column contains invalid or missing values."
  | NoCsvFiles => "No CSV files provided."
  | EmptySummary => "Cannot compute summary on empty dataset."
  | EmptySpikes => "Cannot detect spikes on empty dataset."
  | MissingCriterion => "Provide either threshold or quantile."
  | InvalidQuantile => "Quantile must be between 0 and 1."
  | EmptyBacktest => "Cannot run battery backtest on empty data."
  | InvalidEfficiency => "round_trip_efficiency must be in (0, 1]."
  | InvalidQuantiles => "Quantiles must satisfy 0 <= low < high <= 1."
  | PandasError => "pandas"
  end%string.

Inductive result (A : Type) : Type :=
| Ok (a : A)
| Err (e : error).
Arguments Ok {A} a.
Arguments Err {A} e.

Definition bind {A B} (r : result A) (k : A -> result B) : result B :=
  match r with
  | Ok a => k a
  | Err e => Err e
  end.

Notation "'let*' x ':=' r 'in' k" := (bind r (fun x => k))
  (at level 10, x name, r at level 100, k at level 200).

Fixpoint mapM {A B} (f : A -> result B) (l : list A) : result (list B) :=
  match l with
  | [] => Ok []
  | a :: l' => let* b := f a in let* bs := mapM f l' in Ok (b :: bs)
  end.

(* ------------------------------------------------------------------ *)
(** * Canonical table *)

(** A pandas timestamp: nanoseconds ([instant]) and the zone it carries, if
    any.  A zone-naive value counts wall-clock nanoseconds, a zone-aware one
    nanoseconds since the epoch in UTC. *)
Record Timestamp : Type := mkTimestamp {
  instant : Z;
  tz : option string
}.

Record Row : Type := mkRow {
  timestamp : Timestamp;
  region : string;
  price : Q;
  demand : option Q
}.

(** A frame without a [demand] column is a frame whose rows all have
    [demand = None]. *)
Definition Frame : Type := list Row.

Definition ts_le (a b : Row) : Prop :=
  (instant (timestamp a) <= instant (timestamp b))%Z.

Definition ts_leb (a b : Row) : bool :=
  (instant (timestamp a) <=? instant (timestamp b))%Z.

(** [DataFrame.sort_values("timestamp")].  pandas sorts with its default
    [kind="quicksort"], which fixes no order among rows of equal timestamp,
    so the embedding takes any function that returns the rows rearranged in
    ascending timestamp order. *)
Class SortValues : Type := {
  sort_values : Frame -> Frame;
  sort_values_sorted : forall df, StronglySorted ts_le (sort_values df);
  sort_values_perm : forall df, Permutation df (sort_values df)
}.

(** One such function: insertion sort, which keeps the input order of ties. *)
Fixpoint insert_row (r : Row) (l : Frame) : Frame :=
  match l with
  | [] => [r]
  | x :: l' => if ts_leb r x then r :: l else x :: insert_row r l'
  end.

Definition insertion_sort (df : Frame) : Frame :=
  fold_right insert_row [] df.

(* ------------------------------------------------------------------ *)
(** * Numeric series *)

Definition Qlt_bool (x y : Q) : bool := negb (Qle_bool y x).

Fixpoint insertQ (x : Q) (l : list Q) : list Q :=
  match l with
  | [] => [x]
  | y :: l' => if Qle_bool x y then x :: l else y :: insertQ x l'
  end.

Definition sortQ (l : list Q) : list Q := fold_right insertQ [] l.

Definition Qsum (l : list Q) : Q := fold_right Qplus 0 l.

Definition Qlen (l : list Q) : Q := inject_Z (Z.of_nat (length l)).

(** [Series.quantile(q)] with pandas' default linear interpolation: the
    value at fractional rank [q * (n - 1)] of the sorted values. *)
Definition series_quantile (xs : list Q) (q : Q) : Q :=
  let s := sortQ xs in
  let n := length s in
  let pos := q * inject_Z (Z.of_nat (n - 1)) in
  let lo := Z.to_nat (Qfloor pos) in
  let hi := Nat.min (S lo) (n - 1) in
  let frac := pos - inject_Z (Qfloor pos) in
  let a := nth lo s 0 in
  let b := nth hi s 0 in
  a + (b - a) * frac.

(** [Series.median()]: middle sorted value, or the mean of the two middle
    ones. *)
Definition series_median (xs : list Q) : Q :=
  let s := sortQ xs in
  let n := length s in
  if Nat.even n
  then (nth (n / 2 - 1) s 0 + nth (n / 2) s 0) / 2
  else nth (n / 2) s 0.

(* ------------------------------------------------------------------ *)
(** * battery_strategy.py *)

Module Battery.

Record BatteryResult : Type := mkBatteryResult {
  total_profit : Q;
  charge_events : nat;
  discharge_events : nat;
  cycles : nat;
  energy_from_grid_mwh : Q;
  energy_to_grid_mwh : Q;
  low_threshold : Q;
  high_threshold : Q;
  interval_hours : Q
}.

(** The keyword arguments of [battery_backtest]. *)
Record Config : Type := mkConfig {
  low_quantile : Q;
  high_quantile : Q;
  round_trip_efficiency : Q;
  capacity_mwh : Q;
  power_mw : Q
}.

(** The local variables of the simulation loop. *)
Record State : Type := mkState {
  soc : Q;
  cost : Q;
  revenue : Q;
  n_charge : nat;
  n_discharge : nat;
  energy_from_grid : Q;
  energy_to_grid : Q
}.

Definition init_state : State := mkState 0 0 0 0 0 0 0.

Fixpoint insertZ (x : Z) (l : list Z) : list Z :=
  match l with
  | [] => [x]
  | y :: l' => if (x <=? y)%Z then x :: l else y :: insertZ x l'
  end.

Definition sortZ (l : list Z) : list Z := fold_right insertZ [] l.

(** [Series.diff()] with its leading missing value dropped. *)
Fixpoint diffs (l : list Z) : list Z :=
  match l with
  | x :: ((y :: _) as l') => (y - x)%Z :: diffs l'
  | _ => []
  end.

(** [Timedelta.total_seconds()] of a difference of nanoseconds. *)
Definition total_seconds (ns : Z) : Q := inject_Z ns / 1000000000.

Definition _estimate_interval_hours (df : Frame) : Q :=
  let deltas :=
    map total_seconds (diffs (sortZ (map (fun r => instant (timestamp r)) df))) in
  match deltas with
  | [] => 1
  | _ =>
      let median_seconds := series_median deltas in
      if Qeq_bool median_seconds 0 then 1 else median_seconds / 3600
  end.

Section Loop.

Variable cfg : Config.
Variables low_thr high_thr hours : Q.

(** Lines 77-87: the charge branch of the loop body. *)
Definition charge_check (s : State) (price : Q) : State :=
  if Qle_bool price low_thr && Qlt_bool (soc s) (capacity_mwh cfg) then
    let max_energy_in := power_mw cfg * hours in
    let allowed_in := Qmin max_energy_in (capacity_mwh cfg - soc s) in
    if Qlt_bool 0 allowed_in then
      {| soc := soc s + allowed_in;
         cost := cost s + price * allowed_in;
         revenue := revenue s;
         n_charge := S (n_charge s);
         n_discharge := n_discharge s;
         energy_from_grid := energy_from_grid s + allowed_in;
         energy_to_grid := energy_to_grid s |}
    else s
  else s.

(** Lines 90-101: the discharge branch of the loop body. *)
Definition discharge_check (s : State) (price : Q) : State :=
  if Qle_bool high_thr price && Qlt_bool 0 (soc s) then
    let max_energy_out := power_mw cfg * hours in
    let allowed_out := Qmin max_energy_out (soc s) in
    if Qlt_bool 0 allowed_out then
      let delivered := allowed_out * round_trip_efficiency cfg in
      {| soc := soc s - allowed_out;
         cost := cost s;
         revenue := revenue s + price * delivered;
         n_charge := n_charge s;
         n_discharge := S (n_discharge s);
         energy_from_grid := energy_from_grid s;
         energy_to_grid := energy_to_grid s + delivered |}
    else s
  else s.

(** One iteration of [for price in prices]. *)
Definition row_step (s : State) (price : Q) : State :=
  discharge_check (charge_check s price) price.

Definition run (s : State) (prices : list Q) : State :=
  fold_left row_step prices s.

(** Every state the loop passes through, in order: the state before each
    row, the state between that row's two checks, and the state after the
    last row. *)
Fixpoint trace (s : State) (prices : list Q) : list State :=
  match prices with
  | [] => [s]
  | p :: ps => s :: charge_check s p :: trace (row_step s p) ps
  end.

(** The energy each check may move, lines 79-80 and 92-93. *)
Definition charge_amount (s : State) : Q :=
  Qmin (power_mw cfg * hours) (capacity_mwh cfg - soc s).

Definition discharge_amount (s : State) : Q :=
  Qmin (power_mw cfg * hours) (soc s).

(** What a charge of [amount] at [price] does to the totals. *)
Definition charge_effect (s s1 : State) (price amount : Q) : Prop :=
  soc s1 == soc s + amount /\
  cost s1 == cost s + price * amount /\
  energy_from_grid s1 == energy_from_grid s + amount /\
  n_charge s1 = S (n_charge s).

(** What a discharge of [amount] at [price] does to the totals. *)
Definition discharge_effect (s s1 : State) (price amount : Q) : Prop :=
  soc s1 == soc s - amount /\
  revenue s1 == revenue s + price * (amount * round_trip_efficiency cfg) /\
  energy_to_grid s1 == energy_to_grid s + amount * round_trip_efficiency cfg /\
  n_discharge s1 = S (n_discharge s).

End Loop.

(** The two configuration checks of lines 54-57. *)
Definition valid_config (cfg : Config) : Prop :=
  0 < round_trip_efficiency cfg /\ round_trip_efficiency cfg <= 1 /\
  0 <= low_quantile cfg /\ low_quantile cfg < high_quantile cfg /\
  high_quantile cfg <= 1.

(** Two configurations that differ at most in [round_trip_efficiency]. *)
Definition same_but_efficiency (c1 c2 : Config) : Prop :=
  low_quantile c1 = low_quantile c2 /\ high_quantile c1 = high_quantile c2 /\
  capacity_mwh c1 = capacity_mwh c2 /\ power_mw c1 = power_mw c2.

Definition finish (s : State) (low_thr high_thr hours : Q) : BatteryResult :=
  {| total_profit := revenue s - cost s;
     charge_events := n_charge s;
     discharge_events := n_discharge s;
     cycles := Nat.min (n_charge s) (n_discharge s);
     energy_from_grid_mwh := energy_from_grid s;
     energy_to_grid_mwh := energy_to_grid s;
     low_threshold := low_thr;
     high_threshold := high_thr;
     interval_hours := hours |}.

(** Two runs that differ in efficiency only: same stored energy, same
    cost, and the more efficient one has earned at least as much. *)
Definition ahead (s1 s2 : State) : Prop :=
  soc s1 = soc s2 /\ cost s1 = cost s2 /\ revenue s1 <= revenue s2.


Section Backtest.

Context `{SortValues}.

Definition sorted_prices (df : Frame) : list Q := map price (sort_values df).

Definition thresholds (df : Frame) (cfg : Config) : Q * Q :=
  (series_quantile (sorted_prices df) (low_quantile cfg),
   series_quantile (sorted_prices df) (high_quantile cfg)).

Definition final_state (df : Frame) (cfg : Config) : State :=
  let '(low_thr, high_thr) := thresholds df cfg in
  run cfg low_thr high_thr (_estimate_interval_hours (sort_values df))
      init_state (sorted_prices df).

(** The states of the run of [battery_backtest] on [df]. *)
Definition backtest_trace (df : Frame) (cfg : Config) : list State :=
  let '(low_thr, high_thr) := thresholds df cfg in
  trace cfg low_thr high_thr (_estimate_interval_hours (sort_values df))
        init_state (sorted_prices df).

Definition battery_backtest (df : Frame) (cfg : Config) : result BatteryResult :=
  match df with
  | [] => Err EmptyBacktest
  | _ =>
    if negb (Qlt_bool 0 (round_trip_efficiency cfg)
             && Qle_bool (round_trip_efficiency cfg) 1)
    then Err InvalidEfficiency
    else if negb (Qle_bool 0 (low_quantile cfg)
                  && Qlt_bool (low_quantile cfg) (high_quantile cfg)
                  && Qle_bool (high_quantile cfg) 1)
    then Err InvalidQuantiles
    else
      let '(low_thr, high_thr) := thresholds df cfg in
      let hours := _estimate_interval_hours (sort_values df) in
      Ok (finish (final_state df cfg) low_thr high_thr hours)
  end.

End Backtest.

End Battery.

(* ------------------------------------------------------------------ *)
(** * battery_strategy.py: the loop in binary64 *)

(** Python's [float] is IEEE 754 binary64, and so is the primitive [float]
    of Rocq.  This is the simulation loop of [battery_backtest] once more
    (lines 67-101), every operation rounded as the interpreter rounds it;
    [Battery] above runs the same loop over the rationals, where nothing is
    rounded. *)
Module Binary64.

Import PrimFloat.
Local Open Scope float_scope.

(** The keyword arguments the loop reads. *)
Record Config : Type := mkConfig {
  round_trip_efficiency : float;
  capacity_mwh : float;
  power_mw : float
}.

(** The local variables of the simulation loop. *)
Record State : Type := mkState {
  soc : float;
  cost : float;
  revenue : float;
  n_charge : nat;
  n_discharge : nat;
  energy_from_grid : float;
  energy_to_grid : float
}.

Definition init_state : State := mkState 0 0 0 0 0 0 0.

(** The builtin [min(a, b)]: the first argument unless the second is
    smaller. *)
Definition min (a b : float) : float := if b <? a then b else a.

(** Line 31: [float(median_seconds / 3600) if median_seconds else 1.0]. *)
Definition interval_hours_of (median_seconds : float) : float :=
  if median_seconds =? 0 then 1 else median_seconds / 3600.

Section Loop.

Variable cfg : Config.
Variables low_thr high_thr interval_hours : float.

(** Lines 77-87: the charge branch of the loop body. *)
Definition charge_check (s : State) (price : float) : State :=
  if (price <=? low_thr) && (soc s <? capacity_mwh cfg) then
    let max_energy_in := power_mw cfg * interval_hours in
    let allowed_in := min max_energy_in (capacity_mwh cfg - soc s) in
    if 0 <? allowed_in then
      {| soc := soc s + allowed_in;
         cost := cost s + price * allowed_in;
         revenue := revenue s;
         n_charge := S (n_charge s);
         n_discharge := n_discharge s;
         energy_from_grid := energy_from_grid s + allowed_in;
         energy_to_grid := energy_to_grid s |}
    else s
  else s.

(** Lines 90-101: the discharge branch of the loop body. *)
Definition discharge_check (s : State) (price : float) : State :=
  if (high_thr <=? price) && (0 <? soc s) then
    let max_energy_out := power_mw cfg * interval_hours in
    let allowed_out := min max_energy_out (soc s) in
    if 0 <? allowed_out then
      let delivered := allowed_out * round_trip_efficiency cfg in
      {| soc := soc s - allowed_out;
         cost := cost s;
         revenue := revenue s + price * delivered;
         n_charge := n_charge s;
         n_discharge := S (n_discharge s);
         energy_from_grid := energy_from_grid s;
         energy_to_grid := energy_to_grid s + delivered |}
    else s
  else s.

(** One iteration of [for price in prices]. *)
Definition row_step (s : State) (price : float) : State :=
  discharge_check (charge_check s price) price.

Definition run (s : State) (prices : list float) : State :=
  fold_left row_step prices s.

End Loop.

End Binary64.

(* ------------------------------------------------------------------ *)
(** * data_loader.py *)

Module DataLoader.

(** [DEFAULT_ALIASES]: per role, the accepted lower-case headers in order of
    priority. *)
Definition DEFAULT_ALIASES : gmap string (list string) :=
  list_to_map
    [ ("timestamp", ["timestamp"; "datetime"; "settlementdate"; "trading_interval"]);
      ("region", ["region"; "regionid"]);
      ("price", ["price"; "rrp"]);
      ("demand", ["demand"; "totaldemand"; "total_demand"; "demandmw"]) ]%string.

Record LoadOptions : Type := mkLoadOptions {
  column_overrides : option (gmap string string);
  timezone : option string
}.

(** [LoadOptions()]: no overrides, timezone ["UTC"]. *)
Definition default_options : LoadOptions := mkLoadOptions None (Some "UTC"%string).

(** [str.lower] on the ASCII letters.  The aliases are ASCII, and no
    non-ASCII character lower-cases to a letter that occurs in an alias, so
    this decides [alias in normalized] as Python does. *)
Definition lower_ascii (c : ascii) : ascii :=
  let n := nat_of_ascii c in
  if ((65 <=? n) && (n <=? 90))%nat then ascii_of_nat (n + 32) else c.

Fixpoint lower (s : string) : string :=
  match s with
  | EmptyString => EmptyString
  | String c s' => String (lower_ascii c) (lower s')
  end.

(** [{c.lower(): c for c in columns}]: a later header replaces an earlier
    one of the same lower-case spelling. *)
Definition normalize (columns : list string) : gmap string string :=
  fold_left (fun m c => <[lower c := c]> m) columns ∅.

(** [for alias in aliases: if alias in normalized: return normalized[alias]]. *)
Fixpoint scan_aliases (normalized : gmap string string) (aliases : list string)
  : option string :=
  match aliases with
  | [] => None
  | alias :: rest =>
      match normalized !! alias with
      | Some c => Some c
      | None => scan_aliases normalized rest
      end
  end.

Definition resolve_by_alias (columns : list string) (target : string)
  : option string :=
  scan_aliases (normalize columns) (default [] (DEFAULT_ALIASES !! target)).

Definition _resolve_column (columns : list string) (target : string)
    (overrides : option (gmap string string)) : result (option string) :=
  match overrides with
  | Some ov =>
      match ov !! target with
      | Some override =>
          if bool_decide (override ∈ columns) then Ok (Some override)
          else Err (OverrideNotFound target override)
      | None => Ok (resolve_by_alias columns target)
      end
  | None => Ok (resolve_by_alias columns target)
  end.

(** A cell of the frame [pd.read_csv] returns, seen through the three
    readings [load_csv] makes of it: the value itself ([None] when pandas
    holds a missing value), what [pd.to_datetime(errors="coerce")] makes of
    it ([None] is [NaT]) and what [pd.to_numeric(errors="coerce")] makes of
    it ([None] is [NaN]). *)
Record Cell : Type := mkCell {
  text : option string;
  as_datetime : option Timestamp;
  as_numeric : option Q
}.

Definition null_cell : Cell := mkCell None None None.

Record RawFrame : Type := mkRawFrame {
  columns : list string;
  records : list (list Cell)
}.

(** What lies outside the program: the files [pd.read_csv] can read, and the
    zone database behind [tz_localize] (wall-clock nanoseconds to UTC
    nanoseconds; [None] for a wall time that does not exist or is ambiguous
    in the zone). *)
Record World : Type := mkWorld {
  files : gmap string RawFrame;
  zones : gmap string (Z -> option Z)
}.

(** [df[name]]: the position of the one column called [name].  With no such
    column pandas raises [KeyError]; with several, [df[name]] is a frame and
    the conversions applied to it raise. *)
Fixpoint positions (name : string) (cols : list string) (i : nat) : list nat :=
  match cols with
  | [] => []
  | c :: cols' =>
      if String.eqb c name then i :: positions name cols' (S i)
      else positions name cols' (S i)
  end.

Definition column (cols : list string) (recs : list (list Cell)) (name : string)
  : result (list Cell) :=
  match positions name cols 0 with
  | [i] => Ok (map (fun rec => nth i rec null_cell) recs)
  | _ => Err PandasError
  end.

(** The zone of a parsed column, [Series.dt.tz].  pandas gives a datetime
    column one zone; when the parsed values disagree the column has no
    [.dt] accessor. *)
Definition series_tz (col : list (option Timestamp)) : result (option string) :=
  match omap (fun v => v) col with
  | [] => Ok None
  | t :: ts =>
      if forallb (fun u => bool_decide (tz u = tz t)) ts then Ok (tz t)
      else Err PandasError
  end.

(** Lines 124-131: bring the parsed timestamps to the configured zone. *)
Definition apply_timezone (w : World) (zone : option string)
    (col : list (option Timestamp)) : result (list (option Timestamp)) :=
  match zone with
  | None | Some EmptyString => Ok col
  | Some z =>
      let* current := series_tz col in
      match zones w !! z with
      | None => Err PandasError
      | Some to_utc =>
          match current with
          | None =>
              Ok (map (fun v =>
                         match v with
                         | Some t =>
                             match to_utc (instant t) with
                             | Some u => Some (mkTimestamp u (Some z))
                             | None => None
                             end
                         | None => None
                         end) col)
          | Some _ =>
              Ok (map (fun v =>
                         match v with
                         | Some t => Some (mkTimestamp (instant t) (Some z))
                         | None => None
                         end) col)
          end
      end
  end.

Fixpoint sequence {A} (l : list (option A)) : option (list A) :=
  match l with
  | [] => Some []
  | Some a :: l' =>
      match sequence l' with Some r => Some (a :: r) | None => None end
  | None :: _ => None
  end.

Fixpoint zip_rows (ts : list Timestamp) (rg : list string) (pr : list Q)
    (dm : list (option Q)) : Frame :=
  match ts, rg, pr with
  | t :: ts', r :: rg', p :: pr' =>
      mkRow t r p (hd None dm) :: zip_rows ts' rg' pr' (tl dm)
  | _, _, _ => []
  end.

Section Load.

Context `{SortValues}.

Definition required_roles : list string := ["timestamp"; "region"; "price"]%string.

(** Lines 108-112: a required role that resolves to nothing (or to the
    empty header) is an error. *)
Definition resolve_required (cols : list string)
    (overrides : option (gmap string string)) (key : string)
  : result (string * string) :=
  let* c := _resolve_column cols key overrides in
  match c with
  | None | Some EmptyString => Err (MissingRequiredColumn key)
  | Some name => Ok (key, name)
  end.

Definition load_csv (w : World) (path : string) (options : option LoadOptions)
  : result Frame :=
  let opts := default default_options options in
  match files w !! path with
  | None => Err (FileNotFound path)
  | Some df =>
    match columns df, records df with
    | [], _ | _, [] => Err EmptyCsv
    | cols, recs =>
      let* resolved :=
        mapM (resolve_required cols (column_overrides opts)) required_roles in
      let* demand_col := _resolve_column cols "demand" (column_overrides opts) in
      let resolved :=
        match demand_col with
        | None | Some EmptyString => resolved
        | Some name => resolved ++ [("demand"%string, name)]
        end in
      let rename_map : gmap string string :=
        fold_left (fun m kv => <[snd kv := fst kv]> m) resolved ∅ in
      let cols := map (fun c => default c (rename_map !! c)) cols in
      let* ts_cells := column cols recs "timestamp" in
      let* ts := apply_timezone w (timezone opts) (map as_datetime ts_cells) in
      let* price_cells := column cols recs "price" in
      let prices := map as_numeric price_cells in
      let* demands :=
        if bool_decide ("demand"%string ∈ cols)
        then let* cells := column cols recs "demand" in Ok (map as_numeric cells)
        else Ok [] in
      match sequence ts with
      | None => Err InvalidTimestampColumn
      | Some ts =>
        match sequence prices with
        | None => Err InvalidPriceColumn
        | Some prices =>
          let* region_cells := column cols recs "region" in
          match sequence (map text region_cells) with
          | None => Err InvalidRegionColumn
          | Some regions =>
              Ok (sort_values (zip_rows ts regions prices demands))
          end
        end
      end
    end
  end.

(** The [(timestamp, region)] pair that [drop_duplicates] compares: two
    timestamps are equal when they are the same instant and agree on
    being zone-aware. *)
Definition dup_key (r : Row) : Z * bool * string :=
  (instant (timestamp r), bool_decide (is_Some (tz (timestamp r))), region r).

(** [drop_duplicates(subset=["timestamp", "region"], keep="first")]. *)
Fixpoint drop_duplicates_from (seen : gset (Z * bool * string)) (l : Frame)
  : Frame :=
  match l with
  | [] => []
  | r :: l' =>
      if bool_decide (dup_key r ∈ seen) then drop_duplicates_from seen l'
      else r :: drop_duplicates_from ({[dup_key r]} ∪ seen) l'
  end.

Definition drop_duplicates_rows (l : Frame) : Frame := drop_duplicates_from ∅ l.

(** Whether [sort_values("timestamp")] can order the rows.  Frames loaded
    with the timezone unset keep the zone they were parsed with, so their
    concatenation can hold zone-naive and zone-aware timestamps side by
    side; pandas orders two zone-aware timestamps by instant and two
    zone-naive ones by wall clock, and raises [TypeError] when asked to
    compare one of each. *)
Definition comparable (l : Frame) : bool :=
  forallb (fun r => bool_decide (is_Some (tz (timestamp r)))) l
  || forallb (fun r => bool_decide (tz (timestamp r) = None)) l.

Definition load_csvs (w : World) (file_paths : list string)
    (options : option LoadOptions) (drop_duplicates : bool) : result Frame :=
  match file_paths with
  | [] => Err NoCsvFiles
  | _ =>
      let* frames := mapM (fun path => load_csv w path options) file_paths in
      let combined := concat frames in
      let combined :=
        if drop_duplicates then drop_duplicates_rows combined else combined in
      if comparable combined then Ok (sort_values combined)
      else Err PandasError
  end.

End Load.

(** A header of the source spelled [alias] up to case. *)
Definition matches (columns : list string) (alias : string) : Prop :=
  exists c, c ∈ columns /\ lower c = alias.

(** The override given for a role, if any: [overrides and target in
    overrides]. *)
Definition override_for (overrides : option (gmap string string))
    (target : string) : option string :=
  match overrides with
  | Some ov => ov !! target
  | None => None
  end.

End DataLoader.

(* ------------------------------------------------------------------ *)
(** * analysis.py *)

Module Analysis.

Definition series_mean (xs : list Q) : Q := Qsum xs / Qlen xs.

(** [Series.min()] and [Series.max()] of a non-empty series. *)
Definition series_min (xs : list Q) : Q :=
  match xs with
  | [] => 0
  | x :: xs' => fold_left Qmin xs' x
  end.

Definition series_max (xs : list Q) : Q :=
  match xs with
  | [] => 0
  | x :: xs' => fold_left Qmax xs' x
  end.

(** The variance under [Series.std(ddof=0)]: squared deviations from the
    mean, divided by [len - ddof = len]. *)
Definition series_var0 (xs : list Q) : Q :=
  let m := series_mean xs in
  Qsum (map (fun x => (x - m) * (x - m)) xs) / Qlen xs.

Definition series_std0 (xs : list Q) : R := sqrt (Q2R (series_var0 xs)).

(** [df["demand"].dropna()]. *)
Definition dropna (l : list (option Q)) : list Q := omap (fun v => v) l.

Definition compute_summary (df : Frame) : result (gmap string R) :=
  match df with
  | [] => Err EmptySummary
  | _ =>
      let prices := map price df in
      let mean_price := series_mean prices in
      let std_price := series_std0 prices in
      let summary : gmap string R :=
        <["std_price"%string := std_price]>
        (<["max_price"%string := Q2R (series_max prices)]>
        (<["min_price"%string := Q2R (series_min prices)]>
        (<["median_price"%string := Q2R (series_median prices)]>
        (<["mean_price"%string := Q2R mean_price]>
        (<["count"%string := INR (length prices)]> ∅))))) in
      let summary :=
        if negb (Qeq_bool mean_price 0)
        then <["coeff_var"%string := (std_price / Q2R mean_price)%R]> summary
        else summary in
      let demand := dropna (map demand df) in
      let summary :=
        match demand with
        | [] => summary
        | _ =>
            <["max_demand"%string := Q2R (series_max demand)]>
            (<["mean_demand"%string := Q2R (series_mean demand)]> summary)
        end in
      Ok summary
  end.

Definition detect_spikes (df : Frame) (threshold quantile : option Q)
  : result (Frame * gmap string Q) :=
  match df with
  | [] => Err EmptySpikes
  | _ =>
    match threshold, quantile with
    | None, None => Err MissingCriterion
    | _, _ =>
      let prices := map price df in
      let* cutoff :=
        match threshold with
        | Some t => Ok t
        | None =>
            match quantile with
            | None => Err InvalidQuantile
            | Some q =>
                if negb (Qle_bool 0 q && Qle_bool q 1) then Err InvalidQuantile
                else Ok (series_quantile prices q)
            end
        end in
      let events := List.filter (fun r => Qle_bool cutoff (price r)) df in
      let stats : gmap string Q :=
        <["spike_count"%string := Qlen (map price events)]>
        (<["cutoff"%string := cutoff]> ∅) in
      let stats :=
        match events with
        | [] => stats
        | _ =>
            <["mean_spike"%string := series_mean (map price events)]>
            (<["max_spike"%string := series_max (map price events)]> stats)
        end in
      Ok (events, stats)
    end
  end.

End Analysis.

(* ------------------------------------------------------------------ *)
(** * analysis.py: filtering *)

Module Filter.

Import DataLoader.

(** What [pd.to_datetime(value, errors="coerce")] makes of a bound: [NaT], a
    zone-naive value (wall-clock nanoseconds) or a zone-aware one, which has
    both its nanoseconds in UTC and the wall-clock nanoseconds it shows in
    its own zone. *)
Inductive Parsed : Type :=
| NaT
| Naive (wall : Z)
| Aware (utc wall : Z) (zone : string).

(** A [start] or [end] argument: its text, for the error message, and its
    parsed value. *)
Record DateValue : Type := mkDateValue {
  shown : string;
  parsed : Parsed
}.

(** The two ways [filter_data] can fail: the [DataValidationError] of
    [_coerce_timestamp], and an exception of pandas when a wall time cannot
    be placed in the zone of the table. *)
Inductive filter_error : Type :=
| InvalidDatetime (value : string)
| ZoneError.

Definition filter_message (e : filter_error) : string :=
  match e with
  | InvalidDatetime v => "Invalid datetime value: " ++ v
  | ZoneError => "pandas"
  end%string.

Inductive outcome (A : Type) : Type :=
| Kept (a : A)
| Failed (e : filter_error).
Arguments Kept {A} a.
Arguments Failed {A} e.

(** Lines 11-26.  [tz] is the zone of the table's timestamp column. *)
Definition _coerce_timestamp (w : World) (value : option DateValue)
    (tz : option string) : outcome (option Timestamp) :=
  match value with
  | None => Kept None
  | Some v =>
      match parsed v with
      | NaT => Failed (InvalidDatetime (shown v))
      | Naive wall =>
          match tz with
          | Some z =>
              match zones w !! z with
              | Some to_utc =>
                  match to_utc wall with
                  | Some u => Kept (Some (mkTimestamp u (Some z)))
                  | None => Failed ZoneError
                  end
              | None => Failed ZoneError
              end
          | None => Kept (Some (mkTimestamp wall None))
          end
      | Aware utc wall _ =>
          match tz with
          | Some z => Kept (Some (mkTimestamp utc (Some z)))
          | None => Kept (Some (mkTimestamp wall None))
          end
      end
  end.

Section FilterData.

(** [str.upper]. *)
Variable upper : string -> string.

(** Line 45: the rows whose region is [wanted] up to case. *)
Definition same_region (wanted : string) (r : Row) : bool :=
  String.eqb (upper (region r)) (upper wanted).

Definition not_before (t : Timestamp) (r : Row) : bool :=
  (instant t <=? instant (timestamp r))%Z.

Definition not_after (t : Timestamp) (r : Row) : bool :=
  (instant (timestamp r) <=? instant t)%Z.

(** Lines 29-56.  [column_tz] is [df["timestamp"].dt.tz], the zone of the
    timestamp column, which a frame has also when it has no rows. *)
Definition filter_data (w : World) (column_tz : option string) (df : Frame)
    (region : option string) (start end_ : option DateValue) : outcome Frame :=
  let filtered :=
    match region with
    | None | Some EmptyString => df
    | Some wanted => List.filter (same_region wanted) df
    end in
  match _coerce_timestamp w start column_tz with
  | Failed e => Failed e
  | Kept start_ts =>
      match _coerce_timestamp w end_ column_tz with
      | Failed e => Failed e
      | Kept end_ts =>
          let filtered :=
            match start_ts with
            | Some t => List.filter (not_before t) filtered
            | None => filtered
            end in
          let filtered :=
            match end_ts with
            | Some t => List.filter (not_after t) filtered
            | None => filtered
            end in
          Kept filtered
      end
  end.

End FilterData.

End Filter.

(* ------------------------------------------------------------------ *)
(** * Auxiliary predicates *)

Module Invariants.

Import Battery DataLoader Filter.


(** Some alias of a role is matched by a header. *)
Definition resolvable (columns : list string) (key : string) : Prop :=
  exists alias, alias ∈ default [] (DEFAULT_ALIASES !! key) /\
                matches columns alias.

(** The headers chosen for the roles: the three required ones and, when
    the source has one, the demand header. *)
Definition chosen_headers (hts hrg hpr : string) (hdm : option string)
  : list string :=
  hts :: hrg :: hpr ::
  match hdm with
  | None | Some EmptyString => []
  | Some h => [h]
  end.

(** The rows all carry a zone, or none of them does. *)
Definition zone_uniform (l : Frame) : Prop :=
  (forall r, In r l -> is_Some (tz (timestamp r))) \/
  (forall r, In r l -> tz (timestamp r) = None).

(** The three steps of [filter_data], each on its own. *)
Definition by_region (upper : string -> string) (region : option string)
    (df : Frame) : Frame :=
  match region with
  | None | Some EmptyString => df
  | Some wanted => List.filter (same_region upper wanted) df
  end.

Definition from_start (start_ts : option Timestamp) (df : Frame) : Frame :=
  match start_ts with
  | Some t => List.filter (not_before t) df
  | None => df
  end.

Definition to_end (end_ts : option Timestamp) (df : Frame) : Frame :=
  match end_ts with
  | Some t => List.filter (not_after t) df
  | None => df
  end.

End Invariants.

(* ------------------------------------------------------------------ *)
(** * Sample inputs *)

Module Examples.

Import Battery.

Definition hour : Z := 3600000000000.

Definition utc (h : Z) : Timestamp := mkTimestamp (h * hour) (Some "UTC"%string).

(** The series of [tests/test_battery_strategy.py]. *)
Definition toy : Frame :=
  [ mkRow (utc 0) "VIC1" 20 None; mkRow (utc 1) "VIC1" 100 None;
    mkRow (utc 2) "VIC1" 200 None; mkRow (utc 3) "VIC1" 50 None ].

Definition toy_config : Config := mkConfig (1#4) (3#4) (9#10) 1 1.
Definition half_efficiency : Config := mkConfig (1#4) (3#4) (1#2) 1 1.
Definition full_efficiency : Config := mkConfig (1#4) (3#4) 1 1 1.
Definition no_power : Config := mkConfig (1#4) (3#4) (9#10) 1 0.
Definition negative_capacity : Config := mkConfig (1#4) (3#4) (9#10) (-1) 1.

Definition flat : Frame := [ mkRow (utc 0) "VIC1" 10 None ].

Definition negative_prices : Frame :=
  [ mkRow (utc 0) "VIC1" (-100) None; mkRow (utc 1) "VIC1" (-50) None ].


Definition thirteen_prices : list Z :=
  [10; 10; 10; 10; 10; 10; 100; 100; 100; 100; 100; 100; 100]%Z.



End Examples.

(** The same hour as the interpreter holds it.  The prices are whole
    numbers; the quantile ranks [0.25 * 12] and [0.75 * 12] are whole, so
    the thresholds are the prices at ranks 3 and 9; every gap is 300
    seconds, and so is their median. *)
Module Binary64Examples.

Import PrimFloat.
Local Open Scope float_scope.

(** The default keyword arguments: efficiency 0.9, capacity 1.0, power
    1.0.  0.9 is no binary64 value; the interpreter holds the nearest
    one. *)
Definition default_config : Binary64.Config :=
  Binary64.mkConfig 0x1.ccccccccccccdp-1 1 1.

Definition thirteen_prices : list float :=
  [10; 10; 10; 10; 10; 10; 100; 100; 100; 100; 100; 100; 100].

Definition low_thr : float := 10.
Definition high_thr : float := 100.
Definition interval_hours : float := Binary64.interval_hours_of 300.

Definition final_state : Binary64.State :=
  Binary64.run default_config low_thr high_thr interval_hours
    Binary64.init_state thirteen_prices.

End Binary64Examples.

Module LoadExamples.

Import DataLoader.

Definition half_hour : Z := 1800000000000.

(** Nanoseconds from the epoch to 2021-01-01 00:00. *)
Definition new_year : Z := 1609459200000000000.

Definition naive (ns : Z) : Timestamp := mkTimestamp ns None.

(** A cell holding a date, one holding a name and one holding a number
    (which [pd.to_datetime] reads as nanoseconds). *)
Definition date_cell (s : string) (t : Timestamp) : Cell :=
  mkCell (Some s) (Some t) None.
Definition name_cell (s : string) : Cell := mkCell (Some s) None None.
Definition number_cell (s : string) (n : Z) : Cell :=
  mkCell (Some s) (Some (naive n)) (Some (inject_Z n)).

(** The two files of [test_load_csvs_concat_and_deduplicate]. *)
Definition part1 : RawFrame :=
  mkRawFrame ["SETTLEMENTDATE"; "REGIONID"; "RRP"]%string
    [ [ date_cell "2021-01-01 00:00" (naive new_year);
        name_cell "VIC1"; number_cell "50" 50 ];
      [ date_cell "2021-01-01 00:30" (naive (new_year + half_hour));
        name_cell "VIC1"; number_cell "60" 60 ] ].

Definition part2 : RawFrame :=
  mkRawFrame ["SETTLEMENTDATE"; "REGIONID"; "RRP"]%string
    [ [ date_cell "2021-01-01 00:30" (naive (new_year + half_hour));
        name_cell "VIC1"; number_cell "70" 70 ];
      [ date_cell "2021-01-01 01:00" (naive (new_year + 2 * half_hour));
        name_cell "VIC1"; number_cell "80" 80 ] ].

(** A file whose timestamps are written with a UTC offset. *)
Definition brisbane : Timestamp :=
  mkTimestamp (new_year - 20 * half_hour) (Some "UTC+10:00"%string).

Definition aware : RawFrame :=
  mkRawFrame ["timestamp"; "region"; "price"]%string
    [ [ date_cell "2021-01-01T00:00:00+10:00" brisbane;
        name_cell "QLD1"; number_cell "50" 50 ] ].

Definition world : World :=
  mkWorld
    (list_to_map [ ("part1.csv", part1); ("part2.csv", part2);
                   ("aware.csv", aware) ]%string)
    {[ "UTC"%string := fun wall => Some wall ]}.

(** [LoadOptions(timezone=None)]. *)
Definition no_timezone : LoadOptions := mkLoadOptions None None.

End LoadExamples.

Module SpikeExamples.

(** The table of [tests/test_analysis.py]. *)
Definition four_rows : Frame :=
  [ mkRow (Examples.utc 0) "VIC1" 50 (Some 1000);
    mkRow (Examples.utc 1) "VIC1" 200 (Some 1200);
    mkRow (Examples.utc 2) "NSW1" 100 (Some 900);
    mkRow (Examples.utc 3) "NSW1" 400 (Some 1500) ].

End SpikeExamples.

Module MoreExamples.

Import DataLoader Filter LoadExamples.

(** The file of [test_load_csv_missing_column_raises]: no price column. *)
Definition no_price : RawFrame :=
  mkRawFrame ["timestamp"; "region"]%string
    [ [ date_cell "2021-01-01 00:00" (naive new_year); name_cell "VIC1" ] ].

Definition bad_world : World :=
  mkWorld (list_to_map [ ("bad.csv", no_price); ("part1.csv", part1) ]%string)
          {[ "UTC"%string := fun wall => Some wall ]}.

Definition utc_at (ns : Z) : Timestamp := mkTimestamp ns (Some "UTC"%string).

(** What [load_csv] makes of the two test files. *)
Definition frame1 : Frame :=
  [ mkRow (utc_at new_year) "VIC1" 50 None;
    mkRow (utc_at (new_year + half_hour)) "VIC1" 60 None ].

Definition frame2 : Frame :=
  [ mkRow (utc_at (new_year + half_hour)) "VIC1" 70 None;
    mkRow (utc_at (new_year + 2 * half_hour)) "VIC1" 80 None ].

(** [str.upper] on the ASCII letters. *)
Definition upper_ascii (c : ascii) : ascii :=
  let n := nat_of_ascii c in
  if ((97 <=? n) && (n <=? 122))%nat then ascii_of_nat (n - 32) else c.

Fixpoint upper (s : string) : string :=
  match s with
  | EmptyString => EmptyString
  | String c s' => String (upper_ascii c) (upper s')
  end.

(** The bounds of [test_filter_data_by_region_and_range], as pandas parses
    them: zone-naive wall times on 2021-01-01. *)
Definition half_past_midnight : DateValue :=
  mkDateValue "2021-01-01 00:30" (Naive (new_year + half_hour)).

Definition two_o_clock : DateValue :=
  mkDateValue "2021-01-01 02:00" (Naive (new_year + 4 * half_hour)).

(** The table of that test: hourly rows from midnight, in UTC. *)
Definition hourly : Frame :=
  [ mkRow (utc_at new_year) "VIC1" 50 (Some 1000);
    mkRow (utc_at (new_year + 2 * half_hour)) "VIC1" 200 (Some 1200);
    mkRow (utc_at (new_year + 4 * half_hour)) "NSW1" 100 (Some 900);
    mkRow (utc_at (new_year + 6 * half_hour)) "NSW1" 400 (Some 1500) ].

(** The events of the test table for a threshold of 300. *)
Definition spikes_300 : Frame * gmap string Q :=
  ([ mkRow (Examples.utc 3) "NSW1" 400 (Some 1500) ],
   <["mean_spike"%string := 400 / 1]>
   (<["max_spike"%string := 400]>
    (<["spike_count"%string := 1]> (<["cutoff"%string := 300]> ∅)))).

End MoreExamples.

(* ------------------------------------------------------------------ *)
(** * Insertion sort is a [SortValues] *)

Lemma insert_row_perm (r : Row) (l : Frame) :
  Permutation (r :: l) (insert_row r l).
Proof.
  induction l as [|x l IH]; simpl; [reflexivity|].
  destruct (ts_leb r x); [reflexivity|].
  rewrite perm_swap. now constructor.
Qed.

Lemma insert_row_sorted (r : Row) (l : Frame) :
  StronglySorted ts_le l -> StronglySorted ts_le (insert_row r l).
Proof.
  induction 1 as [|x l Hs IH Hall]; simpl.
  - repeat constructor.
  - destruct (ts_leb r x) eqn:E; unfold ts_leb in E.
    + apply Z.leb_le in E. constructor; [now constructor|].
      constructor; [exact E|].
      eapply Forall_impl; [exact Hall|].
      intros a Ha. unfold ts_le in *. lia.
    + apply Z.leb_gt in E. constructor; [exact IH|].
      eapply Permutation_Forall; [apply insert_row_perm|].
      constructor; [unfold ts_le; lia | exact Hall].
Qed.

Lemma insertion_sort_sorted (df : Frame) :
  StronglySorted ts_le (insertion_sort df).
Proof.
  induction df as [|r df IH]; simpl; [constructor|].
  now apply insert_row_sorted.
Qed.

Lemma insertion_sort_perm (df : Frame) : Permutation df (insertion_sort df).
Proof.
  induction df as [|r df IH]; simpl; [constructor|].
  etransitivity; [|apply insert_row_perm]. now constructor.
Qed.

#[local] Instance stable_sort : SortValues :=
  {| sort_values := insertion_sort;
     sort_values_sorted := insertion_sort_sorted;
     sort_values_perm := insertion_sort_perm |}.

(* ------------------------------------------------------------------ *)
(** * Comparisons and minima on [Q] *)

Lemma Qlt_bool_iff (x y : Q) : Qlt_bool x y = true <-> x < y.
Proof.
  unfold Qlt_bool. rewrite negb_true_iff, <- not_true_iff_false, Qle_bool_iff.
  split; [apply Qnot_le_lt | apply Qlt_not_le].
Qed.

Lemma Qlt_bool_false (x y : Q) : Qlt_bool x y = false <-> y <= x.
Proof.
  unfold Qlt_bool. rewrite negb_false_iff. apply Qle_bool_iff.
Qed.

Lemma Qle_bool_false (x y : Q) : Qle_bool x y = false <-> y < x.
Proof.
  rewrite <- not_true_iff_false, Qle_bool_iff.
  split; [apply Qnot_le_lt | apply Qlt_not_le].
Qed.

Lemma Qmin_cases (x y : Q) :
  (x <= y /\ Qmin x y = x) \/ (y < x /\ Qmin x y = y).
Proof.
  unfold Qmin, GenericMinMax.gmin.
  destruct (x ?= y) eqn:E.
  - left. split; [|reflexivity]. apply Qeq_alt in E. rewrite E. apply Qle_refl.
  - left. split; [|reflexivity]. apply Qlt_alt in E. now apply Qlt_le_weak.
  - right. split; [|reflexivity]. now apply Qgt_alt in E.
Qed.

Ltac qbool :=
  repeat match goal with
  | H : andb _ _ = true |- _ => apply andb_true_iff in H; destruct H
  | H : Qle_bool _ _ = true |- _ => apply Qle_bool_iff in H
  | H : Qle_bool _ _ = false |- _ => apply Qle_bool_false in H
  | H : Qlt_bool _ _ = true |- _ => apply Qlt_bool_iff in H
  | H : Qlt_bool _ _ = false |- _ => apply Qlt_bool_false in H
  end.

(* ------------------------------------------------------------------ *)
(** * The simulation loop *)

Section BatteryFacts.

Import Battery.
Context `{SortValues}.

Lemma battery_backtest_ok (df : Frame) (cfg : Config) :
  df <> [] -> valid_config cfg ->
  battery_backtest df cfg =
    Ok (finish (final_state df cfg)
               (fst (thresholds df cfg)) (snd (thresholds df cfg))
               (_estimate_interval_hours (sort_values df))).
Proof.
  intros Hne (He0 & He1 & Hl0 & Hlh & Hh1).
  destruct df as [|r df]; [congruence|].
  unfold battery_backtest.
  apply Qlt_bool_iff in He0, Hlh. apply Qle_bool_iff in He1, Hl0, Hh1.
  rewrite He0, He1, Hl0, Hlh, Hh1. simpl negb. cbv iota.
  reflexivity.
Qed.

Lemma run_in_trace (cfg : Config) (low high h : Q) (prices : list Q) (s : State) :
  In (run cfg low high h s prices) (trace cfg low high h s prices).
Proof.
  revert s. induction prices as [|p ps IH]; intros s; [now left|].
  cbn [trace run fold_left]. right. right. apply IH.
Qed.

Lemma start_in_trace (cfg : Config) (low high h : Q) (prices : list Q) (s : State) :
  In s (trace cfg low high h s prices).
Proof. destruct prices; now left. Qed.

Section Steps.

Variable cfg : Config.
Variables low high h : Q.

Lemma charge_check_fires (s : State) (p : Q) :
  p <= low -> soc s < capacity_mwh cfg -> 0 < charge_amount cfg h s ->
  charge_check cfg low h s p =
    {| soc := soc s + charge_amount cfg h s;
       cost := cost s + p * charge_amount cfg h s;
       revenue := revenue s;
       n_charge := S (n_charge s);
       n_discharge := n_discharge s;
       energy_from_grid := energy_from_grid s + charge_amount cfg h s;
       energy_to_grid := energy_to_grid s |}.
Proof.
  intros Hp Hs Ha. unfold charge_check, charge_amount in *.
  apply Qle_bool_iff in Hp. apply Qlt_bool_iff in Hs, Ha.
  now rewrite Hp, Hs, Ha.
Qed.

Lemma charge_check_idle (s : State) (p : Q) :
  ~ (p <= low /\ soc s < capacity_mwh cfg /\ 0 < charge_amount cfg h s) ->
  charge_check cfg low h s p = s.
Proof.
  intros Hn. unfold charge_check, charge_amount in *.
  destruct (Qle_bool p low) eqn:E1; [|reflexivity].
  destruct (Qlt_bool (soc s) (capacity_mwh cfg)) eqn:E2; [|reflexivity].
  cbn [andb].
  destruct (Qlt_bool 0 (Qmin (power_mw cfg * h) (capacity_mwh cfg - soc s))) eqn:E3; [|reflexivity].
  qbool. exfalso. apply Hn. now repeat split.
Qed.

Lemma discharge_check_fires (s : State) (p : Q) :
  high <= p -> 0 < soc s -> 0 < discharge_amount cfg h s ->
  discharge_check cfg high h s p =
    {| soc := soc s - discharge_amount cfg h s;
       cost := cost s;
       revenue := revenue s
         + p * (discharge_amount cfg h s * round_trip_efficiency cfg);
       n_charge := n_charge s;
       n_discharge := S (n_discharge s);
       energy_from_grid := energy_from_grid s;
       energy_to_grid := energy_to_grid s
         + discharge_amount cfg h s * round_trip_efficiency cfg |}.
Proof.
  intros Hp Hs Ha. unfold discharge_check, discharge_amount in *.
  apply Qle_bool_iff in Hp. apply Qlt_bool_iff in Hs, Ha.
  now rewrite Hp, Hs, Ha.
Qed.

Lemma discharge_check_idle (s : State) (p : Q) :
  ~ (high <= p /\ 0 < soc s /\ 0 < discharge_amount cfg h s) ->
  discharge_check cfg high h s p = s.
Proof.
  intros Hn. unfold discharge_check, discharge_amount in *.
  destruct (Qle_bool high p) eqn:E1; [|reflexivity].
  destruct (Qlt_bool 0 (soc s)) eqn:E2; [|reflexivity].
  cbn [andb].
  destruct (Qlt_bool 0 (Qmin (power_mw cfg * h) (soc s))) eqn:E3; [|reflexivity].
  qbool. exfalso. apply Hn. now repeat split.
Qed.

(** Each check either fires or leaves the state alone. *)
Lemma charge_check_cases (s : State) (p : Q) :
  (p <= low /\ soc s < capacity_mwh cfg /\ 0 < charge_amount cfg h s)
  \/ charge_check cfg low h s p = s.
Proof.
  unfold charge_check, charge_amount.
  destruct (Qle_bool p low) eqn:E1; [|now right].
  destruct (Qlt_bool (soc s) (capacity_mwh cfg)) eqn:E2; [|now right].
  cbn [andb].
  destruct (Qlt_bool 0 (Qmin (power_mw cfg * h) (capacity_mwh cfg - soc s))) eqn:E3; [|now right].
  qbool. left. now repeat split.
Qed.

Lemma discharge_check_cases (s : State) (p : Q) :
  (high <= p /\ 0 < soc s /\ 0 < discharge_amount cfg h s)
  \/ discharge_check cfg high h s p = s.
Proof.
  unfold discharge_check, discharge_amount.
  destruct (Qle_bool high p) eqn:E1; [|now right].
  destruct (Qlt_bool 0 (soc s)) eqn:E2; [|now right].
  cbn [andb].
  destruct (Qlt_bool 0 (Qmin (power_mw cfg * h) (soc s))) eqn:E3; [|now right].
  qbool. left. now repeat split.
Qed.

(** A property kept by both checks holds all along the trace. *)
Lemma trace_invariant (P : State -> Prop) :
  (forall s p, P s -> P (charge_check cfg low h s p)) ->
  (forall s p, P s -> P (discharge_check cfg high h s p)) ->
  forall prices s, P s -> Forall P (trace cfg low high h s prices).
Proof.
  intros Hc Hd. induction prices as [|p ps IH]; intros s Hs; cbn [trace].
  - now repeat constructor.
  - constructor; [exact Hs|]. constructor; [now apply Hc|].
    apply IH. unfold row_step. now apply Hd, Hc.
Qed.

Lemma charge_amount_le (s : State) :
  charge_amount cfg h s <= capacity_mwh cfg - soc s.
Proof.
  unfold charge_amount.
  destruct (Qmin_cases (power_mw cfg * h) (capacity_mwh cfg - soc s))
    as [[? E]|[? E]]; rewrite E; lra.
Qed.

Lemma discharge_amount_le (s : State) : discharge_amount cfg h s <= soc s.
Proof.
  unfold discharge_amount.
  destruct (Qmin_cases (power_mw cfg * h) (soc s)) as [[? E]|[? E]];
    rewrite E; lra.
Qed.

Lemma charge_check_soc (s : State) (p : Q) :
  0 <= soc s <= capacity_mwh cfg ->
  0 <= soc (charge_check cfg low h s p) <= capacity_mwh cfg.
Proof.
  intros Hs.
  destruct (charge_check_cases s p) as [(Hp & Hc & Ha)|E]; [|now rewrite E].
  rewrite charge_check_fires by assumption. cbn [soc].
  pose proof (charge_amount_le s). lra.
Qed.

Lemma discharge_check_soc (s : State) (p : Q) :
  0 <= soc s <= capacity_mwh cfg ->
  0 <= soc (discharge_check cfg high h s p) <= capacity_mwh cfg.
Proof.
  intros Hs.
  destruct (discharge_check_cases s p) as [(Hp & Hc & Ha)|E]; [|now rewrite E].
  rewrite discharge_check_fires by assumption. cbn [soc].
  pose proof (discharge_amount_le s). lra.
Qed.





End Steps.

Section Efficiency.

Variables c1 c2 : Config.
Variables low high h : Q.
Hypothesis Hcap : capacity_mwh c1 = capacity_mwh c2.
Hypothesis Hpow : power_mw c1 = power_mw c2.
Hypothesis Heff : round_trip_efficiency c1 <= round_trip_efficiency c2.
Hypothesis Hhigh : 0 <= high.

Lemma charge_check_ahead (s1 s2 : State) (p : Q) :
  ahead s1 s2 ->
  ahead (charge_check c1 low h s1 p) (charge_check c2 low h s2 p).
Proof.
  intros (Hs & Hc & Hr). unfold charge_check.
  rewrite <- Hcap, <- Hpow, <- Hs.
  destruct (Qle_bool p low && Qlt_bool (soc s1) (capacity_mwh c1));
    [|now repeat split].
  destruct (Qlt_bool 0 _); [|now repeat split].
  unfold ahead. cbn [soc cost revenue]. rewrite Hc. now repeat split.
Qed.

Lemma discharge_check_ahead (s1 s2 : State) (p : Q) :
  ahead s1 s2 ->
  ahead (discharge_check c1 high h s1 p) (discharge_check c2 high h s2 p).
Proof.
  intros (Hs & Hc & Hr). unfold discharge_check.
  rewrite <- Hpow, <- Hs.
  destruct (Qle_bool high p) eqn:E1; [|now repeat split].
  destruct (Qlt_bool 0 (soc s1)) eqn:E2; [|now repeat split].
  cbn [andb].
  destruct (Qlt_bool 0 (Qmin (power_mw c1 * h) (soc s1))) eqn:E3;
    [|now repeat split].
  unfold ahead. cbn [soc cost revenue]. repeat split; [exact Hc|].
  qbool. set (a := Qmin (power_mw c1 * h) (soc s1)) in *.
  assert (Hpa : 0 <= p * a) by (apply Qmult_le_0_compat; lra).
  assert (Hm : (p * a) * round_trip_efficiency c1
               <= (p * a) * round_trip_efficiency c2).
  { rewrite (Qmult_comm (p * a)), (Qmult_comm (p * a)).
    now apply Qmult_le_compat_r. }
  lra.
Qed.

Lemma run_ahead (prices : list Q) (s1 s2 : State) :
  ahead s1 s2 ->
  ahead (run c1 low high h s1 prices) (run c2 low high h s2 prices).
Proof.
  revert s1 s2. induction prices as [|p ps IH]; intros s1 s2 Hs; [exact Hs|].
  cbn [run fold_left]. apply IH. unfold row_step.
  now apply discharge_check_ahead, charge_check_ahead.
Qed.

End Efficiency.

(** C1 (amended): on a non-empty table and a configuration that passes the
    two checks, [battery_backtest] folds the loop body over the prices of
    the rows in ascending timestamp order; the body runs the charge check
    and then the discharge check on its result.  The charge check adds the
    amount [min(power * interval_hours, capacity - soc)] to the stored
    energy and to the energy drawn, [price * amount] to the cost, and
    counts one charge event, when [price <= low_threshold],
    [soc < capacity] and the amount is positive; otherwise it changes
    nothing.  The discharge check removes the amount
    [min(power * interval_hours, soc)] from the stored energy, credits
    [amount * round_trip_efficiency] to the energy delivered and, at the
    row's price, to the revenue, and counts one discharge event, when
    [price >= high_threshold], [soc > 0] and the amount is positive;
    otherwise it changes nothing. *)
Theorem battery_backtest_row_rules (df : Frame) (cfg : Config) :
  df <> [] -> valid_config cfg ->
  let low := fst (thresholds df cfg) in
  let high := snd (thresholds df cfg) in
  let h := _estimate_interval_hours (sort_values df) in
  StronglySorted ts_le (sort_values df) /\
  Permutation df (sort_values df) /\
  battery_backtest df cfg =
    Ok (finish
          (fold_left
             (fun s p => discharge_check cfg high h (charge_check cfg low h s p) p)
             (map price (sort_values df)) init_state)
          low high h) /\
  (forall s p,
      let a := charge_amount cfg h s in
      let s1 := charge_check cfg low h s p in
      (p <= low -> soc s < capacity_mwh cfg -> 0 < a ->
       charge_effect s s1 p a /\
       revenue s1 = revenue s /\ n_discharge s1 = n_discharge s /\
       energy_to_grid s1 = energy_to_grid s) /\
      (~ (p <= low /\ soc s < capacity_mwh cfg /\ 0 < a) -> s1 = s)) /\
  (forall s p,
      let a := discharge_amount cfg h s in
      let s1 := discharge_check cfg high h s p in
      (high <= p -> 0 < soc s -> 0 < a ->
       discharge_effect cfg s s1 p a /\
       cost s1 = cost s /\ n_charge s1 = n_charge s /\
       energy_from_grid s1 = energy_from_grid s) /\
      (~ (high <= p /\ 0 < soc s /\ 0 < a) -> s1 = s)).
Proof.
  intros Hne Hv low high h.
  split; [apply sort_values_sorted|].
  split; [apply sort_values_perm|].
  split; [now rewrite battery_backtest_ok|].
  split; intros s p a s1; subst a s1; split.
  - intros Hp Hs Ha. rewrite charge_check_fires by assumption.
    unfold charge_effect. cbn. now repeat split.
  - apply charge_check_idle.
  - intros Hp Hs Ha. rewrite discharge_check_fires by assumption.
    unfold discharge_effect. cbn. now repeat split.
  - apply discharge_check_idle.
Qed.

(** C2 (amended): with a non-negative high threshold, raising
    [round_trip_efficiency] and nothing else never lowers [total_profit]. *)
Theorem efficiency_monotone (df : Frame) (c1 c2 : Config) :
  df <> [] -> valid_config c1 -> valid_config c2 ->
  same_but_efficiency c1 c2 ->
  round_trip_efficiency c1 <= round_trip_efficiency c2 ->
  0 <= snd (thresholds df c1) ->
  exists r1 r2,
    battery_backtest df c1 = Ok r1 /\ battery_backtest df c2 = Ok r2 /\
    total_profit r1 <= total_profit r2.
Proof.
  intros Hne Hv1 Hv2 (Hl & Hh & Hc & Hp) He Hhigh.
  do 2 eexists. split; [now apply battery_backtest_ok|].
  split; [now apply battery_backtest_ok|].
  cbn [total_profit finish]. unfold final_state, thresholds in *.
  cbn [snd] in Hhigh. rewrite <- Hl, <- Hh.
  destruct (run_ahead c1 c2 (series_quantile (sorted_prices df) (low_quantile c1))
              (series_quantile (sorted_prices df) (high_quantile c1))
              (_estimate_interval_hours (sort_values df)) Hc Hp He Hhigh
              (sorted_prices df) init_state init_state)
    as (_ & Hcost & Hrev).
  { now repeat split. }
  rewrite Hcost. lra.
Qed.

(** C3 (amended): when [capacity_mwh] is not negative, the stored energy
    is within [0, capacity] in every state of a run: it starts at 0 and
    each charge check and each discharge check keeps it in that range. *)
Theorem soc_within_capacity (df : Frame) (cfg : Config) :
  0 <= capacity_mwh cfg ->
  soc init_state == 0 /\
  (forall low high h s p,
      0 <= soc s <= capacity_mwh cfg ->
      0 <= soc (charge_check cfg low h s p) <= capacity_mwh cfg /\
      0 <= soc (discharge_check cfg high h s p) <= capacity_mwh cfg) /\
  Forall (fun s => 0 <= soc s <= capacity_mwh cfg) (backtest_trace df cfg) /\
  In (final_state df cfg) (backtest_trace df cfg).
Proof.
  intros Hcap. split; [reflexivity|].
  split.
  { intros low high h s p Hs.
    split; [now apply charge_check_soc | now apply discharge_check_soc]. }
  unfold backtest_trace, final_state, thresholds. split.
  - apply trace_invariant.
    + intros s p. apply charge_check_soc.
    + intros s p. apply discharge_check_soc.
    + cbn. lra.
  - apply run_in_trace.
Qed.


End BatteryFacts.

Section BatteryExamples.

Import Battery Examples.

Ltac qcompute := first
  [ apply Qle_bool_iff; vm_compute; reflexivity
  | apply Qlt_bool_iff; vm_compute; reflexivity ].

Lemma toy_config_valid : valid_config toy_config.
Proof. unfold valid_config. repeat split; qcompute. Defined.

Lemma half_efficiency_valid : valid_config half_efficiency.
Proof. unfold valid_config. repeat split; qcompute. Defined.

Lemma full_efficiency_valid : valid_config full_efficiency.
Proof. unfold valid_config. repeat split; qcompute. Defined.

Lemma no_power_valid : valid_config no_power.
Proof. unfold valid_config. repeat split; qcompute. Defined.

(** The toy series earns 160: one charge at 20, one discharge at 200 with
    nine tenths delivered. *)
Example toy_backtest :
  exists r, battery_backtest toy toy_config = Ok r /\
            total_profit r == 160 /\
            charge_events r = 1%nat /\ discharge_events r = 1%nat /\
            cycles r = 1%nat.
Proof.
  eexists. split; [vm_compute; reflexivity|].
  now repeat split.
Qed.

(** The row rules at the toy series. *)
Lemma battery_backtest_row_rules_witness :
  toy <> [] /\ valid_config toy_config /\
  battery_backtest toy toy_config =
    Ok (finish
          (fold_left
             (fun s p =>
                discharge_check toy_config (snd (thresholds toy toy_config))
                  (_estimate_interval_hours (sort_values toy))
                  (charge_check toy_config (fst (thresholds toy toy_config))
                     (_estimate_interval_hours (sort_values toy)) s p) p)
             (map price (sort_values toy)) init_state)
          (fst (thresholds toy toy_config)) (snd (thresholds toy toy_config))
          (_estimate_interval_hours (sort_values toy))).
Proof.
  assert (Hne : toy <> []) by discriminate.
  split; [exact Hne|]. split; [exact toy_config_valid|].
  exact (proj1 (proj2 (proj2
           (battery_backtest_row_rules toy toy_config Hne toy_config_valid)))).
Defined.

(** C1 as stated fails without power: the one row of [flat] meets both
    conditions of the charge check in the initial state, and the run counts
    no charge event. *)
Lemma charge_event_needs_positive_amount :
  flat <> [] /\ valid_config no_power /\
  let low := fst (thresholds flat no_power) in
  let h := _estimate_interval_hours (sort_values flat) in
  let s1 := charge_check no_power low h init_state 10 in
  map price (sort_values flat) = [10] /\
  10 <= low /\ soc init_state < capacity_mwh no_power /\
  ~ charge_effect init_state s1 10 (charge_amount no_power h init_state) /\
  exists r, battery_backtest flat no_power = Ok r /\ charge_events r = 0%nat.
Proof.
  split; [discriminate|]. split; [exact no_power_valid|].
  cbv zeta. split; [reflexivity|].
  split; [qcompute|]. split; [qcompute|]. split.
  - intros (_ & _ & _ & Hn). vm_compute in Hn. discriminate Hn.
  - eexists. split; [vm_compute; reflexivity|reflexivity].
Qed.

(** On the toy series (high threshold 125) an efficiency of 0.9 earns at
    least what 0.5 earns. *)
Lemma efficiency_monotone_witness :
  toy <> [] /\ valid_config half_efficiency /\ valid_config toy_config /\
  same_but_efficiency half_efficiency toy_config /\
  round_trip_efficiency half_efficiency <= round_trip_efficiency toy_config /\
  0 <= snd (thresholds toy half_efficiency) /\
  exists r1 r2,
    battery_backtest toy half_efficiency = Ok r1 /\
    battery_backtest toy toy_config = Ok r2 /\
    total_profit r1 <= total_profit r2.
Proof.
  assert (Hne : toy <> []) by discriminate.
  assert (Hs : same_but_efficiency half_efficiency toy_config)
    by (repeat split; reflexivity).
  assert (He : round_trip_efficiency half_efficiency
               <= round_trip_efficiency toy_config) by qcompute.
  assert (Hh : 0 <= snd (thresholds toy half_efficiency)) by qcompute.
  repeat (split; [first [exact Hne | exact half_efficiency_valid
                        | exact toy_config_valid | exact Hs | exact He
                        | exact Hh]|]).
  exact (efficiency_monotone toy half_efficiency toy_config Hne
           half_efficiency_valid toy_config_valid Hs He Hh).
Defined.

(** C2 as stated fails when energy is sold at a negative price: on
    [negative_prices] the battery charges at -100 and discharges at -50,
    so delivering more energy costs more. *)
Lemma negative_prices_reverse_monotonicity :
  negative_prices <> [] /\
  valid_config half_efficiency /\ valid_config full_efficiency /\
  same_but_efficiency half_efficiency full_efficiency /\
  round_trip_efficiency half_efficiency <= round_trip_efficiency full_efficiency /\
  exists r1 r2,
    battery_backtest negative_prices half_efficiency = Ok r1 /\
    battery_backtest negative_prices full_efficiency = Ok r2 /\
    total_profit r1 == 75 /\ total_profit r2 == 50 /\
    ~ total_profit r1 <= total_profit r2.
Proof.
  split; [discriminate|].
  split; [exact half_efficiency_valid|]. split; [exact full_efficiency_valid|].
  split; [repeat split; reflexivity|]. split; [qcompute|].
  do 2 eexists. split; [vm_compute; reflexivity|].
  split; [vm_compute; reflexivity|].
  split; [reflexivity|]. split; [reflexivity|].
  apply Qlt_not_le. reflexivity.
Qed.

(** The stored energy of the toy run stays within the capacity of 1. *)
Lemma soc_within_capacity_witness :
  0 <= capacity_mwh toy_config /\
  Forall (fun s => 0 <= soc s <= capacity_mwh toy_config)
         (backtest_trace toy toy_config).
Proof.
  assert (Hc : 0 <= capacity_mwh toy_config) by qcompute.
  split; [exact Hc|].
  exact (proj1 (proj2 (proj2 (soc_within_capacity toy toy_config Hc)))).
Defined.

(** C3 as stated fails for a negative capacity, which the code accepts:
    the run starts at [soc = 0], above the capacity. *)
Lemma negative_capacity_excludes_start :
  (exists r, battery_backtest toy negative_capacity = Ok r) /\
  In init_state (backtest_trace toy negative_capacity) /\
  ~ soc init_state <= capacity_mwh negative_capacity /\
  ~ Forall (fun s => 0 <= soc s <= capacity_mwh negative_capacity)
           (backtest_trace toy negative_capacity).
Proof.
  assert (Hin : In init_state (backtest_trace toy negative_capacity)).
  { unfold backtest_trace, thresholds. apply start_in_trace. }
  assert (Hn : ~ soc init_state <= capacity_mwh negative_capacity).
  { apply Qlt_not_le. reflexivity. }
  split; [eexists; vm_compute; reflexivity|].
  split; [exact Hin|]. split; [exact Hn|].
  intros HF. rewrite List.Forall_forall in HF.
  apply Hn. now apply (HF _ Hin).
Qed.



End BatteryExamples.

(* ------------------------------------------------------------------ *)
(** * Column resolution *)

Section ResolveFacts.

Import DataLoader.

Lemma normalize_from_Some (columns : list string) (m : gmap string string)
    (alias c : string) :
  fold_left (fun m c => <[lower c := c]> m) columns m !! alias = Some c ->
  (c ∈ columns /\ lower c = alias) \/ m !! alias = Some c.
Proof.
  revert m. induction columns as [|x columns IH]; intros m Hm; cbn in Hm.
  - now right.
  - destruct (IH _ Hm) as [[Hin Hl]|Hx].
    + left. split; [now apply list_elem_of_further | exact Hl].
    + destruct (decide (lower x = alias)) as [E|E].
      * rewrite <- E, lookup_insert_eq in Hx. injection Hx as <-.
        left. split; [apply list_elem_of_here | exact E].
      * rewrite lookup_insert_ne in Hx by exact E. now right.
Qed.

Lemma normalize_from_None (columns : list string) (m : gmap string string)
    (alias : string) :
  fold_left (fun m c => <[lower c := c]> m) columns m !! alias = None ->
  m !! alias = None /\ forall c, c ∈ columns -> lower c <> alias.
Proof.
  revert m. induction columns as [|x columns IH]; intros m Hm; cbn in Hm.
  - split; [exact Hm|]. intros c Hc. inversion Hc.
  - destruct (IH _ Hm) as [Hx Hrest].
    destruct (decide (lower x = alias)) as [E|E].
    + rewrite <- E, lookup_insert_eq in Hx. discriminate.
    + rewrite lookup_insert_ne in Hx by exact E. split; [exact Hx|].
      intros c Hc. apply elem_of_cons in Hc as [->|Hc]; [exact E|].
      now apply Hrest.
Qed.

Lemma normalize_Some (columns : list string) (alias c : string) :
  normalize columns !! alias = Some c -> c ∈ columns /\ lower c = alias.
Proof.
  intros Hm. destruct (normalize_from_Some _ _ _ _ Hm) as [Hc|He]; [exact Hc|].
  rewrite lookup_empty in He. discriminate.
Qed.

Lemma normalize_None (columns : list string) (alias : string) :
  normalize columns !! alias = None <-> ~ matches columns alias.
Proof.
  split.
  - intros Hm (c & Hc & Hl).
    now apply (proj2 (normalize_from_None _ _ _ Hm) c Hc).
  - intros Hn. destruct (normalize columns !! alias) as [c|] eqn:E; [|reflexivity].
    exfalso. apply Hn. exists c. now apply normalize_Some.
Qed.

(** The scan stops at the first alias some header matches. *)
Lemma scan_aliases_first (columns before after : list string) (alias : string) :
  matches columns alias ->
  (forall b, b ∈ before -> ~ matches columns b) ->
  exists c, scan_aliases (normalize columns) (before ++ alias :: after) = Some c
            /\ c ∈ columns /\ lower c = alias.
Proof.
  intros Hm. induction before as [|b before IH]; intros Hb; cbn.
  - destruct (normalize columns !! alias) as [c|] eqn:E.
    + exists c. split; [reflexivity|]. now apply normalize_Some.
    + now apply normalize_None in E.
  - assert (Hn : normalize columns !! b = None).
    { apply normalize_None, Hb, list_elem_of_here. }
    rewrite Hn. apply IH. intros x Hx. apply Hb. now apply list_elem_of_further.
Qed.

Lemma scan_aliases_none (columns aliases : list string) :
  (forall a, a ∈ aliases -> ~ matches columns a) ->
  scan_aliases (normalize columns) aliases = None.
Proof.
  induction aliases as [|a aliases IH]; intros Ha; cbn; [reflexivity|].
  assert (Hn : normalize columns !! a = None).
  { apply normalize_None, Ha, list_elem_of_here. }
  rewrite Hn. apply IH. intros x Hx. apply Ha. now apply list_elem_of_further.
Qed.

(** C5: an override for the role decides alone: it is returned when it is
    one of the headers verbatim, and otherwise the call fails with an error
    whose message names the role and the override.  Without an override
    the role's aliases are tried in their fixed order against the headers
    compared in lower case, and the header matching the first alias that
    matches is returned; when no alias matches the result is [None].  A
    source with the header [RRP], and no header spelled [price], resolves
    the role [price] to it. *)
Theorem resolve_column_order (columns : list string) (target : string)
    (overrides : option (gmap string string)) :
  let aliases := default [] (DEFAULT_ALIASES !! target) in
  (forall o, override_for overrides target = Some o -> o ∈ columns ->
     _resolve_column columns target overrides = Ok (Some o)) /\
  (forall o, override_for overrides target = Some o -> o ∉ columns ->
     _resolve_column columns target overrides = Err (OverrideNotFound target o)
     /\ message (OverrideNotFound target o)
        = ("Override for '" ++ target ++ "' not found in CSV: " ++ o)%string) /\
  (override_for overrides target = None ->
     forall before alias after,
       aliases = before ++ alias :: after ->
       matches columns alias ->
       (forall b, b ∈ before -> ~ matches columns b) ->
       exists c, _resolve_column columns target overrides = Ok (Some c)
                 /\ c ∈ columns /\ lower c = alias) /\
  (override_for overrides target = None ->
     (forall a, a ∈ aliases -> ~ matches columns a) ->
     _resolve_column columns target overrides = Ok None) /\
  ("RRP"%string ∈ columns -> ~ matches columns "price" ->
   (forall c, c ∈ columns -> lower c = "rrp"%string -> c = "RRP"%string) ->
   _resolve_column columns "price" None = Ok (Some "RRP"%string)) /\
  (DEFAULT_ALIASES !! "timestamp"%string
     = Some ["timestamp"; "datetime"; "settlementdate"; "trading_interval"]%string
   /\ DEFAULT_ALIASES !! "region"%string = Some ["region"; "regionid"]%string
   /\ DEFAULT_ALIASES !! "price"%string = Some ["price"; "rrp"]%string
   /\ DEFAULT_ALIASES !! "demand"%string
     = Some ["demand"; "totaldemand"; "total_demand"; "demandmw"]%string) /\
  _resolve_column ["RRP"%string] "price" None = Ok (Some "RRP"%string).
Proof.
  intros aliases.
  assert (Hscan : override_for overrides target = None ->
            _resolve_column columns target overrides
            = Ok (scan_aliases (normalize columns) aliases)).
  { unfold override_for, _resolve_column, resolve_by_alias.
    destruct overrides as [ov|]; [|reflexivity].
    intros E. now rewrite E. }
  split; [|split; [|split; [|split; [|split; [|split]]]]].
  - intros o Ho Hin. unfold override_for, _resolve_column in *.
    destruct overrides as [ov|]; [|discriminate]. rewrite Ho.
    now rewrite bool_decide_eq_true_2.
  - intros o Ho Hin. split; [|reflexivity].
    unfold override_for, _resolve_column in *.
    destruct overrides as [ov|]; [|discriminate]. rewrite Ho.
    now rewrite bool_decide_eq_false_2.
  - intros Hov before alias after Ha Hm Hb. rewrite (Hscan Hov), Ha.
    destruct (scan_aliases_first columns before after alias Hm Hb)
      as (c & Hc & Hin & Hl).
    exists c. now rewrite Hc.
  - intros Hov Hn. rewrite (Hscan Hov). now rewrite scan_aliases_none.
  - intros Hin Hprice Honly. unfold _resolve_column, resolve_by_alias.
    destruct (scan_aliases_first columns ["price"%string] [] "rrp"%string)
      as (c & Hc & Hcin & Hl).
    + now exists "RRP"%string.
    + intros b Hb. apply list_elem_of_singleton in Hb. now subst b.
    + change (default [] (DEFAULT_ALIASES !! "price"%string))
        with (["price"%string] ++ ["rrp"%string]).
      rewrite Hc. now rewrite (Honly c Hcin Hl).
  - repeat split; vm_compute; reflexivity.
  - vm_compute. reflexivity.
Qed.

End ResolveFacts.

(* ------------------------------------------------------------------ *)
(** * Loading *)

Lemma bind_Ok {A B} (r : result A) (k : A -> result B) (b : B) :
  bind r k = Ok b -> exists a, r = Ok a /\ k a = Ok b.
Proof. destruct r as [a|e]; cbn; [eauto | discriminate]. Qed.

Section LoadFacts.

Import DataLoader.
Context `{SortValues}.

Lemma sequence_Some {A} (l : list (option A)) (r : list A) :
  sequence l = Some r -> l = map Some r.
Proof.
  revert r. induction l as [|[a|] l IH]; intros r Hr; cbn in Hr.
  - now injection Hr as <-.
  - destruct (sequence l) as [r'|]; [|discriminate].
    injection Hr as <-. cbn. f_equal. now apply IH.
  - discriminate.
Qed.

Lemma column_cells (cols : list string) (recs : list (list Cell))
    (name : string) (cells : list Cell) :
  column cols recs name = Ok cells ->
  forall c, In c cells -> c = null_cell \/ exists rec, In rec recs /\ In c rec.
Proof.
  unfold column. destruct (positions name cols 0) as [|i [|]]; try discriminate.
  intros Hc c Hin. injection Hc as <-. apply in_map_iff in Hin as (rec & <- & Hrec).
  destruct (nth_in_or_default i rec null_cell) as [Hn|Hn].
  - right. now exists rec.
  - now left.
Qed.

Lemma zip_rows_timestamp (ts : list Timestamp) (rg : list string)
    (pr : list Q) (dm : list (option Q)) (r : Row) :
  In r (zip_rows ts rg pr dm) -> In (timestamp r) ts.
Proof.
  revert rg pr dm. induction ts as [|t ts IH]; intros rg pr dm Hin; [easy|].
  destruct rg as [|g rg]; [easy|]. destruct pr as [|p pr]; [easy|].
  cbn in Hin. destruct Hin as [<-|Hin]; [now left|].
  right. eapply IH, Hin.
Qed.

Lemma apply_timezone_unset (w : World) (zone : option string)
    (col : list (option Timestamp)) :
  zone = None \/ zone = Some ""%string -> apply_timezone w zone col = Ok col.
Proof. now intros [->| ->]. Qed.

(** C4 (amended): with no timezone configured, [load_csv] returns every
    timestamp exactly as [pd.to_datetime] parsed it from a cell of the
    source, zone included: a parsed value that carries a zone keeps it. *)
Theorem load_csv_keeps_parsed_zone (w : World) (path : string)
    (opts : LoadOptions) (frame : Frame) :
  timezone opts = None \/ timezone opts = Some ""%string ->
  load_csv w path (Some opts) = Ok frame ->
  exists df,
    files w !! path = Some df /\
    forall r, In r frame ->
      exists rec cell,
        In rec (records df) /\ In cell rec /\
        as_datetime cell = Some (timestamp r).
Proof.
  intros Hz Hload. unfold load_csv in Hload. cbn [default] in Hload.
  destruct (files w !! path) as [df|]; [|discriminate].
  exists df. split; [reflexivity|].
  destruct (columns df) as [|c0 cols0]; [discriminate|].
  destruct (records df) as [|rec0 recs0] eqn:Erecs; [discriminate|].
  apply bind_Ok in Hload as (resolved & _ & Hload).
  apply bind_Ok in Hload as (demand_col & _ & Hload).
  apply bind_Ok in Hload as (ts_cells & Hcells & Hload).
  rewrite (apply_timezone_unset _ _ _ Hz) in Hload. cbn [bind] in Hload.
  apply bind_Ok in Hload as (price_cells & _ & Hload).
  apply bind_Ok in Hload as (demands & _ & Hload).
  destruct (sequence (map as_datetime ts_cells)) as [ts|] eqn:Ets; [|discriminate].
  destruct (sequence (map as_numeric price_cells)) as [prices|]; [|discriminate].
  apply bind_Ok in Hload as (region_cells & _ & Hload).
  destruct (sequence (map text region_cells)) as [regions|]; [|discriminate].
  injection Hload as <-.
  intros r Hr.
  apply (Permutation_in _ (Permutation_sym (sort_values_perm _))) in Hr.
  apply zip_rows_timestamp in Hr.
  apply sequence_Some in Ets.
  assert (Hs : In (Some (timestamp r)) (map as_datetime ts_cells)).
  { rewrite Ets. now apply in_map. }
  apply in_map_iff in Hs as (cell & Hcell & Hin).
  destruct (column_cells _ _ _ _ Hcells cell Hin) as [->|(rec & Hrec & Hc)].
  - discriminate Hcell.
  - now exists rec, cell.
Qed.

(** ** Dropping duplicates *)

Lemma drop_duplicates_sublist (seen : gset (Z * bool * string)) (l : Frame) :
  sublist (drop_duplicates_from seen l) l.
Proof.
  revert seen. induction l as [|r l IH]; intros seen; cbn; [constructor|].
  destruct (bool_decide (dup_key r ∈ seen)).
  - apply sublist_cons, IH.
  - apply sublist_skip, IH.
Qed.

Lemma drop_duplicates_fresh (seen : gset (Z * bool * string)) (l : Frame) (r : Row) :
  In r (drop_duplicates_from seen l) -> dup_key r ∉ seen.
Proof.
  revert seen. induction l as [|x l IH]; intros seen Hin; cbn in Hin; [easy|].
  destruct (bool_decide (dup_key x ∈ seen)) eqn:E.
  - now apply IH.
  - apply bool_decide_eq_false in E. destruct Hin as [<-|Hin]; [exact E|].
    apply IH in Hin. intros Hr. apply Hin. now apply elem_of_union_r.
Qed.

Lemma drop_duplicates_NoDup (seen : gset (Z * bool * string)) (l : Frame) :
  List.NoDup (map dup_key (drop_duplicates_from seen l)).
Proof.
  revert seen. induction l as [|x l IH]; intros seen; cbn; [constructor|].
  destruct (bool_decide (dup_key x ∈ seen)) eqn:E; [apply IH|].
  cbn. constructor; [|apply IH].
  intros Hin. apply in_map_iff in Hin as (y & Hy & Hin).
  apply drop_duplicates_fresh in Hin. apply Hin.
  rewrite Hy. apply elem_of_union_l. now apply elem_of_singleton.
Qed.

(** The first row of each key is kept. *)
Lemma drop_duplicates_first (seen : gset (Z * bool * string))
    (pre post : Frame) (r : Row) :
  dup_key r ∉ seen ->
  (forall x, In x pre -> dup_key x <> dup_key r) ->
  In r (drop_duplicates_from seen (pre ++ r :: post)).
Proof.
  revert seen. induction pre as [|x pre IH]; intros seen Hs Hpre; cbn.
  - rewrite bool_decide_eq_false_2 by exact Hs. now left.
  - assert (Hx : dup_key x <> dup_key r) by (apply Hpre; now left).
    destruct (bool_decide (dup_key x ∈ seen)).
    + apply IH; [exact Hs|]. intros y Hy. apply Hpre. now right.
    + right. apply IH; [|intros y Hy; apply Hpre; now right].
      intros Hu. apply elem_of_union in Hu as [Hu|Hu]; [|now apply Hs].
      apply elem_of_singleton in Hu. now apply Hx.
Qed.

(** Only the first row of each key is kept. *)
Lemma drop_duplicates_only_first (seen : gset (Z * bool * string))
    (l : Frame) (r : Row) :
  In r (drop_duplicates_from seen l) ->
  exists pre post,
    l = pre ++ r :: post /\ forall x, In x pre -> dup_key x <> dup_key r.
Proof.
  revert seen. induction l as [|x l IH]; intros seen Hin; cbn in Hin; [easy|].
  destruct (bool_decide (dup_key x ∈ seen)) eqn:E.
  - pose proof (drop_duplicates_fresh _ _ _ Hin) as Hfresh.
    apply bool_decide_eq_true in E.
    destruct (IH _ Hin) as (pre & post & -> & Hpre).
    exists (x :: pre), post. split; [reflexivity|].
    intros y [<-|Hy]; [|now apply Hpre]. intros Heq. apply Hfresh. now rewrite <- Heq.
  - destruct Hin as [<-|Hin].
    + exists [], l. split; [reflexivity|]. intros y [].
    + pose proof (drop_duplicates_fresh _ _ _ Hin) as Hfresh.
      destruct (IH _ Hin) as (pre & post & -> & Hpre).
      exists (x :: pre), post. split; [reflexivity|].
      intros y [<-|Hy]; [|now apply Hpre]. intros Heq. apply Hfresh.
      rewrite <- Heq. apply elem_of_union_l. now apply elem_of_singleton.
Qed.

End LoadFacts.

Section LoadExampleFacts.

Import DataLoader LoadExamples.

(** The merge of the two test files: three rows, the shared half hour
    taken from the first file. *)
Example load_csvs_test :
  exists merged,
    load_csvs world ["part1.csv"; "part2.csv"]%string None true = Ok merged /\
    map price merged = [50; 60; 80] /\
    map (fun r => tz (timestamp r)) merged
    = [Some "UTC"; Some "UTC"; Some "UTC"]%string.
Proof. eexists. split; [vm_compute; reflexivity|]. split; reflexivity. Qed.

(** The file written with an offset, loaded with no timezone configured. *)
Lemma load_csv_keeps_parsed_zone_witness :
  (timezone no_timezone = None \/ timezone no_timezone = Some ""%string) /\
  load_csv world "aware.csv" (Some no_timezone)
  = Ok [mkRow brisbane "QLD1" 50 None] /\
  exists df,
    files world !! "aware.csv"%string = Some df /\
    forall r, In r [mkRow brisbane "QLD1" 50 None] ->
      exists rec cell,
        In rec (records df) /\ In cell rec /\
        as_datetime cell = Some (timestamp r).
Proof.
  assert (Hz : timezone no_timezone = None
               \/ timezone no_timezone = Some ""%string) by (left; reflexivity).
  assert (Hl : load_csv world "aware.csv" (Some no_timezone)
               = Ok [mkRow brisbane "QLD1" 50 None])
    by (vm_compute; reflexivity).
  split; [exact Hz|]. split; [exact Hl|].
  exact (load_csv_keeps_parsed_zone world "aware.csv" no_timezone _ Hz Hl).
Defined.

(** C4 as stated fails: with [timezone=None] the zone written in the file
    is still on the timestamp [load_csv] returns. *)
Lemma zone_survives_unset_timezone :
  timezone no_timezone = None /\
  exists frame,
    load_csv world "aware.csv" (Some no_timezone) = Ok frame /\
    ~ (forall r, In r frame -> tz (timestamp r) = None).
Proof.
  split; [reflexivity|].
  exists [mkRow brisbane "QLD1" 50 None]. split; [vm_compute; reflexivity|].
  intros Hall. specialize (Hall _ (or_introl eq_refl)). discriminate Hall.
Qed.

End LoadExampleFacts.

(* ------------------------------------------------------------------ *)
(** * Series statistics *)

Lemma insertQ_perm (x : Q) (l : list Q) : Permutation (x :: l) (insertQ x l).
Proof.
  induction l as [|y l IH]; cbn; [reflexivity|].
  destruct (Qle_bool x y); [reflexivity|].
  rewrite perm_swap. now constructor.
Qed.

Lemma insertQ_sorted (x : Q) (l : list Q) :
  StronglySorted Qle l -> StronglySorted Qle (insertQ x l).
Proof.
  induction 1 as [|y l Hs IH Hall]; cbn.
  - repeat constructor.
  - destruct (Qle_bool x y) eqn:E.
    + apply Qle_bool_iff in E. constructor; [now constructor|].
      constructor; [exact E|].
      eapply Forall_impl; [exact Hall|]. intros a Ha. now apply Qle_trans with y.
    + apply Qle_bool_false in E. constructor; [exact IH|].
      eapply Permutation_Forall; [apply insertQ_perm|].
      constructor; [now apply Qlt_le_weak | exact Hall].
Qed.

Lemma sortQ_sorted (l : list Q) : StronglySorted Qle (sortQ l).
Proof.
  induction l as [|x l IH]; cbn; [constructor|]. now apply insertQ_sorted.
Qed.

Lemma sortQ_perm (l : list Q) : Permutation l (sortQ l).
Proof.
  induction l as [|x l IH]; cbn; [constructor|].
  etransitivity; [|apply insertQ_perm]. now constructor.
Qed.

Lemma Qmax_cases (x y : Q) :
  (y <= x /\ Qmax x y = x) \/ (x < y /\ Qmax x y = y).
Proof.
  unfold Qmax, GenericMinMax.gmax.
  destruct (x ?= y) eqn:E.
  - left. split; [|reflexivity]. apply Qeq_alt in E. rewrite E. apply Qle_refl.
  - right. split; [|reflexivity]. now apply Qlt_alt in E.
  - left. split; [|reflexivity]. apply Qgt_alt in E. now apply Qlt_le_weak.
Qed.

Lemma fold_Qmin_spec (xs : list Q) (x : Q) :
  In (fold_left Qmin xs x) (x :: xs) /\
  forall y, In y (x :: xs) -> fold_left Qmin xs x <= y.
Proof.
  revert x. induction xs as [|a xs IH]; intros x; cbn [fold_left].
  - split; [now left|]. intros y [<-|[]]. apply Qle_refl.
  - destruct (IH (Qmin x a)) as [Hin Hle]. split.
    + destruct Hin as [Hm|Hin]; [|now right; right].
      rewrite <- Hm. destruct (Qmin_cases x a) as [[_ E]|[_ E]]; rewrite E;
        [now left | now right; left].
    + intros y Hy.
      assert (Hm : fold_left Qmin xs (Qmin x a) <= Qmin x a)
        by (apply Hle; now left).
      destruct Hy as [<-|[<-|Hy]].
      * eapply Qle_trans; [exact Hm|].
        destruct (Qmin_cases x a) as [[? E]|[? E]]; rewrite E; lra.
      * eapply Qle_trans; [exact Hm|].
        destruct (Qmin_cases x a) as [[? E]|[? E]]; rewrite E; lra.
      * apply Hle. now right.
Qed.

Lemma fold_Qmax_spec (xs : list Q) (x : Q) :
  In (fold_left Qmax xs x) (x :: xs) /\
  forall y, In y (x :: xs) -> y <= fold_left Qmax xs x.
Proof.
  revert x. induction xs as [|a xs IH]; intros x; cbn [fold_left].
  - split; [now left|]. intros y [<-|[]]. apply Qle_refl.
  - destruct (IH (Qmax x a)) as [Hin Hle]. split.
    + destruct Hin as [Hm|Hin]; [|now right; right].
      rewrite <- Hm. destruct (Qmax_cases x a) as [[_ E]|[_ E]]; rewrite E;
        [now left | now right; left].
    + intros y Hy.
      assert (Hm : Qmax x a <= fold_left Qmax xs (Qmax x a))
        by (apply Hle; now left).
      destruct Hy as [<-|[<-|Hy]].
      * eapply Qle_trans; [|exact Hm].
        destruct (Qmax_cases x a) as [[? E]|[? E]]; rewrite E; lra.
      * eapply Qle_trans; [|exact Hm].
        destruct (Qmax_cases x a) as [[? E]|[? E]]; rewrite E; lra.
      * apply Hle. now right.
Qed.

Lemma Qlen_pos (x : Q) (xs : list Q) : 0 < Qlen (x :: xs).
Proof.
  unfold Qlen. change 0 with (inject_Z 0). rewrite <- Zlt_Qlt. cbn [length]. lia.
Qed.

Lemma Qsquare_nonneg (a : Q) : 0 <= a * a.
Proof.
  destruct (Qlt_le_dec a 0) as [Hneg|Hpos].
  - assert (E : a * a == (- a) * (- a)) by ring.
    rewrite E. apply Qmult_le_0_compat; lra.
  - now apply Qmult_le_0_compat.
Qed.

Lemma Qsum_squares_nonneg (m : Q) (xs : list Q) :
  0 <= Qsum (map (fun x => (x - m) * (x - m)) xs).
Proof.
  induction xs as [|x xs IH]; cbn [map Qsum fold_right]; [apply Qle_refl|].
  pose proof (Qsquare_nonneg (x - m)) as Hsq.
  change (fold_right Qplus 0 (map (fun x => (x - m) * (x - m)) xs))
    with (Qsum (map (fun x => (x - m) * (x - m)) xs)).
  set (q := (x - m) * (x - m)) in *.
  set (t := Qsum _) in *. lra.
Qed.

Lemma series_var0_nonneg (x : Q) (xs : list Q) :
  0 <= Analysis.series_var0 (x :: xs).
Proof.
  unfold Analysis.series_var0.
  apply Qle_shift_div_l; [apply Qlen_pos|].
  rewrite Qmult_0_l. apply Qsum_squares_nonneg.
Qed.

(* ------------------------------------------------------------------ *)
(** * Summary and spikes *)

Section AnalysisFacts.

Import Analysis.

Ltac lookup_key :=
  repeat (rewrite lookup_insert_ne by discriminate);
  first [ apply lookup_insert_eq | apply lookup_empty ].

Lemma series_mean_sum (x : Q) (xs : list Q) :
  series_mean (x :: xs) * Qlen (x :: xs) == Qsum (x :: xs).
Proof.
  unfold series_mean. pose proof (Qlen_pos x xs).
  field. intros E. rewrite E in *. now apply (Qlt_irrefl 0).
Qed.

Lemma series_var0_single (x : Q) : series_var0 [x] == 0.
Proof.
  unfold series_var0, series_mean, Qsum, Qlen. cbn [map fold_right length].
  change (inject_Z (Z.of_nat 1)) with 1. field.
Qed.

Lemma series_std0_square (x : Q) (xs : list Q) :
  (0 <= series_std0 (x :: xs))%R /\
  (series_std0 (x :: xs) * series_std0 (x :: xs)
   = Q2R (series_var0 (x :: xs)))%R.
Proof.
  unfold series_std0. split; [apply sqrt_pos|].
  apply sqrt_sqrt. rewrite <- RMicromega.Q2R_0.
  apply Qle_Rle, series_var0_nonneg.
Qed.

Lemma series_std0_single (x : Q) : series_std0 [x] = 0%R.
Proof.
  unfold series_std0. rewrite (Qeq_eqR _ _ (series_var0_single x)).
  rewrite RMicromega.Q2R_0. apply sqrt_0.
Qed.

(** C8: on a table with at least one row [compute_summary] returns the
    count, the mean, the median, the minimum and the maximum of the prices
    and their standard deviation with divisor [count]; [coeff_var] is
    present, and is [std / mean], exactly when the mean is not zero; on a
    single row the standard deviation is 0.  On an empty table it fails
    with [EmptySummary]. *)
Theorem compute_summary_stats :
  compute_summary [] = Err EmptySummary /\
  forall (r : Row) (rest : Frame),
    let df := r :: rest in
    let prices := map price df in
    let mean := Qsum prices / Qlen prices in
    let sorted := sortQ prices in
    exists (summary : gmap string R) (std : R),
      compute_summary df = Ok summary /\
      summary !! "count"%string = Some (INR (length prices)) /\
      length prices = length df /\
      summary !! "mean_price"%string = Some (Q2R mean) /\
      mean * Qlen prices == Qsum prices /\
      summary !! "median_price"%string = Some (Q2R (series_median prices)) /\
      StronglySorted Qle sorted /\ Permutation prices sorted /\
      series_median prices
      = (if Nat.even (length sorted)
         then (nth (length sorted / 2 - 1) sorted 0
               + nth (length sorted / 2) sorted 0) / 2
         else nth (length sorted / 2) sorted 0) /\
      summary !! "min_price"%string = Some (Q2R (series_min prices)) /\
      In (series_min prices) prices /\
      (forall x, In x prices -> series_min prices <= x) /\
      summary !! "max_price"%string = Some (Q2R (series_max prices)) /\
      In (series_max prices) prices /\
      (forall x, In x prices -> x <= series_max prices) /\
      summary !! "std_price"%string = Some std /\
      (0 <= std)%R /\
      (std * std
       = Q2R (Qsum (map (fun x => (x - mean) * (x - mean)) prices)
              / Qlen prices)%Q)%R /\
      (~ mean == 0 ->
       summary !! "coeff_var"%string = Some (std / Q2R mean)%R) /\
      (mean == 0 -> summary !! "coeff_var"%string = None) /\
      (rest = [] -> std = 0%R).
Proof.
  split; [reflexivity|].
  intros r rest df prices mean sorted.
  destruct (series_std0_square (price r) (map price rest)) as [Hpos Hsq].
  destruct (fold_Qmin_spec (map price rest) (price r)) as [Hmin_in Hmin_le].
  destruct (fold_Qmax_spec (map price rest) (price r)) as [Hmax_in Hmax_le].
  eexists. exists (series_std0 prices).
  split; [reflexivity|].
  assert (Hkey : forall (base : gmap string R) (k : string),
             k <> "coeff_var"%string -> k <> "mean_demand"%string ->
             k <> "max_demand"%string ->
             match dropna (map demand df) with
             | [] =>
                 if negb (Qeq_bool (series_mean prices) 0)
                 then <["coeff_var"%string :=
                          (series_std0 prices / Q2R (series_mean prices))%R]> base
                 else base
             | _ :: _ =>
                 <["max_demand"%string :=
                     Q2R (series_max (dropna (map demand df)))]>
                 (<["mean_demand"%string :=
                      Q2R (series_mean (dropna (map demand df)))]>
                  (if negb (Qeq_bool (series_mean prices) 0)
                   then <["coeff_var"%string :=
                            (series_std0 prices / Q2R (series_mean prices))%R]> base
                   else base))
             end !! k = base !! k).
  { intros base k H1 H2 H3.
    destruct (dropna (map demand df));
      destruct (negb (Qeq_bool (series_mean prices) 0));
      repeat (rewrite lookup_insert_ne by congruence); reflexivity. }
  split; [rewrite Hkey by discriminate; lookup_key|].
  split; [apply length_map|].
  split; [rewrite Hkey by discriminate; lookup_key|].
  split; [apply series_mean_sum|].
  split; [rewrite Hkey by discriminate; lookup_key|].
  split; [apply sortQ_sorted|]. split; [apply sortQ_perm|].
  split; [reflexivity|].
  split; [rewrite Hkey by discriminate; lookup_key|].
  split; [exact Hmin_in|]. split; [exact Hmin_le|].
  split; [rewrite Hkey by discriminate; lookup_key|].
  split; [exact Hmax_in|]. split; [exact Hmax_le|].
  split; [rewrite Hkey by discriminate; lookup_key|].
  split; [exact Hpos|]. split; [exact Hsq|].
  split; [|split].
  - intros Hm. change mean with (series_mean (map price df)) in Hm.
    assert (E : Qeq_bool (series_mean (map price df)) 0 = false).
    { destruct (Qeq_bool (series_mean (map price df)) 0) eqn:E; [|reflexivity].
      apply Qeq_bool_iff in E. now elim Hm. }
    rewrite E. cbn [negb].
    destruct (dropna (map demand df));
      repeat (rewrite lookup_insert_ne by discriminate); apply lookup_insert_eq.
  - intros Hm. change mean with (series_mean (map price df)) in Hm.
    assert (E : Qeq_bool (series_mean (map price df)) 0 = true)
      by now apply Qeq_bool_iff.
    rewrite E. cbn [negb].
    destruct (dropna (map demand df));
      repeat (rewrite lookup_insert_ne by discriminate); apply lookup_empty.
  - intros ->. apply series_std0_single.
Qed.

(** The rows [detect_spikes] returns for a cut-off. *)
Lemma spike_events (cutoff : Q) (df : Frame) :
  let events := List.filter (fun r => Qle_bool cutoff (price r)) df in
  sublist events df /\
  forall r, In r events <-> In r df /\ cutoff <= price r.
Proof.
  cbv zeta. split.
  - induction df as [|x df IH]; cbn; [constructor|].
    destruct (Qle_bool cutoff (price x)); [now apply sublist_skip|].
    now apply sublist_cons.
  - intros r. rewrite List.filter_In, Qle_bool_iff. reflexivity.
Qed.

Lemma detect_spikes_with_cutoff (df : Frame) (threshold quantile : option Q)
    (cutoff : Q) :
  df <> [] ->
  match threshold with
  | Some t => Ok t
  | None =>
      match quantile with
      | None => Err InvalidQuantile
      | Some q =>
          if negb (Qle_bool 0 q && Qle_bool q 1) then Err InvalidQuantile
          else Ok (series_quantile (map price df) q)
      end
  end = Ok cutoff ->
  exists stats,
    detect_spikes df threshold quantile
    = Ok (List.filter (fun r => Qle_bool cutoff (price r)) df, stats) /\
    stats !! "cutoff"%string = Some cutoff.
Proof.
  intros Hne Hcut. destruct df as [|r df]; [congruence|].
  unfold detect_spikes. rewrite Hcut. cbn [bind].
  destruct threshold as [t|], quantile as [q|]; try discriminate;
    (eexists; split; [reflexivity|]);
    destruct (List.filter _ _);
    repeat (rewrite lookup_insert_ne by discriminate);
    apply lookup_insert_eq.
Qed.

(** C6 (amended): on a table with at least one row, [detect_spikes] fails
    with [MissingCriterion] when threshold and quantile are both absent;
    when the threshold is absent, a quantile outside [0, 1] fails with
    [InvalidQuantile], and one inside gives as cut-off the price at that
    quantile of the whole table; a threshold, when given, is the cut-off
    whatever the quantile.  The events returned are exactly the rows with
    [price >= cutoff], in their order in the table. *)
Theorem detect_spikes_criteria (df : Frame) (threshold quantile : option Q) :
  df <> [] ->
  (threshold = None -> quantile = None ->
   detect_spikes df threshold quantile = Err MissingCriterion) /\
  (threshold = None -> forall q, quantile = Some q -> ~ (0 <= q /\ q <= 1) ->
   detect_spikes df threshold quantile = Err InvalidQuantile) /\
  (forall cutoff,
      threshold = Some cutoff \/
      (threshold = None /\
       exists q, quantile = Some q /\ 0 <= q /\ q <= 1 /\
                 cutoff = series_quantile (map price df) q) ->
      exists events stats,
        detect_spikes df threshold quantile = Ok (events, stats) /\
        stats !! "cutoff"%string = Some cutoff /\
        events = List.filter (fun r => Qle_bool cutoff (price r)) df /\
        sublist events df /\
        forall r, In r events <-> In r df /\ cutoff <= price r).
Proof.
  intros Hne. split; [|split].
  - intros -> ->. destruct df; [congruence|reflexivity].
  - intros -> q -> Hq. destruct df as [|r df]; [congruence|].
    unfold detect_spikes.
    destruct (Qle_bool 0 q && Qle_bool q 1) eqn:E; [|reflexivity].
    qbool. now elim Hq.
  - intros cutoff Hc.
    destruct (detect_spikes_with_cutoff df threshold quantile cutoff Hne)
      as (stats & Hd & Hs).
    { destruct Hc as [->|(-> & q & -> & H0 & H1 & ->)]; [reflexivity|].
      apply Qle_bool_iff in H0, H1. now rewrite H0, H1. }
    destruct (spike_events cutoff df) as [Hsub Hin].
    eexists _, stats.
    split; [exact Hd|]. split; [exact Hs|]. split; [reflexivity|].
    split; [exact Hsub | exact Hin].
Qed.

(** C10: on an empty table [detect_spikes] fails with [EmptySpikes]
    whatever the threshold and the quantile, also for the arguments that a
    table with rows rejects with [MissingCriterion] or [InvalidQuantile]. *)
Theorem detect_spikes_empty_first (threshold quantile : option Q) :
  detect_spikes [] threshold quantile = Err EmptySpikes /\
  detect_spikes [] None None = Err EmptySpikes /\
  (forall q, detect_spikes [] None (Some q) = Err EmptySpikes) /\
  (forall r df, detect_spikes (r :: df) None None = Err MissingCriterion) /\
  (forall r df q, ~ (0 <= q /\ q <= 1) ->
     detect_spikes (r :: df) None (Some q) = Err InvalidQuantile).
Proof.
  repeat split.
  intros r df q Hq. unfold detect_spikes.
  destruct (Qle_bool 0 q && Qle_bool q 1) eqn:E; [|reflexivity].
  qbool. now elim Hq.
Qed.

End AnalysisFacts.

Section SpikeExampleFacts.

Import Analysis SpikeExamples.

(** A threshold of 300 keeps the one row at 400. *)
Example detect_spikes_threshold_300 :
  exists events stats,
    detect_spikes four_rows (Some 300) None = Ok (events, stats) /\
    map price events = [400] /\
    stats !! "cutoff"%string = Some 300 /\
    stats !! "spike_count"%string = Some 1.
Proof.
  do 2 eexists. split; [reflexivity|]. now repeat split.
Qed.

(** The quantile 0.9 on the table of the tests. *)
Lemma detect_spikes_criteria_witness :
  four_rows <> [] /\
  exists events stats,
    detect_spikes four_rows None (Some (9#10)) = Ok (events, stats) /\
    stats !! "cutoff"%string
    = Some (series_quantile (map price four_rows) (9#10)) /\
    forall r, In r events <->
              In r four_rows /\
              series_quantile (map price four_rows) (9#10) <= price r.
Proof.
  assert (Hne : four_rows <> []) by discriminate.
  split; [exact Hne|].
  destruct (proj2 (proj2 (detect_spikes_criteria four_rows None (Some (9#10)) Hne))
              (series_quantile (map price four_rows) (9#10)))
    as (events & stats & Hd & Hs & _ & _ & Hin).
  { right. split; [reflexivity|]. exists (9#10).
    split; [reflexivity|]. split; [discriminate|]. split; [discriminate|].
    reflexivity. }
  exists events, stats.
  split; [exact Hd|]. split; [exact Hs | exact Hin].
Defined.

(** C6 as stated fails: a quantile of 5 is outside [0, 1], yet with a
    threshold given the call succeeds and the quantile is never examined. *)
Lemma threshold_hides_bad_quantile :
  four_rows <> [] /\ ~ (0 <= 5 /\ 5 <= 1) /\
  detect_spikes four_rows (Some 300) (Some 5) <> Err InvalidQuantile /\
  exists events stats,
    detect_spikes four_rows (Some 300) (Some 5) = Ok (events, stats) /\
    map price events = [400] /\
    stats !! "cutoff"%string = Some 300.
Proof.
  split; [discriminate|].
  split; [intros [_ H]; now apply H|].
  split; [discriminate|].
  do 2 eexists. split; [reflexivity|]. now repeat split.
Qed.

End SpikeExampleFacts.

(* ------------------------------------------------------------------ *)
(** * Quantiles of a series *)

Lemma sortQ_length (l : list Q) : length (sortQ l) = length l.
Proof. symmetry. apply Permutation_length, sortQ_perm. Qed.

Lemma nth_sortQ_In (l : list Q) (i : nat) :
  (i < length l)%nat -> In (nth i (sortQ l) 0) l.
Proof.
  intros Hi. apply (Permutation_in _ (Permutation_sym (sortQ_perm l))).
  apply nth_In. now rewrite sortQ_length.
Qed.

Lemma nth_sorted_le (s : list Q) (i j : nat) :
  StronglySorted Qle s -> (i <= j)%nat -> (j < length s)%nat ->
  nth i s 0 <= nth j s 0.
Proof.
  intros Hs. revert i j. induction Hs as [|x s Hs IH Hall]; intros i j Hij Hj.
  - cbn in Hj. lia.
  - destruct i as [|i], j as [|j]; cbn [nth]; cbn [length] in Hj.
    + apply Qle_refl.
    + rewrite List.Forall_forall in Hall. apply Hall, nth_In. lia.
    + lia.
    + apply IH; lia.
Qed.

(** The rank [q * (n - 1)] of a quantile, its integer part and the two
    sorted values the quantile lies between. *)
Lemma quantile_rank (n : nat) (q : Q) :
  (0 < n)%nat -> 0 <= q -> q <= 1 ->
  let pos := q * inject_Z (Z.of_nat (n - 1)) in
  let lo := Z.to_nat (Qfloor pos) in
  (lo <= n - 1)%nat /\
  inject_Z (Z.of_nat lo) = inject_Z (Qfloor pos) /\
  0 <= pos - inject_Z (Qfloor pos) /\ pos - inject_Z (Qfloor pos) < 1.
Proof.
  intros Hn Hq0 Hq1 pos lo.
  assert (Hm : 0 <= inject_Z (Z.of_nat (n - 1))).
  { change 0 with (inject_Z 0). rewrite <- Zle_Qle. lia. }
  assert (Hpos0 : 0 <= pos) by (apply Qmult_le_0_compat; assumption).
  assert (Hpos1 : pos <= inject_Z (Z.of_nat (n - 1))).
  { unfold pos. rewrite <- (Qmult_1_l (inject_Z (Z.of_nat (n - 1)))) at 2.
    now apply Qmult_le_compat_r. }
  assert (Hf0 : (0 <= Qfloor pos)%Z).
  { change 0%Z with (Qfloor 0). now apply Qfloor_resp_le. }
  assert (Hf1 : (Qfloor pos <= Z.of_nat (n - 1))%Z).
  { rewrite <- (Qfloor_Z (Z.of_nat (n - 1))). now apply Qfloor_resp_le. }
  split; [subst lo; lia|].
  split; [subst lo; now rewrite Z2Nat.id|].
  pose proof (Qfloor_le pos). pose proof (Qlt_floor pos) as Hlt.
  rewrite inject_Z_plus in Hlt. change (inject_Z 1) with 1 in Hlt.
  split; lra.
Qed.

(** A quantile lies between the sorted values at the two ranks around it. *)
Lemma series_quantile_bracket (xs : list Q) (q : Q) :
  xs <> [] -> 0 <= q -> q <= 1 ->
  let n := length xs in
  let lo := Z.to_nat (Qfloor (q * inject_Z (Z.of_nat (n - 1)))) in
  let hi := Nat.min (S lo) (n - 1) in
  (lo <= hi)%nat /\ (hi < n)%nat /\
  nth lo (sortQ xs) 0 <= series_quantile xs q /\
  series_quantile xs q <= nth hi (sortQ xs) 0.
Proof.
  intros Hne Hq0 Hq1 n lo hi.
  assert (Hn : (0 < n)%nat) by (subst n; destruct xs; [congruence | cbn; lia]).
  destruct (quantile_rank n q Hn Hq0 Hq1) as (Hlo & _ & Hf0 & Hf1).
  fold lo in Hlo.
  assert (Hlh : (lo <= hi)%nat) by (subst hi; lia).
  assert (Hhi : (hi < n)%nat) by (subst hi; lia).
  split; [exact Hlh|]. split; [exact Hhi|].
  unfold series_quantile. rewrite sortQ_length. fold n. fold lo. fold hi.
  assert (Hab : nth lo (sortQ xs) 0 <= nth hi (sortQ xs) 0).
  { apply nth_sorted_le; [apply sortQ_sorted | exact Hlh |].
    now rewrite sortQ_length. }
  set (a := nth lo (sortQ xs) 0) in *. set (b := nth hi (sortQ xs) 0) in *.
  set (frac := q * inject_Z (Z.of_nat (n - 1))
               - inject_Z (Qfloor (q * inject_Z (Z.of_nat (n - 1))))) in *.
  assert (H0 : 0 <= (b - a) * frac) by (apply Qmult_le_0_compat; lra).
  assert (H1 : (b - a) * frac <= (b - a) * 1).
  { rewrite (Qmult_comm (b - a)), (Qmult_comm (b - a)).
    apply Qmult_le_compat_r; lra. }
  split; lra.
Qed.

(** A quantile in [0, 1] of a non-empty series lies between two of its
    values. *)
Lemma series_quantile_between (xs : list Q) (q : Q) :
  xs <> [] -> 0 <= q -> q <= 1 ->
  exists a b, In a xs /\ In b xs /\ a <= series_quantile xs q /\
              series_quantile xs q <= b.
Proof.
  intros Hne Hq0 Hq1.
  destruct (series_quantile_bracket xs q Hne Hq0 Hq1) as (Hlh & Hhi & Ha & Hb).
  eexists _, _. split; [|split; [|split; [exact Ha | exact Hb]]].
  - apply nth_sortQ_In. lia.
  - apply nth_sortQ_In. lia.
Qed.

(** Quantiles grow with the fraction asked for. *)
Lemma series_quantile_mono (xs : list Q) (q1 q2 : Q) :
  xs <> [] -> 0 <= q1 -> q1 <= q2 -> q2 <= 1 ->
  series_quantile xs q1 <= series_quantile xs q2.
Proof.
  intros Hne H0 H12 H1.
  assert (Hq1 : q1 <= 1) by lra. assert (Hq2 : 0 <= q2) by lra.
  destruct (series_quantile_bracket xs q1 Hne H0 Hq1) as (Hlh1 & Hhi1 & Ha1 & Hb1).
  destruct (series_quantile_bracket xs q2 Hne Hq2 H1) as (Hlh2 & Hhi2 & Ha2 & Hb2).
  set (n := length xs) in *.
  assert (Hm : 0 <= inject_Z (Z.of_nat (n - 1))).
  { change 0 with (inject_Z 0). rewrite <- Zle_Qle. lia. }
  set (m := inject_Z (Z.of_nat (n - 1))) in *.
  assert (Hpos : q1 * m <= q2 * m) by now apply Qmult_le_compat_r.
  assert (Hfl : (Qfloor (q1 * m) <= Qfloor (q2 * m))%Z)
    by now apply Qfloor_resp_le.
  assert (Hf0 : (0 <= Qfloor (q1 * m))%Z).
  { change 0%Z with (Qfloor 0). apply Qfloor_resp_le.
    now apply Qmult_le_0_compat. }
  destruct (Z.eq_dec (Qfloor (q1 * m)) (Qfloor (q2 * m))) as [E|E].
  - unfold series_quantile. rewrite sortQ_length. fold n. fold m. rewrite <- E.
    set (lo := Z.to_nat (Qfloor (q1 * m))) in *.
    set (hi := Nat.min (S lo) (n - 1)) in *.
    assert (Hab : nth lo (sortQ xs) 0 <= nth hi (sortQ xs) 0).
    { apply nth_sorted_le; [apply sortQ_sorted | exact Hlh1 |].
      now rewrite sortQ_length. }
    set (a := nth lo (sortQ xs) 0) in *. set (b := nth hi (sortQ xs) 0) in *.
    set (fl := inject_Z (Qfloor (q1 * m))).
    assert (Hmul : (b - a) * (q1 * m - fl) <= (b - a) * (q2 * m - fl)).
    { rewrite (Qmult_comm (b - a)), (Qmult_comm (b - a)).
      apply Qmult_le_compat_r; lra. }
    lra.
  - set (lo1 := Z.to_nat (Qfloor (q1 * m))) in *.
    set (lo2 := Z.to_nat (Qfloor (q2 * m))) in *.
    assert (Hlt : (S lo1 <= lo2)%nat) by (subst lo1 lo2; lia).
    eapply Qle_trans; [exact Hb1|]. eapply Qle_trans; [|exact Ha2].
    apply nth_sorted_le; [apply sortQ_sorted | lia |].
    rewrite sortQ_length. fold n. lia.
Qed.

(* ------------------------------------------------------------------ *)
(** * The interval estimate *)

Section IntervalFacts.

Import Battery.

Lemma insertZ_perm (x : Z) (l : list Z) : Permutation (x :: l) (insertZ x l).
Proof.
  induction l as [|y l IH]; cbn; [reflexivity|].
  destruct (x <=? y)%Z; [reflexivity|].
  rewrite perm_swap. now constructor.
Qed.

Lemma insertZ_sorted (x : Z) (l : list Z) :
  StronglySorted Z.le l -> StronglySorted Z.le (insertZ x l).
Proof.
  induction 1 as [|y l Hs IH Hall]; cbn.
  - repeat constructor.
  - destruct (x <=? y)%Z eqn:E.
    + apply Z.leb_le in E. constructor; [now constructor|].
      constructor; [exact E|].
      eapply Forall_impl; [exact Hall|]. intros a Ha. lia.
    + apply Z.leb_gt in E. constructor; [exact IH|].
      eapply Permutation_Forall; [apply insertZ_perm|].
      constructor; [lia | exact Hall].
Qed.

Lemma sortZ_sorted (l : list Z) : StronglySorted Z.le (sortZ l).
Proof.
  induction l as [|x l IH]; cbn; [constructor|]. now apply insertZ_sorted.
Qed.

Lemma diffs_sorted_nonneg (l : list Z) :
  StronglySorted Z.le l -> List.Forall (fun d => (0 <= d)%Z) (diffs l).
Proof.
  induction 1 as [|x l Hs IH Hall]; [constructor|].
  destruct l as [|y l]; [constructor|].
  cbn [diffs]. constructor; [|exact IH].
  apply List.Forall_inv in Hall. lia.
Qed.

Lemma total_seconds_nonneg (ns : Z) : (0 <= ns)%Z -> 0 <= total_seconds ns.
Proof.
  intros Hns. unfold total_seconds. apply Qle_shift_div_l; [reflexivity|].
  rewrite Qmult_0_l. change 0 with (inject_Z 0). now rewrite <- Zle_Qle.
Qed.

Lemma nth_sortQ_nonneg (l : list Q) (i : nat) :
  List.Forall (fun x => 0 <= x) l -> 0 <= nth i (sortQ l) 0.
Proof.
  intros Hl. destruct (Nat.lt_ge_cases i (length l)) as [Hi|Hi].
  - rewrite List.Forall_forall in Hl. now apply Hl, nth_sortQ_In.
  - rewrite nth_overflow; [apply Qle_refl | now rewrite sortQ_length].
Qed.

Lemma series_median_nonneg (l : list Q) :
  List.Forall (fun x => 0 <= x) l -> 0 <= series_median l.
Proof.
  intros Hl. unfold series_median.
  destruct (Nat.even (length (sortQ l))).
  - pose proof (nth_sortQ_nonneg l (length (sortQ l) / 2 - 1) Hl).
    pose proof (nth_sortQ_nonneg l (length (sortQ l) / 2) Hl).
    apply Qle_shift_div_l; [reflexivity|]. lra.
  - now apply nth_sortQ_nonneg.
Qed.

Lemma estimate_interval_positive (df : Frame) : 0 < _estimate_interval_hours df.
Proof.
  unfold _estimate_interval_hours.
  set (deltas := map total_seconds _).
  assert (Hd : List.Forall (fun x => 0 <= x) deltas).
  { subst deltas. apply List.Forall_map.
    eapply List.Forall_impl; [|apply diffs_sorted_nonneg, sortZ_sorted].
    intros d Hd. now apply total_seconds_nonneg. }
  destruct deltas as [|d ds] eqn:E; [reflexivity|]. rewrite <- E in *.
  pose proof (series_median_nonneg deltas Hd) as Hm.
  destruct (Qeq_bool (series_median deltas) 0) eqn:Ez; [reflexivity|].
  apply Qeq_bool_neq in Ez.
  apply Qlt_shift_div_l; [reflexivity|]. rewrite Qmult_0_l.
  apply Qle_lteq in Hm as [Hm|Hm]; [exact Hm | now elim Ez].
Qed.

(** X2: the interval length [battery_backtest] works with is strictly
    positive whatever the timestamps are, and it is one hour for a table of
    fewer than two rows. *)
Theorem interval_hours_positive (df : Frame) :
  0 < _estimate_interval_hours df /\
  ((length df < 2)%nat -> _estimate_interval_hours df = 1).
Proof.
  split.
  - apply estimate_interval_positive.
  - intros Hlen. destruct df as [|r [|r' df]]; [reflexivity | reflexivity|].
    cbn in Hlen. lia.
Qed.

End IntervalFacts.

(* ------------------------------------------------------------------ *)
(** * More on the simulation *)

Section BatteryMore.

Import Battery Invariants.
Context `{SortValues}.

(** X1: [battery_backtest] returns a result exactly for a non-empty table
    and a configuration with [0 < round_trip_efficiency <= 1] and
    [0 <= low_quantile < high_quantile <= 1].  Otherwise it fails, looking
    at the table first, then at the efficiency, then at the quantiles. *)
Theorem battery_backtest_validation (df : Frame) (cfg : Config) :
  (df = [] -> battery_backtest df cfg = Err EmptyBacktest) /\
  (df <> [] ->
   ~ (0 < round_trip_efficiency cfg /\ round_trip_efficiency cfg <= 1) ->
   battery_backtest df cfg = Err InvalidEfficiency) /\
  (df <> [] ->
   0 < round_trip_efficiency cfg -> round_trip_efficiency cfg <= 1 ->
   ~ (0 <= low_quantile cfg /\ low_quantile cfg < high_quantile cfg /\
      high_quantile cfg <= 1) ->
   battery_backtest df cfg = Err InvalidQuantiles) /\
  ((exists r, battery_backtest df cfg = Ok r) <->
   df <> [] /\ valid_config cfg).
Proof.
  assert (Heff : df <> [] ->
            ~ (0 < round_trip_efficiency cfg /\ round_trip_efficiency cfg <= 1) ->
            battery_backtest df cfg = Err InvalidEfficiency).
  { intros Hne Hn. destruct df as [|r df]; [congruence|]. unfold battery_backtest.
    destruct (Qlt_bool 0 (round_trip_efficiency cfg)
              && Qle_bool (round_trip_efficiency cfg) 1) eqn:E; [|reflexivity].
    qbool. now elim Hn. }
  assert (Hqs : df <> [] ->
            0 < round_trip_efficiency cfg -> round_trip_efficiency cfg <= 1 ->
            ~ (0 <= low_quantile cfg /\ low_quantile cfg < high_quantile cfg /\
               high_quantile cfg <= 1) ->
            battery_backtest df cfg = Err InvalidQuantiles).
  { intros Hne He0 He1 Hn. destruct df as [|r df]; [congruence|].
    unfold battery_backtest.
    apply Qlt_bool_iff in He0. apply Qle_bool_iff in He1. rewrite He0, He1.
    cbn [andb negb].
    destruct (Qle_bool 0 (low_quantile cfg)
              && Qlt_bool (low_quantile cfg) (high_quantile cfg)
              && Qle_bool (high_quantile cfg) 1) eqn:E; [|reflexivity].
    qbool. now elim Hn. }
  split; [now intros ->|]. split; [exact Heff|]. split; [exact Hqs|].
  split.
  - intros [r Hr].
    assert (Hne : df <> []) by (intros ->; discriminate Hr).
    split; [exact Hne|].
    destruct (Qlt_le_dec 0 (round_trip_efficiency cfg)) as [He0|He0];
      [|rewrite Heff in Hr; [discriminate | exact Hne | intros [? ?]; lra]].
    destruct (Qlt_le_dec 1 (round_trip_efficiency cfg)) as [He1|He1];
      [rewrite Heff in Hr; [discriminate | exact Hne | intros [? ?]; lra]|].
    destruct (Qlt_le_dec (low_quantile cfg) 0) as [Hl|Hl];
      [rewrite Hqs in Hr;
       [discriminate | exact Hne | exact He0 | exact He1 | intros (? & ? & ?); lra]|].
    destruct (Qlt_le_dec (low_quantile cfg) (high_quantile cfg)) as [Hlh|Hlh];
      [|rewrite Hqs in Hr;
        [discriminate | exact Hne | exact He0 | exact He1 | intros (? & ? & ?); lra]].
    destruct (Qlt_le_dec 1 (high_quantile cfg)) as [Hh|Hh];
      [rewrite Hqs in Hr;
       [discriminate | exact Hne | exact He0 | exact He1 | intros (? & ? & ?); lra]|].
    now repeat split.
  - intros [Hne Hv]. eexists. now apply battery_backtest_ok.
Qed.

Lemma sorted_prices_In (df : Frame) (p : Q) :
  In p (sorted_prices df) -> exists row, In row df /\ price row = p.
Proof.
  unfold sorted_prices. intros Hin. apply in_map_iff in Hin as (row & Hp & Hrow).
  exists row. split; [|exact Hp].
  now apply (Permutation_in _ (Permutation_sym (sort_values_perm df))).
Qed.

Lemma sorted_prices_nonempty (df : Frame) : df <> [] -> sorted_prices df <> [].
Proof.
  intros Hne Hs. apply Hne. apply length_zero_iff_nil.
  rewrite (Permutation_length (sort_values_perm df)).
  unfold sorted_prices in Hs. apply (f_equal (@length Q)) in Hs.
  now rewrite length_map in Hs.
Qed.

(** X4: the two thresholds are ordered, and each lies between the price of
    some row and the price of some other row: the low threshold is at least
    the price of some row, the high threshold at most the price of some
    row. *)
Theorem thresholds_ordered (df : Frame) (cfg : Config) :
  df <> [] -> valid_config cfg ->
  exists r,
    battery_backtest df cfg = Ok r /\
    low_threshold r <= high_threshold r /\
    (exists row, In row df /\ price row <= low_threshold r) /\
    (exists row, In row df /\ high_threshold r <= price row).
Proof.
  intros Hne Hv. eexists. split; [now apply battery_backtest_ok|].
  destruct Hv as (_ & _ & Hl0 & Hlh & Hh1).
  pose proof (sorted_prices_nonempty df Hne) as Hp.
  cbn [low_threshold high_threshold finish]. unfold thresholds. cbn [fst snd].
  split; [|split].
  - apply series_quantile_mono; [exact Hp | exact Hl0 | lra | exact Hh1].
  - destruct (series_quantile_between (sorted_prices df) (low_quantile cfg) Hp)
      as (a & _ & Ha & _ & Hle & _); [exact Hl0 | lra |].
    destruct (sorted_prices_In df a Ha) as (row & Hrow & Hprice).
    exists row. split; [exact Hrow|]. now rewrite Hprice.
  - destruct (series_quantile_between (sorted_prices df) (high_quantile cfg) Hp)
      as (_ & b & _ & Hb & _ & Hle); [lra | exact Hh1 |].
    destruct (sorted_prices_In df b Hb) as (row & Hrow & Hprice).
    exists row. split; [exact Hrow|]. now rewrite Hprice.
Qed.

Section Counters.

Variable cfg : Config.
Variables low high h : Q.






End Counters.


(** The run leaves the initial state alone when no energy can be moved. *)
Lemma run_idle (cfg : Config) (low high h : Q) (prices : list Q) :
  power_mw cfg * h <= 0 \/ capacity_mwh cfg <= 0 ->
  run cfg low high h init_state prices = init_state.
Proof.
  intros Hidle. induction prices as [|p ps IH]; [reflexivity|].
  cbn [run fold_left]. unfold row_step.
  rewrite charge_check_idle.
  - rewrite discharge_check_idle; [exact IH|].
    intros (_ & Hs & _). now apply (Qlt_irrefl 0).
  - intros (_ & Hc & Ha). cbn [soc init_state] in Hc.
    destruct Hidle as [HP|Hcap]; [|lra].
    unfold charge_amount in Ha.
    destruct (Qmin_cases (power_mw cfg * h) (capacity_mwh cfg - soc init_state))
      as [[? E]|[? E]]; rewrite E in Ha; lra.
Qed.

(** X6: with a power or a capacity that is zero or negative, which
    [battery_backtest] accepts, nothing is traded: no event is counted and
    profit and energy totals are zero. *)
Theorem idle_without_power_or_capacity (df : Frame) (cfg : Config) :
  df <> [] -> valid_config cfg ->
  power_mw cfg <= 0 \/ capacity_mwh cfg <= 0 ->
  exists r,
    battery_backtest df cfg = Ok r /\
    charge_events r = 0%nat /\ discharge_events r = 0%nat /\ cycles r = 0%nat /\
    total_profit r == 0 /\
    energy_from_grid_mwh r == 0 /\ energy_to_grid_mwh r == 0.
Proof.
  intros Hne Hv Hidle. eexists. split; [now apply battery_backtest_ok|].
  unfold final_state, thresholds. rewrite run_idle; [now repeat split|].
  destruct Hidle as [Hp|Hc]; [left | now right].
  pose proof (estimate_interval_positive (sort_values df)) as Hh.
  assert (Hm : 0 <= (- power_mw cfg) * _estimate_interval_hours (sort_values df))
    by (apply Qmult_le_0_compat; lra).
  assert (E : (- power_mw cfg) * _estimate_interval_hours (sort_values df)
              == - (power_mw cfg * _estimate_interval_hours (sort_values df)))
    by ring.
  rewrite E in Hm. lra.
Qed.

End BatteryMore.

(* ------------------------------------------------------------------ *)
(** * More on loading *)

Lemma mapM_app_Err {A B} (f : A -> result B) (pre post : list A) (a : A) (e : error) :
  (forall x, In x pre -> exists b, f x = Ok b) ->
  f a = Err e ->
  mapM f (pre ++ a :: post) = Err e.
Proof.
  intros Hpre Ha. induction pre as [|x pre IH]; cbn.
  - now rewrite Ha.
  - destruct (Hpre x (or_introl eq_refl)) as [b Hb]. rewrite Hb. cbn [bind].
    rewrite IH; [reflexivity|]. intros y Hy. apply Hpre. now right.
Qed.

Lemma mapM_snoc {A B} (f : A -> result B) (l : list A) (a : A)
    (bs : list B) (b : B) :
  mapM f l = Ok bs -> f a = Ok b -> mapM f (l ++ [a]) = Ok (bs ++ [b]).
Proof.
  revert bs. induction l as [|x l IH]; intros bs Hl Ha; cbn in *.
  - injection Hl as <-. now rewrite Ha.
  - apply bind_Ok in Hl as (y & Hy & Hl). apply bind_Ok in Hl as (ys & Hys & Hl).
    injection Hl as <-. rewrite Hy. cbn [bind].
    now rewrite (IH ys Hys Ha).
Qed.

Section LoadMore.

Import DataLoader.
Context `{SortValues}.

Lemma sequence_length {A} (l : list (option A)) (r : list A) :
  sequence l = Some r -> length r = length l.
Proof.
  intros Hs. apply sequence_Some in Hs. subst l. now rewrite length_map.
Qed.

Lemma column_index (cols : list string) (recs : list (list Cell))
    (name : string) (cells : list Cell) :
  column cols recs name = Ok cells ->
  exists i, cells = map (fun rec => nth i rec null_cell) recs.
Proof.
  unfold column. destruct (positions name cols 0) as [|i [|]]; try discriminate.
  intros Hc. injection Hc as <-. now exists i.
Qed.

Lemma apply_timezone_length (w : World) (zone : option string)
    (col col' : list (option Timestamp)) :
  apply_timezone w zone col = Ok col' -> length col' = length col.
Proof.
  unfold apply_timezone. intros Ha.
  destruct zone as [[|c z]|]; try (now injection Ha as <-).
  apply bind_Ok in Ha as (current & _ & Ha).
  destruct (zones w !! String c z) as [to_utc|]; [|discriminate].
  destruct current; injection Ha as <-; now rewrite length_map.
Qed.

Lemma apply_timezone_zone (w : World) (z : string)
    (col col' : list (option Timestamp)) (t : Timestamp) :
  z <> ""%string ->
  apply_timezone w (Some z) col = Ok col' ->
  In (Some t) col' -> tz t = Some z.
Proof.
  unfold apply_timezone. intros Hz Ha Hin.
  destruct z as [|c z]; [congruence|].
  apply bind_Ok in Ha as (current & _ & Ha).
  destruct (zones w !! String c z) as [to_utc|]; [|discriminate].
  destruct current; injection Ha as <-;
    apply in_map_iff in Hin as ([u|] & Hu & _); try discriminate.
  - now injection Hu as <-.
  - destruct (to_utc (instant u)); [|discriminate]. now injection Hu as <-.
Qed.

Lemma zip_rows_length (ts : list Timestamp) (rg : list string) (pr : list Q)
    (dm : list (option Q)) :
  length rg = length ts -> length pr = length ts ->
  length (zip_rows ts rg pr dm) = length ts.
Proof.
  revert rg pr dm. induction ts as [|t ts IH]; intros rg pr dm Hr Hp.
  - reflexivity.
  - destruct rg as [|g rg]; [discriminate|]. destruct pr as [|p pr]; [discriminate|].
    cbn. f_equal. apply IH; cbn in *; lia.
Qed.

Lemma zip_rows_fields (ts : list Timestamp) (rg : list string) (pr : list Q)
    (dm : list (option Q)) :
  length rg = length ts -> length pr = length ts ->
  map timestamp (zip_rows ts rg pr dm) = ts /\
  map region (zip_rows ts rg pr dm) = rg /\
  map price (zip_rows ts rg pr dm) = pr.
Proof.
  revert rg pr dm. induction ts as [|t ts IH]; intros rg pr dm Hr Hp.
  - destruct rg; [|discriminate]. destruct pr; [|discriminate]. now cbn.
  - destruct rg as [|g rg]; [discriminate|]. destruct pr as [|p pr]; [discriminate|].
    cbn in Hr, Hp. cbn [zip_rows map timestamp region price].
    destruct (IH rg pr (tl dm)) as (E1 & E2 & E3); [lia | lia |].
    now rewrite E1, E2, E3.
Qed.

(** What a successful [load_csv] went through. *)
Lemma load_csv_inv (w : World) (path : string) (options : option LoadOptions)
    (frame : Frame) :
  load_csv w path options = Ok frame ->
  exists df its ipr irg parsed ts regions prices demands,
    files w !! path = Some df /\ records df <> [] /\
    apply_timezone w (timezone (default default_options options))
      (map (fun rec => as_datetime (nth its rec null_cell)) (records df))
    = Ok parsed /\
    parsed = map Some ts /\
    map (fun rec => as_numeric (nth ipr rec null_cell)) (records df)
    = map Some prices /\
    map (fun rec => text (nth irg rec null_cell)) (records df)
    = map Some regions /\
    frame = sort_values (zip_rows ts regions prices demands).
Proof.
  intros Hload. unfold load_csv in Hload.
  destruct (files w !! path) as [df|]; [|discriminate].
  destruct (columns df) as [|c0 cols0]; [discriminate|].
  destruct (records df) as [|rec0 recs0] eqn:Erecs; [discriminate|].
  rewrite <- Erecs in *.
  apply bind_Ok in Hload as (resolved & _ & Hload).
  apply bind_Ok in Hload as (demand_col & _ & Hload).
  apply bind_Ok in Hload as (ts_cells & Hts & Hload).
  apply bind_Ok in Hload as (parsed & Hparsed & Hload).
  apply bind_Ok in Hload as (price_cells & Hpr & Hload).
  apply bind_Ok in Hload as (demands & _ & Hload).
  destruct (sequence parsed) as [ts|] eqn:Ets; [|discriminate].
  destruct (sequence (map as_numeric price_cells)) as [prices|] eqn:Epr;
    [|discriminate].
  apply bind_Ok in Hload as (region_cells & Hrg & Hload).
  destruct (sequence (map text region_cells)) as [regions|] eqn:Erg;
    [|discriminate].
  injection Hload as <-.
  apply column_index in Hts as [its ->]. apply column_index in Hpr as [ipr ->].
  apply column_index in Hrg as [irg ->].
  apply sequence_Some in Ets, Epr, Erg.
  rewrite map_map in Hparsed, Epr, Erg.
  exists df, its, ipr, irg, parsed, ts, regions, prices, demands.
  repeat (split; [first [reflexivity | assumption | congruence]|]).
  reflexivity.
Qed.

(** ** The columns [load_csv] reads *)

Lemma positions_spec (name : string) (cols : list string) (k i : nat) :
  In i (positions name cols k) <->
  exists j, i = (k + j)%nat /\ nth_error cols j = Some name.
Proof.
  revert k. induction cols as [|c cols IH]; intros k; cbn [positions].
  - split; [intros [] | intros (j & _ & Hj); destruct j; discriminate].
  - assert (Hrest : In i (positions name cols (S k)) <->
                    exists j, i = (k + S j)%nat /\ nth_error cols j = Some name).
    { rewrite IH. split; intros (j & -> & Hj); exists j; split;
        first [lia | exact Hj]. }
    destruct (String.eqb_spec c name) as [->|Hc].
    + cbn [In]. rewrite Hrest. split.
      * intros [<-|(j & -> & Hj)]; [exists 0%nat | exists (S j)];
          split; first [lia | reflexivity | exact Hj].
      * intros ([|j] & -> & Hj); [left; lia | right; now exists j].
    + rewrite Hrest. split.
      * intros (j & -> & Hj). now exists (S j).
      * intros ([|j] & -> & Hj); [cbn in Hj; congruence | now exists j].
Qed.

(** [column] reads the one column of the name. *)
Lemma column_position (cols : list string) (recs : list (list Cell))
    (name : string) (cells : list Cell) :
  column cols recs name = Ok cells ->
  exists i,
    cells = map (fun rec => nth i rec null_cell) recs /\
    forall j, nth_error cols j = Some name <-> j = i.
Proof.
  unfold column. destruct (positions name cols 0) as [|i [|]] eqn:E;
    try discriminate.
  intros Hc. injection Hc as <-. exists i. split; [reflexivity|].
  intros j. pose proof (positions_spec name cols 0 j) as Hj. rewrite E in Hj.
  cbn [In] in Hj. split.
  - intros Hn. destruct (proj2 Hj) as [<-|[]]; [now exists j | reflexivity].
  - intros ->. destruct (proj1 Hj (or_introl eq_refl)) as (j' & -> & Hn).
    exact Hn.
Qed.

Lemma rename_lookup_other (resolved : list (string * string))
    (m : gmap string string) (h : string) :
  ~ In h (map snd resolved) ->
  fold_left (fun m kv => <[snd kv := fst kv]> m) resolved m !! h = m !! h.
Proof.
  revert m. induction resolved as [|[k' h'] l IH]; intros m Hn; [reflexivity|].
  cbn in Hn |- *. rewrite IH by tauto. apply lookup_insert_ne. tauto.
Qed.

(** Each chosen header is renamed to its role when no header was chosen
    for two roles. *)
Lemma rename_lookup (resolved : list (string * string))
    (m : gmap string string) (k h : string) :
  List.NoDup (map snd resolved) -> In (k, h) resolved ->
  fold_left (fun m kv => <[snd kv := fst kv]> m) resolved m !! h = Some k.
Proof.
  revert m. induction resolved as [|[k' h'] l IH]; intros m Hnd Hin; [easy|].
  cbn in Hnd. apply List.NoDup_cons_iff in Hnd as [Hh Hnd].
  cbn [fold_left fst snd]. destruct Hin as [E|Hin].
  - injection E as -> ->. rewrite rename_lookup_other by exact Hh.
    apply lookup_insert_eq.
  - now apply IH.
Qed.

Lemma resolve_column_In (cols : list string) (target : string)
    (overrides : option (gmap string string)) (c : string) :
  _resolve_column cols target overrides = Ok (Some c) -> In c cols.
Proof.
  assert (Hscan : forall l, scan_aliases (normalize cols) l = Some c -> In c cols).
  { induction l as [|a l IH]; cbn; [discriminate|].
    destruct (normalize cols !! a) as [c'|] eqn:E; [|exact IH].
    intros Hc. injection Hc as <-. apply list_elem_of_In.
    now apply normalize_Some in E. }
  unfold _resolve_column, resolve_by_alias.
  destruct overrides as [ov|]; [destruct (ov !! target) as [o|]|].
  - destruct (bool_decide (o ∈ cols)) eqn:E; [|discriminate].
    intros Hc. injection Hc as <-.
    apply list_elem_of_In. exact (proj1 (bool_decide_eq_true _) E).
  - intros Hc. injection Hc as Hc. now apply Hscan in Hc.
  - intros Hc. injection Hc as Hc. now apply Hscan in Hc.
Qed.

(** Without overrides the header chosen for a role is spelled, up to case,
    as one of the role's aliases. *)
Lemma resolve_column_alias (cols : list string) (target c : string) :
  _resolve_column cols target None = Ok (Some c) ->
  In (lower c) (default [] (DEFAULT_ALIASES !! target)).
Proof.
  unfold _resolve_column, resolve_by_alias. intros Hc. injection Hc as Hc.
  revert Hc. generalize (default [] (DEFAULT_ALIASES !! target)).
  induction l as [|a l IH]; cbn; [discriminate|].
  destruct (normalize cols !! a) as [c'|] eqn:E.
  - intros Hc. injection Hc as <-. left. symmetry. now apply normalize_Some in E.
  - intros Hc. right. now apply IH.
Qed.

(** The alias lists of the roles. *)
Lemma role_aliases :
  default [] (DEFAULT_ALIASES !! "timestamp"%string)
  = ["timestamp"; "datetime"; "settlementdate"; "trading_interval"]%string /\
  default [] (DEFAULT_ALIASES !! "region"%string)
  = ["region"; "regionid"]%string /\
  default [] (DEFAULT_ALIASES !! "price"%string) = ["price"; "rrp"]%string /\
  default [] (DEFAULT_ALIASES !! "demand"%string)
  = ["demand"; "totaldemand"; "total_demand"; "demandmw"]%string.
Proof. repeat split; vm_compute; reflexivity. Qed.

(** The aliases of two roles never coincide, so without overrides no header
    is chosen twice. *)
Lemma chosen_headers_NoDup (cols : list string) (hts hrg hpr : string)
    (hdm : option string) :
  _resolve_column cols "timestamp" None = Ok (Some hts) ->
  _resolve_column cols "region" None = Ok (Some hrg) ->
  _resolve_column cols "price" None = Ok (Some hpr) ->
  _resolve_column cols "demand" None = Ok hdm ->
  List.NoDup (Invariants.chosen_headers hts hrg hpr hdm).
Proof.
  intros Hts Hrg Hpr Hdm.
  apply resolve_column_alias in Hts, Hrg, Hpr.
  assert (Hd : forall h, hdm = Some h ->
                 In (lower h) (default [] (DEFAULT_ALIASES !! "demand"%string))).
  { intros h ->. now apply resolve_column_alias in Hdm. }
  clear Hdm. destruct role_aliases as (At & Ar & Ap & Ad).
  rewrite At in Hts. rewrite Ar in Hrg. rewrite Ap in Hpr. rewrite Ad in Hd.
  clear At Ar Ap Ad. cbn [In] in Hts, Hrg, Hpr, Hd.
  assert (E1 : hrg <> hts) by (intros ->; intuition congruence).
  assert (E2 : hpr <> hts) by (intros ->; intuition congruence).
  assert (E3 : hpr <> hrg) by (intros ->; intuition congruence).
  unfold Invariants.chosen_headers.
  destruct hdm as [[|ch h]|].
  1,3: repeat constructor; cbn; intuition congruence.
  specialize (Hd _ eq_refl).
  assert (E4 : String ch h <> hts) by (intros <-; intuition congruence).
  assert (E5 : String ch h <> hrg) by (intros <-; intuition congruence).
  assert (E6 : String ch h <> hpr) by (intros <-; intuition congruence).
  repeat constructor; cbn; intuition congruence.
Qed.

(** What a successful [load_csv] went through, header by header: the
    headers chosen for the roles, the header list after the renaming, and
    the one position of [timestamp], [region] and [price] in it. *)
Lemma load_csv_columns (w : World) (path : string) (options : option LoadOptions)
    (frame : Frame) :
  load_csv w path options = Ok frame ->
  exists df hts hrg hpr hdm its irg ipr ts regions prices demands,
    let overrides := column_overrides (default default_options options) in
    let rename_map : gmap string string :=
      fold_left (fun m kv => <[snd kv := fst kv]> m)
        ([("timestamp"%string, hts); ("region"%string, hrg);
          ("price"%string, hpr)]
         ++ match hdm with
            | None | Some EmptyString => []
            | Some h => [("demand"%string, h)]
            end) ∅ in
    let renamed := map (fun c => default c (rename_map !! c)) (columns df) in
    files w !! path = Some df /\ records df <> [] /\
    _resolve_column (columns df) "timestamp" overrides = Ok (Some hts) /\
    _resolve_column (columns df) "region" overrides = Ok (Some hrg) /\
    _resolve_column (columns df) "price" overrides = Ok (Some hpr) /\
    _resolve_column (columns df) "demand" overrides = Ok hdm /\
    (forall j, nth_error renamed j = Some "timestamp"%string <-> j = its) /\
    (forall j, nth_error renamed j = Some "region"%string <-> j = irg) /\
    (forall j, nth_error renamed j = Some "price"%string <-> j = ipr) /\
    apply_timezone w (timezone (default default_options options))
      (map (fun rec => as_datetime (nth its rec null_cell)) (records df))
    = Ok (map Some ts) /\
    length ts = length (records df) /\
    map (fun rec => as_numeric (nth ipr rec null_cell)) (records df)
    = map Some prices /\
    map (fun rec => text (nth irg rec null_cell)) (records df)
    = map Some regions /\
    frame = sort_values (zip_rows ts regions prices demands).
Proof.
  intros Hload. unfold load_csv in Hload.
  destruct (files w !! path) as [df|]; [|discriminate].
  destruct (columns df) as [|c0 cols0] eqn:Ecols; [discriminate|].
  destruct (records df) as [|rec0 recs0] eqn:Erecs; [discriminate|].
  rewrite <- Erecs, <- Ecols in *.
  set (ov := column_overrides (default default_options options)) in *.
  apply bind_Ok in Hload as (resolved & Hres & Hload).
  apply bind_Ok in Hload as (hdm & Hdm & Hload).
  unfold required_roles in Hres. cbn [mapM] in Hres.
  apply bind_Ok in Hres as ([k1 hts] & H1 & Hres).
  apply bind_Ok in Hres as (rest1 & Hres1 & Hres).
  apply bind_Ok in Hres1 as ([k2 hrg] & H2 & Hres1).
  apply bind_Ok in Hres1 as (rest2 & Hres2 & Hres1).
  apply bind_Ok in Hres2 as ([k3 hpr] & H3 & Hres2).
  cbn [bind] in Hres2. injection Hres2 as <-. injection Hres1 as <-.
  injection Hres as <-.
  assert (Hreq : forall key k h,
            resolve_required (columns df) ov key = Ok (k, h) ->
            k = key /\ _resolve_column (columns df) key ov = Ok (Some h)).
  { intros key k h Hr. unfold resolve_required in Hr.
    apply bind_Ok in Hr as ([[|ch c]|] & Hc & Hr); try discriminate.
    injection Hr as <- <-. now split. }
  apply Hreq in H1 as [-> H1]. apply Hreq in H2 as [-> H2].
  apply Hreq in H3 as [-> H3]. clear Hreq.
  assert (Eres :
    match hdm with
    | Some EmptyString | None =>
        [("timestamp", hts); ("region", hrg); ("price", hpr)]%string
    | Some (String a s0 as name) =>
        [("timestamp", hts); ("region", hrg); ("price", hpr)]%string
        ++ [("demand"%string, name)]
    end
    = [("timestamp"%string, hts); ("region"%string, hrg);
       ("price"%string, hpr)]
      ++ match hdm with
         | None | Some EmptyString => []
         | Some h => [("demand"%string, h)]
         end).
  { now destruct hdm as [[|]|]. }
  rewrite Eres in Hload. clear Eres.
  apply bind_Ok in Hload as (ts_cells & Hts & Hload).
  apply bind_Ok in Hload as (parsed & Hparsed & Hload).
  apply bind_Ok in Hload as (price_cells & Hpr & Hload).
  apply bind_Ok in Hload as (demands & _ & Hload).
  destruct (sequence parsed) as [ts|] eqn:Ets; [|discriminate].
  destruct (sequence (map as_numeric price_cells)) as [prices|] eqn:Epr;
    [|discriminate].
  apply bind_Ok in Hload as (region_cells & Hrg & Hload).
  destruct (sequence (map text region_cells)) as [regions|] eqn:Erg;
    [|discriminate].
  injection Hload as <-.
  apply column_position in Hts as (its & -> & Hits).
  apply column_position in Hpr as (ipr & -> & Hipr).
  apply column_position in Hrg as (irg & -> & Hirg).
  pose proof (apply_timezone_length _ _ _ _ Hparsed) as Lparsed.
  pose proof (sequence_length _ _ Ets) as Lts.
  rewrite !length_map in Lparsed.
  apply sequence_Some in Ets, Epr, Erg. rewrite map_map in Epr, Erg, Hparsed.
  rewrite Ets in Hparsed.
  exists df, hts, hrg, hpr, hdm, its, irg, ipr, ts, regions, prices, demands.
  cbv zeta. split; [reflexivity|]. split; [congruence|].
  repeat (split; [assumption|]).
  split; [lia|]. now repeat split.
Qed.

Lemma zip_rows_records (recs : list (list Cell)) (its irg ipr : nat)
    (ts : list Timestamp) (regions : list string) (prices : list Q)
    (demands : list (option Q)) :
  length ts = length recs ->
  map (fun rec => as_numeric (nth ipr rec null_cell)) recs = map Some prices ->
  map (fun rec => text (nth irg rec null_cell)) recs = map Some regions ->
  map (fun r => (Some (timestamp r), Some (region r), Some (price r)))
      (zip_rows ts regions prices demands)
  = map (fun x => (fst x, text (nth irg (snd x) null_cell),
                   as_numeric (nth ipr (snd x) null_cell)))
        (combine (map Some ts) recs).
Proof.
  revert ts regions prices demands.
  induction recs as [|rec recs IH]; intros [|t ts] regions prices demands L Ep Er;
    try discriminate; [reflexivity|].
  destruct regions as [|g regions]; [discriminate|].
  destruct prices as [|p prices]; [discriminate|].
  cbn in L, Ep, Er. injection Ep as Ep1 Ep. injection Er as Er1 Er.
  cbn [zip_rows map combine fst snd timestamp region price].
  rewrite Ep1, Er1. f_equal. apply IH; [lia | exact Ep | exact Er].
Qed.

(** X7: a table [load_csv] returns is in ascending timestamp order and has
    exactly one row for each record of the file, at least one: a record is
    never dropped.  Each role was resolved to a header; when no header was
    chosen for two roles, as is always the case without overrides, the
    headers chosen for timestamp, region and price each occur once in the
    file, and each row is one record: its timestamp is what the zone step
    made of the parsed cell under the first, its region the text of the cell
    under the second, its price the numeric reading of the cell under the
    third, none of them missing. *)
Theorem load_csv_keeps_every_record (w : World) (path : string)
    (options : option LoadOptions) (frame : Frame) :
  load_csv w path options = Ok frame ->
  let overrides := column_overrides (default default_options options) in
  exists df hts hrg hpr hdm,
    files w !! path = Some df /\
    frame <> [] /\ length frame = length (records df) /\
    StronglySorted ts_le frame /\
    _resolve_column (columns df) "timestamp" overrides = Ok (Some hts) /\
    _resolve_column (columns df) "region" overrides = Ok (Some hrg) /\
    _resolve_column (columns df) "price" overrides = Ok (Some hpr) /\
    _resolve_column (columns df) "demand" overrides = Ok hdm /\
    (overrides = None ->
     List.NoDup (Invariants.chosen_headers hts hrg hpr hdm)) /\
    (List.NoDup (Invariants.chosen_headers hts hrg hpr hdm) ->
     exists its irg ipr parsed,
       (forall i, nth_error (columns df) i = Some hts <-> i = its) /\
       (forall i, nth_error (columns df) i = Some hrg <-> i = irg) /\
       (forall i, nth_error (columns df) i = Some hpr <-> i = ipr) /\
       apply_timezone w (timezone (default default_options options))
         (map (fun rec => as_datetime (nth its rec null_cell)) (records df))
       = Ok parsed /\
       Permutation
         (map (fun r => (Some (timestamp r), Some (region r), Some (price r)))
              frame)
         (map (fun x => (fst x, text (nth irg (snd x) null_cell),
                         as_numeric (nth ipr (snd x) null_cell)))
              (combine parsed (records df)))).
Proof.
  intros Hload overrides.
  destruct (load_csv_columns _ _ _ _ Hload)
    as (df & hts & hrg & hpr & hdm & its & irg & ipr & ts & regions & prices
        & demands & Hf & Hne & Hts & Hrg & Hpr & Hdm & Hits & Hirg & Hipr
        & Hparsed & Lts & Epr & Erg & ->).
  fold overrides in Hts, Hrg, Hpr, Hdm.
  exists df, hts, hrg, hpr, hdm. split; [exact Hf|].
  assert (Lpr : length prices = length ts).
  { apply (f_equal (@length _)) in Epr. rewrite !length_map in Epr. lia. }
  assert (Lrg : length regions = length ts).
  { apply (f_equal (@length _)) in Erg. rewrite !length_map in Erg. lia. }
  assert (Lz : length (sort_values (zip_rows ts regions prices demands))
               = length (records df)).
  { rewrite <- (Permutation_length (sort_values_perm _)).
    now rewrite zip_rows_length. }
  split.
  { intros E. rewrite E in Lz. destruct (records df); [now apply Hne | discriminate]. }
  split; [exact Lz|]. split; [apply sort_values_sorted|].
  do 4 (split; [assumption|]).
  split.
  { intros Hov. rewrite Hov in Hts, Hrg, Hpr, Hdm.
    exact (chosen_headers_NoDup _ _ _ _ _ Hts Hrg Hpr Hdm). }
  intros Hnd. exists its, irg, ipr, (map Some ts).
  set (resolved := [("timestamp"%string, hts); ("region"%string, hrg);
                    ("price"%string, hpr)]
                   ++ match hdm with
                      | None | Some EmptyString => []
                      | Some h => [("demand"%string, h)]
                      end) in *.
  assert (Hsnd : map snd resolved = Invariants.chosen_headers hts hrg hpr hdm).
  { unfold resolved, Invariants.chosen_headers. now destruct hdm as [[|]|]. }
  rewrite <- Hsnd in Hnd.
  assert (Htie : forall (k h : string) (i : nat),
            In (k, h) resolved -> In h (columns df) ->
            (forall j,
               nth_error
                 (map (fun c => default c
                    (fold_left (fun m kv => <[snd kv := fst kv]> m) resolved
                       (∅ : gmap string string)
                     !! c)) (columns df)) j = Some k <-> j = i) ->
            forall j, nth_error (columns df) j = Some h <-> j = i).
  { intros k h i Hin Hcol Hpos.
    assert (Hren : forall j, nth_error (columns df) j = Some h -> j = i).
    { intros j Hj. apply Hpos. rewrite nth_error_map, Hj.
      cbn [option_map].
      now rewrite (rename_lookup resolved ∅ k h Hnd Hin). }
    intros j. split; [apply Hren|]. intros ->.
    apply In_nth_error in Hcol as [j Hj]. now rewrite <- (Hren j Hj). }
  split.
  { apply (Htie "timestamp"%string); [now left | | exact Hits].
    exact (resolve_column_In _ _ _ _ Hts). }
  split.
  { apply (Htie "region"%string); [right; now left | | exact Hirg].
    exact (resolve_column_In _ _ _ _ Hrg). }
  split.
  { apply (Htie "price"%string); [right; right; now left | | exact Hipr].
    exact (resolve_column_In _ _ _ _ Hpr). }
  split; [exact Hparsed|].
  etransitivity;
    [apply Permutation_map, Permutation_sym, sort_values_perm|].
  now rewrite (zip_rows_records (records df) its irg ipr ts regions prices
                 demands Lts Epr Erg).
Qed.

(** X8: with a timezone configured, the default ["UTC"] included, every
    timestamp of the table [load_csv] returns carries that zone. *)
Theorem load_csv_sets_zone (w : World) (path : string)
    (options : option LoadOptions) (frame : Frame) (z : string) :
  timezone (default default_options options) = Some z -> z <> ""%string ->
  load_csv w path options = Ok frame ->
  forall r, In r frame -> tz (timestamp r) = Some z.
Proof.
  intros Hz Hne Hload r Hr.
  destruct (load_csv_inv _ _ _ _ Hload)
    as (df & its & ipr & irg & parsed & ts & regions & prices & demands
        & Hf & _ & Hp & -> & _ & _ & ->).
  rewrite Hz in Hp.
  apply (Permutation_in _ (Permutation_sym (sort_values_perm _))) in Hr.
  apply zip_rows_timestamp in Hr.
  apply (apply_timezone_zone _ _ _ _ _ Hne Hp). now apply in_map.
Qed.

End LoadMore.

Section ResolveMore.

Import DataLoader Invariants.
Context `{SortValues}.

(** X10: [_resolve_column] never invents a header: what it returns is one of
    the source headers; and it fails only for an override that is not among
    them, so without overrides it never fails. *)
Theorem resolve_column_returns_header (columns : list string) (target : string)
    (overrides : option (gmap string string)) :
  (forall c, _resolve_column columns target overrides = Ok (Some c) ->
             c ∈ columns) /\
  (forall e, _resolve_column columns target overrides = Err e ->
             exists o, override_for overrides target = Some o /\
                       (o ∉ columns) /\ e = OverrideNotFound target o) /\
  (exists found, _resolve_column columns target None = Ok found).
Proof.
  assert (Hscan : forall c, resolve_by_alias columns target = Some c -> c ∈ columns).
  { unfold resolve_by_alias. generalize (default [] (DEFAULT_ALIASES !! target)).
    induction l as [|a l IH]; cbn; [discriminate|].
    destruct (normalize columns !! a) as [c'|] eqn:E; [|exact IH].
    intros c Hc. injection Hc as <-. now apply normalize_Some in E. }
  unfold _resolve_column, override_for.
  split; [|split; [|now eexists]].
  - intros c Hc. destruct overrides as [ov|].
    + destruct (ov !! target) as [o|].
      * destruct (bool_decide (o ∈ columns)) eqn:E; [|discriminate].
        injection Hc as <-. now apply bool_decide_eq_true in E.
      * injection Hc as Hc. now apply Hscan.
    + injection Hc as Hc. now apply Hscan.
  - intros e He. destruct overrides as [ov|]; [|discriminate].
    destruct (ov !! target) as [o|]; [|discriminate].
    destruct (bool_decide (o ∈ columns)) eqn:E; [discriminate|].
    injection He as <-. exists o. apply bool_decide_eq_false in E. now repeat split.
Qed.

Lemma scan_aliases_some (columns aliases : list string) :
  (exists alias, alias ∈ aliases /\ matches columns alias) ->
  exists c alias,
    scan_aliases (normalize columns) aliases = Some c /\
    alias ∈ aliases /\ lower c = alias.
Proof.
  induction aliases as [|a aliases IH]; intros (alias & Hin & Hm).
  - inversion Hin.
  - cbn. destruct (normalize columns !! a) as [c|] eqn:E.
    + exists c, a. split; [reflexivity|]. split; [apply list_elem_of_here|].
      now apply normalize_Some in E.
    + apply elem_of_cons in Hin as [->|Hin]; [now apply normalize_None in E|].
      destruct IH as (c & a' & Hc & Ha' & Hl); [now exists alias|].
      exists c, a'. split; [exact Hc|]. split; [|exact Hl].
      now apply list_elem_of_further.
Qed.

Lemma resolve_required_alias (columns : list string) (key : string) :
  key ∈ required_roles ->
  (resolvable columns key ->
   exists name, resolve_required columns None key = Ok (key, name)) /\
  (~ resolvable columns key ->
   resolve_required columns None key = Err (MissingRequiredColumn key)).
Proof.
  intros Hkey. unfold resolve_required, _resolve_column, resolve_by_alias.
  cbn [bind]. split.
  - intros Hr. destruct (scan_aliases_some columns _ Hr) as (c & a & Hc & Ha & Hl).
    rewrite Hc. destruct c as [|ch c]; [|now eexists].
    exfalso. cbn in Hl. subst a.
    unfold required_roles in Hkey.
    repeat (apply elem_of_cons in Hkey as [->|Hkey]);
      [| | |inversion Hkey];
      vm_compute in Ha;
      repeat (apply elem_of_cons in Ha as [Ha|Ha]; [discriminate Ha|]);
      inversion Ha.
  - intros Hn. rewrite scan_aliases_none; [reflexivity|].
    intros a Ha Hm. apply Hn. now exists a.
Qed.

(** X9: without overrides, an existing file with rows whose headers leave a
    required role unmatched fails with [MissingRequiredColumn]; the role
    named is the first of timestamp, region, price that no header matches. *)
Theorem load_csv_missing_column (w : World) (path : string)
    (options : option LoadOptions) (df : RawFrame)
    (before after : list string) (key : string) :
  files w !! path = Some df ->
  columns df <> [] -> records df <> [] ->
  column_overrides (default default_options options) = None ->
  required_roles = before ++ key :: after ->
  (forall k, In k before -> resolvable (columns df) k) ->
  ~ resolvable (columns df) key ->
  load_csv w path options = Err (MissingRequiredColumn key).
Proof.
  intros Hf Hc Hr Hov Hsplit Hbefore Hkey.
  unfold load_csv. rewrite Hf.
  destruct (columns df) as [|c0 cols0] eqn:Ec; [congruence|].
  destruct (records df) as [|rec0 recs0]; [congruence|].
  rewrite Hov, Hsplit.
  assert (Hin : forall k, In k before \/ k = key -> k ∈ required_roles).
  { intros k Hk. rewrite Hsplit. apply list_elem_of_In, in_or_app.
    destruct Hk as [Hk| ->]; [now left | right; now left]. }
  rewrite (mapM_app_Err _ before after key (MissingRequiredColumn key));
    [reflexivity | |].
  - intros k Hk.
    destruct (proj1 (resolve_required_alias (c0 :: cols0) k
                       (Hin k (or_introl Hk))) (Hbefore k Hk)) as [name Hn].
    now exists (k, name).
  - apply resolve_required_alias; [apply Hin; now right | exact Hkey].
Qed.

(** X11: [load_csvs] stops at the first file that fails to load and fails
    with that file's error, whether or not duplicates are to be dropped. *)
Theorem load_csvs_first_failure (w : World) (before after : list string)
    (path : string) (options : option LoadOptions) (e : error)
    (drop_duplicates : bool) :
  (forall p, In p before -> exists frame, load_csv w p options = Ok frame) ->
  load_csv w path options = Err e ->
  load_csvs w (before ++ path :: after) options drop_duplicates = Err e.
Proof.
  intros Hbefore Hpath.
  pose proof (mapM_app_Err _ before after path e Hbefore Hpath) as Hm.
  unfold load_csvs.
  destruct (before ++ path :: after) eqn:E; [now destruct before|].
  now rewrite Hm.
Qed.

End ResolveMore.

Section MergeMore.

Import DataLoader Invariants.
Context `{SortValues}.

Lemma drop_duplicates_distinct (seen : gset (Z * bool * string)) (l : Frame) :
  List.NoDup (map dup_key l) ->
  (forall r, In r l -> dup_key r ∉ seen) ->
  drop_duplicates_from seen l = l.
Proof.
  revert seen. induction l as [|x l IH]; intros seen Hnd Hfresh; [reflexivity|].
  cbn in Hnd |- *. apply List.NoDup_cons_iff in Hnd as [Hx Hnd].
  rewrite bool_decide_eq_false_2 by (apply Hfresh; now left).
  f_equal. apply IH; [exact Hnd|].
  intros r Hr Hin. apply elem_of_union in Hin as [Hin|Hin].
  - apply elem_of_singleton in Hin. apply Hx. rewrite <- Hin. now apply in_map.
  - apply (Hfresh r); [now right | exact Hin].
Qed.

Lemma drop_duplicates_all_seen (seen : gset (Z * bool * string)) (l : Frame) :
  (forall r, In r l -> dup_key r ∈ seen) -> drop_duplicates_from seen l = [].
Proof.
  induction l as [|x l IH]; intros Hs; [reflexivity|]. cbn.
  rewrite bool_decide_eq_true_2 by (apply Hs; now left).
  apply IH. intros r Hr. apply Hs. now right.
Qed.

Lemma drop_duplicates_app_known (seen : gset (Z * bool * string)) (l1 l2 : Frame) :
  (forall r, In r l2 ->
     dup_key r ∈ seen \/ exists r', In r' l1 /\ dup_key r' = dup_key r) ->
  drop_duplicates_from seen (l1 ++ l2) = drop_duplicates_from seen l1.
Proof.
  revert seen. induction l1 as [|x l1 IH]; intros seen Hk; cbn [app].
  - cbn. apply drop_duplicates_all_seen. intros r Hr.
    destruct (Hk r Hr) as [Hs|(r' & [] & _)]. exact Hs.
  - cbn. destruct (bool_decide (dup_key x ∈ seen)) eqn:E.
    + apply bool_decide_eq_true in E. apply IH. intros r Hr.
      destruct (Hk r Hr) as [Hs|(r' & [<-|Hr'] & Hkey)].
      * now left.
      * left. now rewrite <- Hkey.
      * right. now exists r'.
    + f_equal. apply IH. intros r Hr.
      destruct (Hk r Hr) as [Hs|(r' & [<-|Hr'] & Hkey)].
      * left. now apply elem_of_union_r.
      * left. apply elem_of_union_l. now apply elem_of_singleton.
      * right. now exists r'.
Qed.

Lemma comparable_spec (l : Frame) : comparable l = true <-> zone_uniform l.
Proof.
  unfold comparable, zone_uniform.
  rewrite orb_true_iff, !forallb_forall. split.
  - intros [Ha|Hn]; [left|right]; intros r Hr.
    + exact (proj1 (bool_decide_eq_true _) (Ha r Hr)).
    + exact (proj1 (bool_decide_eq_true _) (Hn r Hr)).
  - intros [Ha|Hn]; [left|right]; intros r Hr; apply bool_decide_eq_true.
    + now apply Ha.
    + now apply Hn.
Qed.

Lemma zone_uniform_sublist (l k : Frame) :
  (forall r, In r k -> In r l) -> zone_uniform l -> zone_uniform k.
Proof.
  intros Hsub [Ha|Hn]; [left|right]; intros r Hr.
  - apply Ha, Hsub, Hr.
  - apply Hn, Hsub, Hr.
Qed.

(** Among rows that are all zone-aware or all zone-naive, the key
    [drop_duplicates] compares is the instant and the region. *)
Lemma zone_uniform_key (l : Frame) (a b : Row) :
  zone_uniform l -> In a l -> In b l ->
  dup_key a = dup_key b <->
  (instant (timestamp a), region a) = (instant (timestamp b), region b).
Proof.
  intros Hu Ha Hb. unfold dup_key. split.
  - intros E. injection E as E1 _ E3. now rewrite E1, E3.
  - intros E. injection E as E1 E3. rewrite E1, E3. do 2 f_equal.
    destruct Hu as [Hu|Hu].
    + now rewrite !bool_decide_eq_true_2 by now apply Hu.
    + rewrite (Hu a Ha), (Hu b Hb). reflexivity.
Qed.

Lemma NoDup_map_finer {A B C} (f : A -> B) (g : A -> C) (l : list A) :
  (forall a b, In a l -> In b l -> g a = g b -> f a = f b) ->
  List.NoDup (map f l) -> List.NoDup (map g l).
Proof.
  induction l as [|x l IH]; intros Hfg Hnd; cbn in *; [constructor|].
  apply List.NoDup_cons_iff in Hnd as [Hx Hnd]. constructor.
  - intros Hin. apply in_map_iff in Hin as (y & Hy & Hin). apply Hx.
    apply in_map_iff. exists y. split; [|exact Hin].
    apply Hfg; [now right | now left | exact Hy].
  - apply IH; [|exact Hnd]. intros a b Ha Hb. apply Hfg; now right.
Qed.

(** Every row has a kept row of its key. *)
Lemma drop_duplicates_covers (seen : gset (Z * bool * string)) (l : Frame) (r : Row) :
  In r l ->
  dup_key r ∈ seen \/
  exists r', In r' (drop_duplicates_from seen l) /\ dup_key r' = dup_key r.
Proof.
  revert seen. induction l as [|x l IH]; intros seen Hin; [easy|]. cbn.
  destruct (bool_decide (dup_key x ∈ seen)) eqn:E.
  - apply bool_decide_eq_true in E. destruct Hin as [<-|Hin]; [now left|].
    now apply IH.
  - destruct Hin as [<-|Hin]; [right; exists x; split; [now left | reflexivity]|].
    destruct (IH ({[dup_key x]} ∪ seen) Hin) as [Hs|(r' & Hr' & Hk)].
    + apply elem_of_union in Hs as [Hs|Hs]; [|now left].
      apply elem_of_singleton in Hs. right. exists x. split; [now left | easy].
    + right. exists r'. split; [now right | exact Hk].
Qed.

(** Dropping duplicates neither creates nor removes a mix of zone-naive and
    zone-aware rows. *)
Lemma zone_uniform_drop_duplicates (l : Frame) :
  zone_uniform (drop_duplicates_rows l) <-> zone_uniform l.
Proof.
  split.
  - intros Hu.
    assert (Hk : forall r, In r l ->
              exists r', In r' (drop_duplicates_rows l) /\
                         (is_Some (tz (timestamp r')) <-> is_Some (tz (timestamp r)))).
    { intros r Hr.
      destruct (drop_duplicates_covers ∅ l r Hr) as [Hs|(r' & Hr' & Hk)];
        [now apply not_elem_of_empty in Hs|].
      exists r'. split; [exact Hr'|]. unfold dup_key in Hk.
      injection Hk as _ Hk _.
      split; intros Hs; apply (bool_decide_eq_true _);
        [rewrite <- Hk | rewrite Hk]; now apply bool_decide_eq_true. }
    destruct Hu as [Ha|Hn]; [left|right]; intros r Hr;
      destruct (Hk r Hr) as (r' & Hr' & Hs).
    + apply Hs. now apply Ha.
    + apply eq_None_not_Some. intros Hsome. apply Hs in Hsome.
      rewrite (Hn r' Hr') in Hsome. now destruct Hsome.
  - apply zone_uniform_sublist. intros r Hr.
    apply list_elem_of_In.
    eapply elem_of_sublist; [apply list_elem_of_In, Hr|].
    apply drop_duplicates_sublist.
Qed.

Lemma comparable_drop_duplicates (l : Frame) :
  comparable (drop_duplicates_rows l) = comparable l.
Proof.
  apply eq_true_iff_eq. rewrite !comparable_spec.
  apply zone_uniform_drop_duplicates.
Qed.

(** With a timezone configured every loaded row carries it. *)
Lemma mapM_load_csv_zone (w : World) (file_paths : list string)
    (options : option LoadOptions) (frames : list Frame) (z : string) :
  timezone (default default_options options) = Some z -> z <> ""%string ->
  mapM (fun path => load_csv w path options) file_paths = Ok frames ->
  forall r, In r (concat frames) -> tz (timestamp r) = Some z.
Proof.
  intros Hz Hne. revert frames.
  induction file_paths as [|p ps IH]; intros frames Hload r Hr; cbn in Hload.
  - injection Hload as <-. destruct Hr.
  - apply bind_Ok in Hload as (frame & Hp & Hload).
    apply bind_Ok in Hload as (rest & Hps & Hload). injection Hload as <-.
    cbn in Hr. apply in_app_or in Hr as [Hr|Hr]; [|now apply (IH rest)].
    destruct (load_csv_inv _ _ _ _ Hp)
      as (df & its & ipr & irg & parsed & ts & regions & prices & demands
          & Hf & _ & Hap & -> & _ & _ & ->).
    rewrite Hz in Hap.
    apply (Permutation_in _ (Permutation_sym (sort_values_perm _))) in Hr.
    apply zip_rows_timestamp in Hr.
    apply (apply_timezone_zone _ _ _ _ _ Hne Hap). now apply in_map.
Qed.

(** C7 (amended): for a non-empty list of files that all load to zone-aware
    rows, or all to zone-naive rows, [load_csvs] with [drop_duplicates=True]
    returns, sorted by ascending timestamp, the rows of the concatenation of
    the loaded frames (in the order of the list) that are the first of their
    [(timestamp, region)] pair; the condition holds whenever a timezone is
    configured, as it is by default.  An empty list is the error
    [NoCsvFiles]. *)
Theorem load_csvs_merge (w : World) (file_paths : list string)
    (options : option LoadOptions) (frames : list Frame) :
  file_paths <> [] ->
  mapM (fun path => load_csv w path options) file_paths = Ok frames ->
  let combined := concat frames in
  let pair := fun r : Row => (instant (timestamp r), region r) in
  (forall dd, load_csvs w [] options dd = Err NoCsvFiles) /\
  (forall z, timezone (default default_options options) = Some z ->
             z <> ""%string -> zone_uniform combined) /\
  (zone_uniform combined ->
   exists kept,
     load_csvs w file_paths options true = Ok (sort_values kept) /\
     sublist kept combined /\
     List.NoDup (map pair kept) /\
     (forall r, In r kept <->
        exists pre post,
          combined = pre ++ r :: post /\
          forall x, In x pre -> pair x <> pair r) /\
     StronglySorted ts_le (sort_values kept) /\
     Permutation kept (sort_values kept)).
Proof.
  intros Hne Hload combined pair. split; [reflexivity|]. split.
  { intros z Hz Hzne. left. intros r Hr.
    rewrite (mapM_load_csv_zone _ _ _ _ _ Hz Hzne Hload r Hr). now eexists. }
  intros Hu. exists (drop_duplicates_rows combined).
  assert (Hsub : forall r, In r (drop_duplicates_rows combined) -> In r combined).
  { intros r Hr. apply list_elem_of_In.
    eapply elem_of_sublist; [apply list_elem_of_In, Hr|].
    apply drop_duplicates_sublist. }
  split.
  { unfold load_csvs. destruct file_paths as [|p ps]; [congruence|].
    rewrite Hload. cbn [bind]. fold combined.
    rewrite comparable_drop_duplicates.
    now rewrite (proj2 (comparable_spec combined) Hu). }
  split; [apply drop_duplicates_sublist|].
  split.
  { apply (NoDup_map_finer dup_key); [|apply drop_duplicates_NoDup].
    intros a b Ha Hb Hab.
    apply (zone_uniform_key combined); [exact Hu | now apply Hsub.. | exact Hab]. }
  split; [|split; [apply sort_values_sorted | apply sort_values_perm]].
  intros r. split.
  - intros Hr. destruct (drop_duplicates_only_first _ _ _ Hr)
      as (pre & post & E & Hpre).
    exists pre, post. split; [exact E|]. intros x Hx Hxr. apply (Hpre x Hx).
    apply (zone_uniform_key combined); [exact Hu | | | exact Hxr];
      rewrite E; apply in_or_app; [now left | right; now left].
  - intros (pre & post & E & Hpre). rewrite E.
    apply drop_duplicates_first; [apply not_elem_of_empty|].
    intros x Hx Hxr. apply (Hpre x Hx).
    apply (zone_uniform_key combined); [exact Hu | | | exact Hxr];
      rewrite E; apply in_or_app; [now left | right; now left].
Qed.

(** X12: when the loaded rows are all zone-aware or all zone-naive,
    [load_csvs] with [drop_duplicates=False] returns all the rows of all the
    files, rearranged in ascending timestamp order, and with
    [drop_duplicates=True] it returns the same table whenever no two rows of
    the files share a [(timestamp, region)] pair.  When the loaded rows mix
    zone-aware and zone-naive timestamps, the final sort cannot compare them
    and [load_csvs] fails, whether or not duplicates are dropped. *)
Theorem load_csvs_keeps_rows (w : World) (file_paths : list string)
    (options : option LoadOptions) (frames : list Frame) :
  file_paths <> [] ->
  mapM (fun path => load_csv w path options) file_paths = Ok frames ->
  (zone_uniform (concat frames) ->
   exists merged,
     load_csvs w file_paths options false = Ok merged /\
     Permutation (concat frames) merged /\
     StronglySorted ts_le merged /\
     (List.NoDup (map (fun r => (instant (timestamp r), region r))
                      (concat frames)) ->
      load_csvs w file_paths options true = Ok merged)) /\
  (~ zone_uniform (concat frames) ->
   forall drop_duplicates,
     load_csvs w file_paths options drop_duplicates = Err PandasError).
Proof.
  intros Hne Hload. split.
  - intros Hu. exists (sort_values (concat frames)).
    pose proof (proj2 (comparable_spec _) Hu) as Hc.
    unfold load_csvs. destruct file_paths as [|p ps]; [congruence|].
    rewrite Hload. cbn [bind].
    split; [now rewrite Hc|]. split; [apply sort_values_perm|].
    split; [apply sort_values_sorted|].
    intros Hnd. unfold drop_duplicates_rows.
    rewrite drop_duplicates_distinct; [now rewrite Hc | |].
    + apply (NoDup_map_finer _ dup_key) in Hnd; [exact Hnd|].
      intros a b Ha Hb Hab. now apply (zone_uniform_key (concat frames)).
    + intros r _. apply not_elem_of_empty.
  - intros Hmix dd.
    assert (Hc : comparable (concat frames) = false).
    { apply not_true_is_false. intros Hc. now apply Hmix, comparable_spec. }
    unfold load_csvs. destruct file_paths as [|p ps]; [congruence|].
    rewrite Hload. cbn [bind].
    destruct dd; [rewrite comparable_drop_duplicates|]; now rewrite Hc.
Qed.

(** X13: with [drop_duplicates=True], a further file whose
    [(timestamp, region)] pairs all occur in the files before it changes
    nothing: in particular a file listed twice counts once. *)
Theorem load_csvs_known_file (w : World) (file_paths : list string)
    (path : string) (options : option LoadOptions)
    (frames : list Frame) (frame : Frame) :
  file_paths <> [] ->
  mapM (fun p => load_csv w p options) file_paths = Ok frames ->
  load_csv w path options = Ok frame ->
  (forall r, In r frame ->
     exists r', In r' (concat frames) /\ dup_key r' = dup_key r) ->
  load_csvs w (file_paths ++ [path]) options true
  = load_csvs w file_paths options true.
Proof.
  intros Hne Hload Hpath Hknown. unfold load_csvs.
  rewrite (mapM_snoc _ _ _ _ _ Hload Hpath), Hload.
  destruct file_paths as [|p ps]; [congruence|]. cbn [app bind].
  rewrite concat_app. cbn [concat]. rewrite app_nil_r.
  unfold drop_duplicates_rows. rewrite drop_duplicates_app_known; [reflexivity|].
  intros r Hr. right. now apply Hknown.
Qed.

End MergeMore.

(* ------------------------------------------------------------------ *)
(** * More on the summary and the spikes *)

Lemma series_max_spec (x : Q) (xs : list Q) :
  In (Analysis.series_max (x :: xs)) (x :: xs) /\
  forall y, In y (x :: xs) -> y <= Analysis.series_max (x :: xs).
Proof. apply fold_Qmax_spec. Qed.

Lemma filter_sublist_weaker {A} (f g : A -> bool) (l : list A) :
  (forall a, f a = true -> g a = true) ->
  sublist (List.filter f l) (List.filter g l).
Proof.
  intros Hfg. induction l as [|a l IH]; cbn; [constructor|].
  destruct (f a) eqn:Ef.
  - rewrite (Hfg a Ef). now apply sublist_skip.
  - destruct (g a); [now apply sublist_cons | exact IH].
Qed.

Section AnalysisMore.

Import Analysis.

Ltac lookup_ne := repeat (rewrite lookup_insert_ne by discriminate).

(** X14: the summary has [mean_demand] and [max_demand] exactly when some
    row has a demand value; they are the mean and the largest of the values
    present, rows without a value being left out. *)
Theorem compute_summary_demand (r : Row) (rest : Frame) :
  let df := r :: rest in
  let demands := dropna (map demand df) in
  exists summary,
    compute_summary df = Ok summary /\
    (forall x, In x demands <-> exists row, In row df /\ demand row = Some x) /\
    (demands = [] ->
     summary !! "mean_demand"%string = None /\
     summary !! "max_demand"%string = None) /\
    (demands <> [] ->
     summary !! "mean_demand"%string = Some (Q2R (Qsum demands / Qlen demands)) /\
     exists top,
       summary !! "max_demand"%string = Some (Q2R top) /\
       In top demands /\ forall x, In x demands -> x <= top).
Proof.
  intros df demands. eexists. split; [reflexivity|]. split; [|split].
  - intros x. subst demands. unfold dropna.
    rewrite <- list_elem_of_In, list_elem_of_omap. split.
    + intros ([y|] & Hy & Hx); [|discriminate]. injection Hx as ->.
      apply list_elem_of_In, in_map_iff in Hy as (row & Hd & Hrow).
      now exists row.
    + intros (row & Hrow & Hd). exists (Some x). split; [|reflexivity].
      apply list_elem_of_In. rewrite <- Hd. now apply in_map.
  - intros Hd. fold df. fold demands. rewrite Hd.
    destruct (negb (Qeq_bool (series_mean (map price df)) 0));
      split; lookup_ne; apply lookup_empty.
  - intros Hd. fold df. fold demands.
    destruct demands as [|d ds] eqn:E; [congruence|].
    split.
    + lookup_ne. apply lookup_insert_eq.
    + exists (series_max (d :: ds)). split; [apply lookup_insert_eq|].
      apply series_max_spec.
Qed.

(** X15: the statistics returned with the events: [spike_count] is the
    number of events; [max_spike] and [mean_spike] are present exactly when
    there is an event; [max_spike] is then the highest price among the
    events, at least the cut-off, and [mean_spike] the mean of their
    prices. *)
Theorem detect_spikes_stats (df : Frame) (threshold quantile : option Q)
    (events : Frame) (stats : gmap string Q) :
  detect_spikes df threshold quantile = Ok (events, stats) ->
  exists cutoff,
    stats !! "cutoff"%string = Some cutoff /\
    stats !! "spike_count"%string = Some (inject_Z (Z.of_nat (length events))) /\
    (events = [] ->
     stats !! "max_spike"%string = None /\ stats !! "mean_spike"%string = None) /\
    (events <> [] ->
     exists top,
       stats !! "max_spike"%string = Some top /\
       stats !! "mean_spike"%string
       = Some (Qsum (map price events) / Qlen (map price events)) /\
       cutoff <= top /\
       (exists row, In row events /\ price row = top) /\
       forall row, In row events -> price row <= top).
Proof.
  intros Hd. unfold detect_spikes in Hd.
  destruct df as [|r0 df0]; [discriminate|]. cbv beta iota in Hd.
  remember (r0 :: df0) as df eqn:Edf. clear Edf r0 df0.
  assert (Hc : exists cutoff,
             Ok (List.filter (fun r => Qle_bool cutoff (price r)) df,
                 match List.filter (fun r => Qle_bool cutoff (price r)) df with
                 | [] =>
                     <["spike_count"%string :=
                         Qlen (map price
                                 (List.filter (fun r => Qle_bool cutoff (price r)) df))]>
                     (<["cutoff"%string := cutoff]> ∅)
                 | _ :: _ =>
                     <["mean_spike"%string :=
                         series_mean
                           (map price
                              (List.filter (fun r => Qle_bool cutoff (price r)) df))]>
                     (<["max_spike"%string :=
                          series_max
                            (map price
                               (List.filter (fun r => Qle_bool cutoff (price r)) df))]>
                      (<["spike_count"%string :=
                           Qlen (map price
                                   (List.filter (fun r => Qle_bool cutoff (price r)) df))]>
                       (<["cutoff"%string := cutoff]> ∅)))
                 end) = Ok (events, stats)).
  { destruct threshold as [t|]; [now exists t|].
    destruct quantile as [q|]; [|discriminate].
    destruct (negb (Qle_bool 0 q && Qle_bool q 1)); [discriminate|].
    cbn [bind] in Hd. eexists. exact Hd. }
  clear Hd. destruct Hc as [cutoff Hc]. exists cutoff.
  injection Hc as He Hs.
  assert (Hall : forall row, In row events -> cutoff <= price row).
  { intros row Hrow. rewrite <- He in Hrow.
    apply List.filter_In in Hrow as [_ Hp]. now apply Qle_bool_iff. }
  rewrite He in Hs. subst stats.
  destruct events as [|e es] eqn:Ee.
  - split; [lookup_ne; apply lookup_insert_eq|].
    split; [apply lookup_insert_eq|].
    split; [|congruence]. intros _. split; lookup_ne; apply lookup_empty.
  - split; [lookup_ne; apply lookup_insert_eq|].
    split.
    { lookup_ne. rewrite lookup_insert_eq. unfold Qlen. now rewrite length_map. }
    split; [discriminate|]. intros _.
    exists (series_max (map price (e :: es))).
    split; [lookup_ne; apply lookup_insert_eq|].
    split; [apply lookup_insert_eq|].
    cbn [map].
    destruct (series_max_spec (price e) (map price es)) as [Hin Hmax].
    change (In (series_max (price e :: map price es)) (map price (e :: es))) in Hin.
    apply in_map_iff in Hin as (row & Hp & Hrow).
    split; [|split].
    + rewrite <- Hp. now apply Hall.
    + now exists row.
    + intros row' Hrow'. apply Hmax.
      change (In (price row') (map price (e :: es))). now apply in_map.
Qed.

(** X16: with a quantile in [0, 1] as the criterion, a table with rows
    always has at least one event. *)
Theorem detect_spikes_quantile_finds_one (df : Frame) (q : Q) :
  df <> [] -> 0 <= q -> q <= 1 ->
  exists events stats,
    detect_spikes df None (Some q) = Ok (events, stats) /\ events <> [].
Proof.
  intros Hne H0 H1.
  destruct (detect_spikes_with_cutoff df None (Some q)
              (series_quantile (map price df) q) Hne) as (stats & Hd & _).
  { apply Qle_bool_iff in H0, H1. now rewrite H0, H1. }
  eexists _, stats. split; [exact Hd|].
  destruct (series_quantile_between (map price df) q) as (_ & b & _ & Hb & _ & Hle);
    [destruct df; [congruence | discriminate] | exact H0 | exact H1 |].
  apply in_map_iff in Hb as (row & Hp & Hrow).
  intros Hnil.
  assert (Hin : In row (List.filter
                          (fun r => Qle_bool (series_quantile (map price df) q)
                                             (price r)) df)).
  { apply List.filter_In. split; [exact Hrow|]. apply Qle_bool_iff. now rewrite Hp. }
  now rewrite Hnil in Hin.
Qed.

(** X17: a stricter criterion only removes events: the events for a higher
    threshold, or for a higher quantile, are among the events for a lower
    one, in the same order. *)
Theorem detect_spikes_monotone (df : Frame) :
  df <> [] ->
  (forall t1 t2 q1 q2, t1 <= t2 ->
     exists e1 s1 e2 s2,
       detect_spikes df (Some t1) q1 = Ok (e1, s1) /\
       detect_spikes df (Some t2) q2 = Ok (e2, s2) /\ sublist e2 e1) /\
  (forall q1 q2, 0 <= q1 -> q1 <= q2 -> q2 <= 1 ->
     exists e1 s1 e2 s2,
       detect_spikes df None (Some q1) = Ok (e1, s1) /\
       detect_spikes df None (Some q2) = Ok (e2, s2) /\ sublist e2 e1).
Proof.
  intros Hne.
  assert (Hsub : forall c1 c2, c1 <= c2 ->
            sublist (List.filter (fun r => Qle_bool c2 (price r)) df)
                    (List.filter (fun r => Qle_bool c1 (price r)) df)).
  { intros c1 c2 Hc. apply filter_sublist_weaker. intros r Hr.
    apply Qle_bool_iff in Hr. apply Qle_bool_iff. lra. }
  split.
  - intros t1 t2 q1 q2 Ht.
    destruct (detect_spikes_with_cutoff df (Some t1) q1 t1 Hne eq_refl)
      as (s1 & Hd1 & _).
    destruct (detect_spikes_with_cutoff df (Some t2) q2 t2 Hne eq_refl)
      as (s2 & Hd2 & _).
    eexists _, s1, _, s2. split; [exact Hd1|]. split; [exact Hd2|]. now apply Hsub.
  - intros q1 q2 H0 H12 H1.
    assert (Hq : forall q, 0 <= q -> q <= 1 ->
              (if negb (Qle_bool 0 q && Qle_bool q 1)
               then Err InvalidQuantile
               else Ok (series_quantile (map price df) q))
              = Ok (series_quantile (map price df) q)).
    { intros q Ha Hb. apply Qle_bool_iff in Ha, Hb. now rewrite Ha, Hb. }
    destruct (detect_spikes_with_cutoff df None (Some q1) _ Hne (Hq q1 H0 ltac:(lra)))
      as (s1 & Hd1 & _).
    destruct (detect_spikes_with_cutoff df None (Some q2) _ Hne (Hq q2 ltac:(lra) H1))
      as (s2 & Hd2 & _).
    eexists _, s1, _, s2. split; [exact Hd1|]. split; [exact Hd2|].
    apply Hsub, series_quantile_mono; try assumption.
    destruct df; [congruence | discriminate].
Qed.

End AnalysisMore.

Section RegularSpacing.

Import Battery.

Lemma sortQ_repeat (c : Q) (n : nat) : sortQ (repeat c n) = repeat c n.
Proof.
  induction n as [|n IH]; [reflexivity|].
  cbn [repeat sortQ fold_right]. change (fold_right insertQ [] (repeat c n))
    with (sortQ (repeat c n)). rewrite IH.
  destruct n as [|n]; [reflexivity|]. cbn [repeat insertQ].
  assert (E : Qle_bool c c = true) by (apply Qle_bool_iff, Qle_refl).
  now rewrite E.
Qed.

Lemma nth_repeat_lt (c : Q) (n i : nat) : (i < n)%nat -> nth i (repeat c n) 0 = c.
Proof.
  revert i. induction n as [|n IH]; intros i Hi; [lia|].
  destruct i as [|i]; [reflexivity|]. cbn. apply IH. lia.
Qed.

Lemma series_median_repeat (c : Q) (n : nat) :
  series_median (repeat c (S n)) == c.
Proof.
  unfold series_median. rewrite sortQ_repeat, repeat_length.
  assert (H2 : (S n / 2 < S n)%nat) by (apply Nat.div_lt; lia).
  destruct (Nat.even (S n)).
  - rewrite !nth_repeat_lt by lia. field.
  - rewrite nth_repeat_lt by lia. reflexivity.
Qed.

(** X3: when the timestamps, put in order, are evenly spaced by [gap]
    nanoseconds, the interval length is that gap in hours. *)
Theorem interval_hours_regular (df : Frame) (gap : Z) (k : nat) :
  (0 < gap)%Z ->
  diffs (sortZ (map (fun r => instant (timestamp r)) df)) = repeat gap (S k) ->
  _estimate_interval_hours df == inject_Z gap / 1000000000 / 3600.
Proof.
  intros Hgap Hd. unfold _estimate_interval_hours. rewrite Hd, map_repeat.
  cbn [repeat]. change (total_seconds gap :: repeat (total_seconds gap) k)
    with (repeat (total_seconds gap) (S k)).
  pose proof (series_median_repeat (total_seconds gap) k) as Hm.
  assert (Hpos : 0 < total_seconds gap).
  { unfold total_seconds. apply Qlt_shift_div_l; [reflexivity|].
    rewrite Qmult_0_l. change 0 with (inject_Z 0). now rewrite <- Zlt_Qlt. }
  destruct (Qeq_bool (series_median (repeat (total_seconds gap) (S k))) 0) eqn:E.
  - apply Qeq_bool_iff in E. rewrite Hm in E. rewrite E in Hpos.
    now apply Qlt_irrefl in Hpos.
  - rewrite Hm. reflexivity.
Qed.

End RegularSpacing.

Section FilterFacts.

Import DataLoader Filter Invariants.

Variable upper : string -> string.

Lemma coerce_timestamp_zone (w : World) (value : option DateValue)
    (column_tz : option string) (t : Timestamp) :
  _coerce_timestamp w value column_tz = Kept (Some t) -> tz t = column_tz.
Proof.
  unfold _coerce_timestamp. intros Hc.
  destruct value as [v|]; [|discriminate].
  destruct (parsed v) as [|wall|utc wall zone]; [discriminate| |].
  - destruct column_tz as [z|]; [|now injection Hc as <-].
    destruct (zones w !! z) as [to_utc|]; [|discriminate].
    destruct (to_utc wall); [|discriminate]. now injection Hc as <-.
  - destruct column_tz as [z|]; now injection Hc as <-.
Qed.

Lemma filter_sublist {A} (f : A -> bool) (l : list A) : sublist (List.filter f l) l.
Proof.
  induction l as [|a l IH]; cbn; [constructor|].
  destruct (f a); [now apply sublist_skip | now apply sublist_cons].
Qed.

Lemma filter_twice {A} (f : A -> bool) (l : list A) :
  List.filter f (List.filter f l) = List.filter f l.
Proof.
  induction l as [|a l IH]; cbn; [reflexivity|].
  destruct (f a) eqn:E; [|exact IH]. cbn. now rewrite E, IH.
Qed.

Lemma filter_swap {A} (f g : A -> bool) (l : list A) :
  List.filter f (List.filter g l) = List.filter g (List.filter f l).
Proof.
  induction l as [|a l IH]; cbn; [reflexivity|].
  destruct (f a) eqn:Ef, (g a) eqn:Eg; cbn; rewrite ?Ef, ?Eg, IH; reflexivity.
Qed.

Lemma filter_data_Kept (w : World) (column_tz : option string) (df : Frame)
    (region : option string) (start end_ : option DateValue) (out : Frame) :
  filter_data upper w column_tz df region start end_ = Kept out ->
  exists start_ts end_ts,
    _coerce_timestamp w start column_tz = Kept start_ts /\
    _coerce_timestamp w end_ column_tz = Kept end_ts /\
    out = to_end end_ts (from_start start_ts (by_region upper region df)).
Proof.
  unfold filter_data. intros Hf.
  destruct (_coerce_timestamp w start column_tz) as [start_ts|]; [|discriminate].
  destruct (_coerce_timestamp w end_ column_tz) as [end_ts|]; [|discriminate].
  injection Hf as <-. now exists start_ts, end_ts.
Qed.

(** X18: the rows [filter_data] returns are, in their order in the table,
    exactly the rows whose region equals the one asked for up to case (when
    one is asked for) and whose timestamp is not before [start] and not after
    [end] (when given), both bounds included; each bound is compared after
    being brought to the zone of the table's timestamps, or made zone-naive
    when the table is. *)
Theorem filter_data_rows (w : World) (column_tz : option string) (df : Frame)
    (wanted : option string) (start end_ : option DateValue) (out : Frame) :
  filter_data upper w column_tz df wanted start end_ = Kept out ->
  exists start_ts end_ts,
    _coerce_timestamp w start column_tz = Kept start_ts /\
    _coerce_timestamp w end_ column_tz = Kept end_ts /\
    (forall t, start_ts = Some t \/ end_ts = Some t -> tz t = column_tz) /\
    sublist out df /\
    forall r,
      In r out <->
      In r df /\
      (forall g, wanted = Some g -> g <> ""%string ->
                 upper (region r) = upper g) /\
      (forall t, start_ts = Some t ->
                 (instant t <= instant (timestamp r))%Z) /\
      (forall t, end_ts = Some t ->
                 (instant (timestamp r) <= instant t)%Z).
Proof.
  intros Hf.
  destruct (filter_data_Kept _ _ _ _ _ _ _ Hf) as (start_ts & end_ts & Hs & He & ->).
  exists start_ts, end_ts. split; [exact Hs|]. split; [exact He|].
  split.
  { intros t [->| ->]; eapply coerce_timestamp_zone; eassumption. }
  assert (Hr : sublist (by_region upper wanted df) df /\
               forall r, In r (by_region upper wanted df) <->
                         In r df /\
                         (forall g, wanted = Some g -> g <> ""%string ->
                                    upper (region r) = upper g)).
  { unfold by_region. destruct wanted as [[|c0 g0]|].
    - split; [reflexivity|]. intros r. split; [|tauto].
      intros Hr. split; [exact Hr|]. intros g Hg. injection Hg as <-. congruence.
    - split; [apply filter_sublist|]. intros r.
      rewrite List.filter_In. unfold same_region. rewrite String.eqb_eq. split.
      + intros [Hr Hu]. split; [exact Hr|]. intros g Hg _. now injection Hg as <-.
      + intros [Hr Hu]. split; [exact Hr|]. now apply Hu.
    - split; [reflexivity|]. intros r. split; [|tauto].
      intros Hr. split; [exact Hr|]. discriminate. }
  destruct Hr as [Hsub Hr].
  assert (Hst : sublist (from_start start_ts (by_region upper wanted df)) df /\
                forall r, In r (from_start start_ts (by_region upper wanted df)) <->
                          In r (by_region upper wanted df) /\
                          (forall t, start_ts = Some t ->
                                     (instant t <= instant (timestamp r))%Z)).
  { unfold from_start. destruct start_ts as [t|].
    - split; [etransitivity; [apply filter_sublist | exact Hsub]|]. intros r.
      rewrite List.filter_In. unfold not_before. rewrite Z.leb_le. split.
      + intros [Hin Ht]. split; [exact Hin|]. intros t' Ht'. now injection Ht' as <-.
      + intros [Hin Ht]. split; [exact Hin|]. now apply Ht.
    - split; [exact Hsub|]. intros r. split; [|tauto].
      intros Hin. split; [exact Hin|]. discriminate. }
  destruct Hst as [Hsub' Hst].
  unfold to_end. destruct end_ts as [t|].
  - split; [etransitivity; [apply filter_sublist | exact Hsub']|]. intros r.
    rewrite List.filter_In, Hst, Hr. unfold not_after. rewrite Z.leb_le. split.
    + intros [[[Hin Hg] Hs'] Ht]. repeat (split; [assumption|]).
      intros t' Ht'. now injection Ht' as <-.
    + intros (Hin & Hg & Hs' & Ht). repeat split; try assumption. now apply Ht.
  - split; [exact Hsub'|]. intros r. rewrite Hst, Hr. split.
    + intros [[Hin Hg] Hs']. repeat (split; [assumption|]). discriminate.
    + intros (Hin & Hg & Hs' & _). now repeat split.
Qed.

(** X19: filtering what [filter_data] returned, with the same arguments,
    returns it unchanged. *)
Theorem filter_data_idempotent (w : World) (column_tz : option string)
    (df : Frame) (wanted : option string) (start end_ : option DateValue)
    (out : Frame) :
  filter_data upper w column_tz df wanted start end_ = Kept out ->
  filter_data upper w column_tz out wanted start end_ = Kept out.
Proof.
  intros Hf.
  destruct (filter_data_Kept _ _ _ _ _ _ _ Hf) as (start_ts & end_ts & Hs & He & ->).
  unfold filter_data. rewrite Hs, He. f_equal.
  change (to_end end_ts
            (from_start start_ts
               (by_region upper wanted
                  (to_end end_ts (from_start start_ts (by_region upper wanted df)))))
          = to_end end_ts (from_start start_ts (by_region upper wanted df))).
  set (R := by_region upper wanted). set (S := from_start start_ts).
  set (E := to_end end_ts).
  assert (HR : forall l, R (R l) = R l).
  { intros l. subst R. unfold by_region.
    destruct wanted as [[|c g]|]; try reflexivity. apply filter_twice. }
  assert (HS : forall l, S (S l) = S l).
  { intros l. subst S. unfold from_start.
    destruct start_ts; [apply filter_twice | reflexivity]. }
  assert (HE : forall l, E (E l) = E l).
  { intros l. subst E. unfold to_end.
    destruct end_ts; [apply filter_twice | reflexivity]. }
  assert (HRS : forall l, R (S l) = S (R l)).
  { intros l. subst R S. unfold by_region, from_start.
    destruct wanted as [[|c g]|], start_ts; try reflexivity. apply filter_swap. }
  assert (HRE : forall l, R (E l) = E (R l)).
  { intros l. subst R E. unfold by_region, to_end.
    destruct wanted as [[|c g]|], end_ts; try reflexivity. apply filter_swap. }
  assert (HSE : forall l, S (E l) = E (S l)).
  { intros l. subst S E. unfold from_start, to_end.
    destruct start_ts, end_ts; try reflexivity. apply filter_swap. }
  now rewrite HRE, HRS, HR, HSE, HS, HE.
Qed.

(** X20: [filter_data] fails only for a bound that does not parse, the
    error then naming that bound ([start] before [end]), or for a zone-naive
    bound whose wall time cannot be placed in the zone of a zone-aware
    table; with a zone-naive table and bounds that parse it returns. *)
Theorem filter_data_failures (w : World) (column_tz : option string)
    (df : Frame) (wanted : option string) (start end_ : option DateValue) :
  (forall e, filter_data upper w column_tz df wanted start end_ = Failed e ->
     (exists v, (start = Some v \/ end_ = Some v) /\
                ((parsed v = NaT /\ e = InvalidDatetime (shown v)) \/
                 (exists wall z, parsed v = Naive wall /\ column_tz = Some z /\
                                 e = ZoneError)))) /\
  (forall v, start = Some v -> parsed v = NaT ->
     filter_data upper w column_tz df wanted start end_
     = Failed (InvalidDatetime (shown v))) /\
  (column_tz = None ->
   (forall v, start = Some v \/ end_ = Some v -> parsed v <> NaT) ->
   exists out, filter_data upper w column_tz df wanted start end_ = Kept out).
Proof.
  assert (Hc : forall value e,
             _coerce_timestamp w value column_tz = Failed e ->
             exists v, value = Some v /\
               ((parsed v = NaT /\ e = InvalidDatetime (shown v)) \/
                (exists wall z, parsed v = Naive wall /\ column_tz = Some z /\
                                e = ZoneError))).
  { intros value e He. unfold _coerce_timestamp in He.
    destruct value as [v|]; [|discriminate]. exists v. split; [reflexivity|].
    destruct (parsed v) as [|wall|utc wall zone].
    - left. now injection He as <-.
    - right. exists wall. destruct column_tz as [z|]; [|discriminate]. exists z.
      destruct (zones w !! z) as [to_utc|];
        [destruct (to_utc wall); [discriminate|]|]; now injection He as <-.
    - destruct column_tz; discriminate. }
  split; [|split].
  - intros e Hf. unfold filter_data in Hf.
    destruct (_coerce_timestamp w start column_tz) as [start_ts|e1] eqn:Es.
    + destruct (_coerce_timestamp w end_ column_tz) as [end_ts|e2] eqn:Ee;
        [discriminate|].
      injection Hf as <-. destruct (Hc _ _ Ee) as (v & Hv & Hcase).
      exists v. split; [now right | exact Hcase].
    + injection Hf as <-. destruct (Hc _ _ Es) as (v & Hv & Hcase).
      exists v. split; [now left | exact Hcase].
  - intros v -> Hn. unfold filter_data, _coerce_timestamp. now rewrite Hn.
  - intros -> Hp. unfold filter_data.
    assert (Hk : forall value, (forall v, value = Some v -> parsed v <> NaT) ->
               exists t, _coerce_timestamp w value None = Kept t).
    { intros value Hv. unfold _coerce_timestamp.
      destruct value as [v|]; [|now eexists].
      specialize (Hv v eq_refl). destruct (parsed v); [congruence| |]; now eexists. }
    destruct (Hk start) as [s Hs]; [intros v Hv; apply Hp; now left|].
    destruct (Hk end_) as [e He]; [intros v Hv; apply Hp; now right|].
    rewrite Hs, He. now eexists.
Qed.

End FilterFacts.

Section MoreExampleFacts.

Import Battery DataLoader Analysis Filter Invariants Examples LoadExamples
       SpikeExamples MoreExamples.

(** The filter of the test keeps the one row at 200. *)
Example filter_data_test :
  filter_data upper world (Some "UTC"%string) hourly (Some "vic1"%string)
    (Some half_past_midnight) (Some two_o_clock)
  = Kept [ mkRow (utc_at (new_year + 2 * half_hour)) "VIC1" 200 (Some 1200) ].
Proof. vm_compute. reflexivity. Qed.

(** The thresholds of the toy series. *)
Lemma thresholds_ordered_witness :
  toy <> [] /\ valid_config toy_config /\
  exists r,
    battery_backtest toy toy_config = Ok r /\
    low_threshold r <= high_threshold r.
Proof.
  assert (Hne : toy <> []) by discriminate.
  split; [exact Hne|]. split; [exact toy_config_valid|].
  destruct (thresholds_ordered toy toy_config Hne toy_config_valid)
    as (r & Hr & Hle & _).
  exists r. split; [exact Hr | exact Hle].
Defined.


(** The toy series with a battery of no power. *)
Lemma idle_without_power_or_capacity_witness :
  toy <> [] /\ valid_config no_power /\
  (power_mw no_power <= 0 \/ capacity_mwh no_power <= 0) /\
  exists r,
    battery_backtest toy no_power = Ok r /\
    charge_events r = 0%nat /\ discharge_events r = 0%nat.
Proof.
  assert (Hne : toy <> []) by discriminate.
  assert (Hp : power_mw no_power <= 0 \/ capacity_mwh no_power <= 0)
    by (left; discriminate).
  split; [exact Hne|]. split; [exact no_power_valid|]. split; [exact Hp|].
  destruct (idle_without_power_or_capacity toy no_power Hne no_power_valid Hp)
    as (r & Hr & Hc & Hd & _).
  exists r. split; [exact Hr|]. split; [exact Hc | exact Hd].
Defined.

(** The toy series is hourly. *)
Lemma interval_hours_regular_witness :
  (0 < hour)%Z /\
  diffs (sortZ (map (fun r => instant (timestamp r)) toy)) = repeat hour 3 /\
  _estimate_interval_hours toy == inject_Z hour / 1000000000 / 3600.
Proof.
  assert (Hg : (0 < hour)%Z) by reflexivity.
  assert (Hd : diffs (sortZ (map (fun r => instant (timestamp r)) toy))
               = repeat hour 3) by reflexivity.
  split; [exact Hg|]. split; [exact Hd|].
  exact (interval_hours_regular toy hour 2 Hg Hd).
Defined.

Lemma part1_loads : load_csv world "part1.csv" None = Ok frame1.
Proof. vm_compute. reflexivity. Defined.

Lemma part2_loads : load_csv world "part2.csv" None = Ok frame2.
Proof. vm_compute. reflexivity. Defined.

(** The first test file: its regions are read under [REGIONID] and its
    prices under [RRP]. *)
Lemma load_csv_keeps_every_record_witness :
  load_csv world "part1.csv" None = Ok frame1 /\
  exists df,
    files world !! "part1.csv"%string = Some df /\
    length frame1 = length (records df) /\
    _resolve_column (columns df) "region" None = Ok (Some "REGIONID"%string) /\
    _resolve_column (columns df) "price" None = Ok (Some "RRP"%string) /\
    exists irg ipr parsed,
      nth_error (columns df) irg = Some "REGIONID"%string /\
      nth_error (columns df) ipr = Some "RRP"%string /\
      Permutation
        (map (fun r => (Some (timestamp r), Some (region r), Some (price r)))
             frame1)
        (map (fun x => (fst x, text (nth irg (snd x) null_cell),
                        as_numeric (nth ipr (snd x) null_cell)))
             (combine parsed (records df))).
Proof.
  split; [exact part1_loads|].
  destruct (load_csv_keeps_every_record world "part1.csv" None frame1 part1_loads)
    as (df & hts & hrg & hpr & hdm & Hf & _ & Hlen & _ & _ & Hrg & Hpr & _
        & Hnd & Htie).
  destruct (Htie (Hnd eq_refl))
    as (its & irg & ipr & parsed & _ & Hirg & Hipr & _ & Hperm).
  assert (Edf : df = part1).
  { assert (E : files world !! "part1.csv"%string = Some part1) by reflexivity.
    rewrite E in Hf. now injection Hf as <-. }
  rewrite Edf in *.
  assert (Ehrg : hrg = "REGIONID"%string).
  { assert (E : _resolve_column (columns part1) "region" None
                = Ok (Some "REGIONID"%string)) by (vm_compute; reflexivity).
    change (_resolve_column (columns part1) "region" None = Ok (Some hrg)) in Hrg.
    rewrite E in Hrg. now injection Hrg as <-. }
  assert (Ehpr : hpr = "RRP"%string).
  { assert (E : _resolve_column (columns part1) "price" None
                = Ok (Some "RRP"%string)) by (vm_compute; reflexivity).
    change (_resolve_column (columns part1) "price" None = Ok (Some hpr)) in Hpr.
    rewrite E in Hpr. now injection Hpr as <-. }
  rewrite Ehrg in *. rewrite Ehpr in *.
  exists part1. split; [reflexivity|]. split; [exact Hlen|].
  split; [exact Hrg|]. split; [exact Hpr|].
  exists irg, ipr, parsed.
  split; [now apply Hirg|]. split; [now apply Hipr | exact Hperm].
Defined.

Lemma load_csv_sets_zone_witness :
  timezone (default default_options None) = Some "UTC"%string /\
  "UTC"%string <> ""%string /\
  load_csv world "part1.csv" None = Ok frame1 /\
  forall r, In r frame1 -> tz (timestamp r) = Some "UTC"%string.
Proof.
  assert (Hz : timezone (default default_options None) = Some "UTC"%string)
    by reflexivity.
  assert (Hne : "UTC"%string <> ""%string) by discriminate.
  split; [exact Hz|]. split; [exact Hne|]. split; [exact part1_loads|].
  exact (load_csv_sets_zone world "part1.csv" None frame1 "UTC" Hz Hne part1_loads).
Defined.

(** A file with the headers [timestamp] and [region] only. *)
Lemma load_csv_missing_column_witness :
  load_csv bad_world "bad.csv" None = Err (MissingRequiredColumn "price").
Proof.
  apply (load_csv_missing_column bad_world "bad.csv" None no_price
           ["timestamp"; "region"]%string [] "price").
  - reflexivity.
  - discriminate.
  - discriminate.
  - reflexivity.
  - reflexivity.
  - intros k [<-|[<-|[]]].
    + exists "timestamp"%string. split; [apply list_elem_of_here|].
      exists "timestamp"%string. split; [apply list_elem_of_here | reflexivity].
    + exists "region"%string. split; [apply list_elem_of_here|].
      exists "region"%string.
      split; [apply list_elem_of_further, list_elem_of_here | reflexivity].
  - intros (alias & Ha & c & Hc & Hl).
    vm_compute in Ha.
    repeat (apply elem_of_cons in Hc as [->|Hc]);
      [| |inversion Hc];
      repeat (apply elem_of_cons in Ha as [->|Ha]);
      try discriminate Hl; inversion Ha.
Defined.

(** A list naming a file that does not exist. *)
Lemma load_csvs_first_failure_witness :
  (forall p, In p ["part1.csv"%string] ->
     exists frame, load_csv world p None = Ok frame) /\
  load_csv world "nowhere.csv" None = Err (FileNotFound "nowhere.csv") /\
  load_csvs world ["part1.csv"; "nowhere.csv"; "part2.csv"]%string None true
  = Err (FileNotFound "nowhere.csv").
Proof.
  assert (Hb : forall p, In p ["part1.csv"%string] ->
                 exists frame, load_csv world p None = Ok frame).
  { intros p [<-|[]]. exists frame1. exact part1_loads. }
  assert (He : load_csv world "nowhere.csv" None
               = Err (FileNotFound "nowhere.csv")) by reflexivity.
  split; [exact Hb|]. split; [exact He|].
  exact (load_csvs_first_failure world ["part1.csv"%string] ["part2.csv"%string]
           "nowhere.csv" None _ true Hb He).
Defined.

Lemma both_parts_load :
  mapM (fun path => load_csv world path None) ["part1.csv"; "part2.csv"]%string
  = Ok [frame1; frame2].
Proof. vm_compute. reflexivity. Defined.

Lemma both_parts_uniform : zone_uniform (concat [frame1; frame2]).
Proof. apply comparable_spec. reflexivity. Defined.

(** The two test files load to two frames of two rows, and merge. *)
Lemma load_csvs_merge_witness :
  ["part1.csv"; "part2.csv"]%string <> [] /\
  mapM (fun path => load_csv world path None) ["part1.csv"; "part2.csv"]%string
  = Ok [frame1; frame2] /\
  zone_uniform (concat [frame1; frame2]) /\
  exists kept,
    load_csvs world ["part1.csv"; "part2.csv"]%string None true
    = Ok (sort_values kept) /\
    List.NoDup (map (fun r => (instant (timestamp r), region r)) kept) /\
    Permutation kept (sort_values kept).
Proof.
  assert (Hne : ["part1.csv"; "part2.csv"]%string <> []) by discriminate.
  split; [exact Hne|]. split; [exact both_parts_load|].
  split; [exact both_parts_uniform|].
  destruct (load_csvs_merge world _ None _ Hne both_parts_load)
    as (_ & _ & Hm).
  destruct (Hm both_parts_uniform) as (kept & Hk & _ & Hnd & _ & _ & Hp).
  exists kept. split; [exact Hk|]. split; [exact Hnd | exact Hp].
Defined.

(** C7 as stated fails: with [timezone=None] the first test file loads to
    zone-naive rows and the file written with an offset to a zone-aware
    row; both load, and the sort of their concatenation cannot compare
    them. *)
Lemma mixed_zones_break_merge :
  ["part1.csv"; "aware.csv"]%string <> [] /\
  mapM (fun path => load_csv world path (Some no_timezone))
       ["part1.csv"; "aware.csv"]%string
  = Ok [ [ mkRow (naive new_year) "VIC1" 50 None;
           mkRow (naive (new_year + half_hour)) "VIC1" 60 None ];
         [ mkRow brisbane "QLD1" 50 None ] ] /\
  load_csvs world ["part1.csv"; "aware.csv"]%string (Some no_timezone) true
  = Err PandasError /\
  load_csvs world ["part1.csv"; "aware.csv"]%string (Some no_timezone) false
  = Err PandasError.
Proof.
  split; [discriminate|]. split; [vm_compute; reflexivity|].
  split; vm_compute; reflexivity.
Qed.

Lemma load_csvs_keeps_rows_witness :
  ["part1.csv"; "part2.csv"]%string <> [] /\
  mapM (fun path => load_csv world path None) ["part1.csv"; "part2.csv"]%string
  = Ok [frame1; frame2] /\
  zone_uniform (concat [frame1; frame2]) /\
  exists merged,
    load_csvs world ["part1.csv"; "part2.csv"]%string None false = Ok merged /\
    Permutation (concat [frame1; frame2]) merged.
Proof.
  assert (Hne : ["part1.csv"; "part2.csv"]%string <> []) by discriminate.
  split; [exact Hne|]. split; [exact both_parts_load|].
  split; [exact both_parts_uniform|].
  destruct (load_csvs_keeps_rows world _ None _ Hne both_parts_load)
    as (Hu & _).
  destruct (Hu both_parts_uniform) as (merged & Hm & Hp & _).
  exists merged. split; [exact Hm | exact Hp].
Defined.

Lemma part1_alone :
  mapM (fun path => load_csv world path None) ["part1.csv"%string] = Ok [frame1].
Proof. vm_compute. reflexivity. Defined.

(** The first test file listed twice. *)
Lemma load_csvs_known_file_witness :
  ["part1.csv"%string] <> [] /\
  (forall r, In r frame1 ->
     exists r', In r' (concat [frame1]) /\ dup_key r' = dup_key r) /\
  load_csvs world (["part1.csv"%string] ++ ["part1.csv"%string]) None true
  = load_csvs world ["part1.csv"%string] None true.
Proof.
  assert (Hne : ["part1.csv"%string] <> []) by discriminate.
  assert (Hk : forall r, In r frame1 ->
                 exists r', In r' (concat [frame1]) /\ dup_key r' = dup_key r).
  { intros r Hr. exists r. split; [|reflexivity]. cbn [concat].
    rewrite app_nil_r. exact Hr. }
  split; [exact Hne|]. split; [exact Hk|].
  exact (load_csvs_known_file world ["part1.csv"%string] "part1.csv" None
           [frame1] frame1 Hne part1_alone part1_loads Hk).
Defined.

Lemma spikes_300_found :
  detect_spikes four_rows (Some 300) None = Ok (fst spikes_300, snd spikes_300).
Proof. vm_compute. reflexivity. Defined.

Lemma detect_spikes_stats_witness :
  detect_spikes four_rows (Some 300) None = Ok (fst spikes_300, snd spikes_300) /\
  exists cutoff,
    snd spikes_300 !! "cutoff"%string = Some cutoff /\
    snd spikes_300 !! "spike_count"%string
    = Some (inject_Z (Z.of_nat (length (fst spikes_300)))).
Proof.
  split; [exact spikes_300_found|].
  destruct (detect_spikes_stats four_rows (Some 300) None _ _ spikes_300_found)
    as (cutoff & Hc & Hn & _).
  exists cutoff. split; [exact Hc | exact Hn].
Defined.

Lemma detect_spikes_quantile_finds_one_witness :
  four_rows <> [] /\ 0 <= 9#10 /\ 9#10 <= 1 /\
  exists events stats,
    detect_spikes four_rows None (Some (9#10)) = Ok (events, stats) /\
    events <> [].
Proof.
  assert (Hne : four_rows <> []) by discriminate.
  assert (H0 : 0 <= 9#10) by discriminate.
  assert (H1 : 9#10 <= 1) by discriminate.
  split; [exact Hne|]. split; [exact H0|]. split; [exact H1|].
  exact (detect_spikes_quantile_finds_one four_rows (9#10) Hne H0 H1).
Defined.

Lemma detect_spikes_monotone_witness :
  four_rows <> [] /\
  exists e1 s1 e2 s2,
    detect_spikes four_rows (Some 100) None = Ok (e1, s1) /\
    detect_spikes four_rows (Some 300) None = Ok (e2, s2) /\ sublist e2 e1.
Proof.
  assert (Hne : four_rows <> []) by discriminate.
  split; [exact Hne|].
  assert (Hle : 100 <= 300) by discriminate.
  exact (proj1 (detect_spikes_monotone four_rows Hne) 100 300 None None Hle).
Defined.

Lemma filter_test_kept :
  filter_data upper world (Some "UTC"%string) hourly (Some "vic1"%string)
    (Some half_past_midnight) (Some two_o_clock)
  = Kept [ mkRow (utc_at (new_year + 2 * half_hour)) "VIC1" 200 (Some 1200) ].
Proof. vm_compute. reflexivity. Defined.

Lemma filter_data_rows_witness :
  filter_data upper world (Some "UTC"%string) hourly (Some "vic1"%string)
    (Some half_past_midnight) (Some two_o_clock)
  = Kept [ mkRow (utc_at (new_year + 2 * half_hour)) "VIC1" 200 (Some 1200) ] /\
  sublist [ mkRow (utc_at (new_year + 2 * half_hour)) "VIC1" 200 (Some 1200) ]
          hourly.
Proof.
  split; [exact filter_test_kept|].
  destruct (filter_data_rows upper world _ _ _ _ _ _ filter_test_kept)
    as (s & e & _ & _ & _ & Hsub & _).
  exact Hsub.
Defined.

Lemma filter_data_idempotent_witness :
  filter_data upper world (Some "UTC"%string) hourly (Some "vic1"%string)
    (Some half_past_midnight) (Some two_o_clock)
  = Kept [ mkRow (utc_at (new_year + 2 * half_hour)) "VIC1" 200 (Some 1200) ] /\
  filter_data upper world (Some "UTC"%string)
    [ mkRow (utc_at (new_year + 2 * half_hour)) "VIC1" 200 (Some 1200) ]
    (Some "vic1"%string) (Some half_past_midnight) (Some two_o_clock)
  = Kept [ mkRow (utc_at (new_year + 2 * half_hour)) "VIC1" 200 (Some 1200) ].
Proof.
  split; [exact filter_test_kept|].
  exact (filter_data_idempotent upper world _ _ _ _ _ _ filter_test_kept).
Defined.

End MoreExampleFacts.
